(** * Jarvis API gateway: registry, load balancer, rate limiter, unary proxy

    A shallow embedding of [src/services/api-gateway] and the properties
    the specification states about it.

    Conventions of the embedding:
    - a Python [dict] is an insertion-ordered association list with at most
      one entry per key ([PyDict]); iteration order is list order;
    - [time.time()] and [datetime.now()] are read from the environment and
      passed to every operation as an argument;
    - a Python [float] (a clock reading of [time.time()], a latency) is the
      rational number it denotes; comparisons are exact, as they are on
      doubles, and the sums and differences the rate limiter forms of clock
      readings are rounded to the nearest double ([Float.add],
      [Float.sub]); quotients that only feed statistics (a percentage, a
      mean latency) are left unrounded; a [datetime] is an integer count of
      microseconds; a Python [int] is a [Z];
    - an object mutated in place (a deque, a [ServiceInfo], a
      [ServiceInstance]) is written back at the place it lives in. *)

From Stdlib Require Import String.
From Stdlib Require Import List ZArith Lia Bool Permutation Arith.
From Stdlib Require Import QArith Qround Qabs Qpower Qreduction Lqa Sorted.
Import ListNotations.
Local Open Scope string_scope.
Local Open Scope Z_scope.
Local Open Scope list_scope.

(* ------------------------------------------------------------------ *)
(** ** Floats: comparisons and rounded arithmetic *)

Module Float.

(** [x < y] *)
Definition ltb (x y : Q) : bool := negb (Qle_bool y x).

(** [x > y] *)
Definition gtb (x y : Q) : bool := ltb y x.

(** [x >= y] *)
Definition geb (x y : Q) : bool := Qle_bool y x.

(** A Python [float] is an IEEE 754 binary64 number: 53 significant bits,
    the least exponent of a unit in the last place being -1074.  Only the
    finite values are modelled; no clock reading comes near the largest
    of them. *)
Definition prec : Z := 53.
Definition emin : Z := -1074.

Definition pow2 (e : Z) : Q := (2 ^ e)%Q.

(** The integer part of the binary logarithm of [q > 0]. *)
Definition ilog2 (q : Q) : Z :=
  let k := Z.log2 (Qnum q) - Z.log2 (Zpos (Qden q)) in
  if Qle_bool (pow2 k) q then k else k - 1.

(** The exponent of the unit in the last place of the doubles around
    [x]. *)
Definition ulp_exp (x : Q) : Z := Z.max emin (ilog2 (Qabs x) - (prec - 1)).

(** The nearest integer, the even one of two equally near. *)
Definition rne (q : Q) : Z :=
  let f := Qfloor q in
  match Qcompare (q - inject_Z f) (1 # 2) with
  | Lt => f
  | Gt => f + 1
  | Eq => if Z.even f then f else f + 1
  end.

(** The double nearest to [x] (round to nearest, ties to even), in lowest
    terms. *)
Definition round (x : Q) : Q :=
  let e := ulp_exp x in
  Qred (inject_Z (rne (x / pow2 e)) * pow2 e).

(** [x + y] and [x - y] on floats. *)
Definition add (x y : Q) : Q := round (x + y).
Definition sub (x y : Q) : Q := round (x - y).

(** [float(n)], the conversion an [int] operand of a float operation
    undergoes.  The operands converted here are the block duration (the
    constant 300) and a window length in seconds, far inside the range of
    doubles. *)
Definition of_int (n : Z) : Q := round (inject_Z n).

(** [x] is the value of a double. *)
Definition representable (x : Q) : Prop := (round x == x)%Q.

End Float.

(* ------------------------------------------------------------------ *)
(** ** Python dictionaries with string keys *)

Module PyDict.

Section Dict.
Context {V : Type}.

Definition t := list (string * V).

Definition empty : t := [].

(** [d.get(k)] *)
Fixpoint get (k : string) (d : t) : option V :=
  match d with
  | [] => None
  | (k', v) :: r => if String.eqb k k' then Some v else get k r
  end.

(** [k in d] *)
Definition mem (k : string) (d : t) : bool :=
  match get k d with Some _ => true | None => false end.

(** [d[k] = v]: an existing key keeps its position, a new key goes last. *)
Fixpoint set (k : string) (v : V) (d : t) : t :=
  match d with
  | [] => [(k, v)]
  | (k', v') :: r =>
      if String.eqb k k' then (k, v) :: r else (k', v') :: set k v r
  end.

(** [del d[k]] (for a key that is present; absent keys leave [d] as is). *)
Fixpoint del (k : string) (d : t) : t :=
  match d with
  | [] => []
  | (k', v') :: r =>
      if String.eqb k k' then del k r else (k', v') :: del k r
  end.

(** [list(d.keys())] *)
Definition keys (d : t) : list string := map fst d.

(** Well-formedness: one entry per key. *)
Definition wf (d : t) : Prop := NoDup (keys d).

End Dict.

Arguments t : clear implicits.

End PyDict.

(* ------------------------------------------------------------------ *)
(** ** rate_limiter.py *)

Module RateLimiter.

(** [RateLimitConfig] *)
Record RateLimitConfig := mkConfig {
  requests_per_minute : Z;
  burst_limit : Z;
  window_size : Z
}.

(** [RateLimiter]: [requests] is the [defaultdict(deque)] of request times
    (oldest first), [blocked_ips] maps a client to its block-until time. *)
Record t := mk {
  config : RateLimitConfig;
  requests : PyDict.t (list Q);
  blocked_ips : PyDict.t Q;
  block_duration : Z
}.

(** [RateLimiter.__init__] *)
Definition init (rpm : Z) : t :=
  {| config := {| requests_per_minute := rpm; burst_limit := 10;
                  window_size := 60 |};
     requests := PyDict.empty;
     blocked_ips := PyDict.empty;
     block_duration := 300 |}.

(** The length of the burst interval, the literal [10] of [is_allowed]. *)
Definition burst_window : Z := 10.

(** [while request_times and current_time - request_times[0] > window_size:
       request_times.popleft()] *)
Fixpoint evict (window : Z) (now : Q) (q : list Q) : list Q :=
  match q with
  | [] => []
  | t0 :: r =>
      if Float.gtb (Float.sub now t0) (inject_Z window)
      then evict window now r
      else q
  end.

(** [self.requests[client_ip]] read through the [defaultdict]: a missing
    key reads as an empty deque. *)
Definition history (c : string) (rl : t) : list Q :=
  match PyDict.get c (requests rl) with
  | Some q => q
  | None => []
  end.

(** [sum(1 for req_time in request_times if current_time - req_time < 10)] *)
Definition recent_requests (now : Q) (q : list Q) : Z :=
  Z.of_nat
    (length (filter (fun t0 => Float.ltb (Float.sub now t0)
                                         (inject_Z burst_window))
                    q)).

(** The part of [is_allowed] from [request_times = self.requests[client_ip]]
    on, run with the block map [blocked] the first part leaves.  The deque
    is the dictionary's own object: the eviction and the append are seen in
    [requests], and the [defaultdict] creates the entry on a miss. *)
Definition check_window (now : Q) (c : string) (rl : t)
    (blocked : PyDict.t Q) : bool * t :=
  let request_times := evict (window_size (config rl)) now (history c rl) in
  if Z.of_nat (length request_times) >=? requests_per_minute (config rl) then
    (false,
     {| config := config rl;
        requests := PyDict.set c request_times (requests rl);
        blocked_ips :=
          PyDict.set c (Float.add now (Float.of_int (block_duration rl)))
                     blocked;
        block_duration := block_duration rl |})
  else if recent_requests now request_times >=? burst_limit (config rl) then
    (false,
     {| config := config rl;
        requests := PyDict.set c request_times (requests rl);
        blocked_ips := blocked;
        block_duration := block_duration rl |})
  else
    (true,
     {| config := config rl;
        requests := PyDict.set c (request_times ++ [now]) (requests rl);
        blocked_ips := blocked;
        block_duration := block_duration rl |}).

(** [RateLimiter.is_allowed], [now] being [time.time()]. *)
Definition is_allowed (now : Q) (c : string) (rl : t) : bool * t :=
  match PyDict.get c (blocked_ips rl) with
  | Some block_until =>
      if Float.ltb now block_until then (false, rl)
      else check_window now c rl (PyDict.del c (blocked_ips rl))
  | None => check_window now c rl (blocked_ips rl)
  end.

(** [RateLimiter.is_blocked] *)
Definition is_blocked (now : Q) (c : string) (rl : t) : bool * t :=
  match PyDict.get c (blocked_ips rl) with
  | None => (false, rl)
  | Some block_until =>
      if Float.geb now block_until then
        (false,
         {| config := config rl;
            requests := requests rl;
            blocked_ips := PyDict.del c (blocked_ips rl);
            block_duration := block_duration rl |})
      else (true, rl)
  end.

(** [RateLimiter.unblock_ip] *)
Definition unblock_ip (c : string) (rl : t) : bool * t :=
  match PyDict.get c (blocked_ips rl) with
  | Some _ =>
      (true,
       {| config := config rl;
          requests := requests rl;
          blocked_ips := PyDict.del c (blocked_ips rl);
          block_duration := block_duration rl |})
  | None => (false, rl)
  end.

(** [expired_blocks] of [cleanup_expired_entries]. *)
Definition expired_blocks (now : Q) (blocked : PyDict.t Q) : list string :=
  map fst (filter (fun e => Float.geb now (snd e)) blocked).

(** [for ip in expired_blocks: del self.blocked_ips[ip]] *)
Definition delete_all (ks : list string) (blocked : PyDict.t Q) : PyDict.t Q :=
  fold_left (fun d ip => PyDict.del ip d) ks blocked.

(** The loop [for ip, request_times in self.requests.items()] of
    [cleanup_expired_entries], over the entries not yet visited.  The loop
    deletes from the dictionary it iterates: after the first
    [del self.requests[ip]] the iterator's next step raises [RuntimeError]
    (dictionary changed size during iteration), which the method's
    [except Exception] catches, so the entries after the deleted one are
    not visited.  The result is the dictionary left behind and whether the
    loop raised. *)
Fixpoint cleanup_requests (window : Z) (now : Q) (items : PyDict.t (list Q))
    : PyDict.t (list Q) * bool :=
  match items with
  | [] => ([], false)
  | (ip, q) :: rest =>
      match evict window now q with
      | [] => (rest, true)
      | q' =>
          let '(rest', raised) := cleanup_requests window now rest in
          ((ip, q') :: rest', raised)
      end
  end.

(** [RateLimiter.cleanup_expired_entries] *)
Definition cleanup_expired_entries (now : Q) (rl : t) : t :=
  let blocked := delete_all (expired_blocks now (blocked_ips rl))
                            (blocked_ips rl) in
  {| config := config rl;
     requests := fst (cleanup_requests (window_size (config rl)) now
                                       (requests rl));
     blocked_ips := blocked;
     block_duration := block_duration rl |}.

(** Consecutive [is_allowed] calls of one client at the times [ts]. *)
Fixpoint calls (c : string) (ts : list Q) (rl : t) : list bool * t :=
  match ts with
  | [] => ([], rl)
  | now :: ts' =>
      let '(r, rl1) := is_allowed now c rl in
      let '(rs, rl2) := calls c ts' rl1 in
      (r :: rs, rl2)
  end.

(** [RateLimiter.get_remaining_requests]: the count, and the limiter with
    the client's history evicted (the [defaultdict] creates the entry). *)
Definition get_remaining_requests (now : Q) (c : string) (rl : t) : Z * t :=
  let request_times := evict (window_size (config rl)) now (history c rl) in
  (Z.max 0 (requests_per_minute (config rl)
            - Z.of_nat (length request_times)),
   {| config := config rl;
      requests := PyDict.set c request_times (requests rl);
      blocked_ips := blocked_ips rl;
      block_duration := block_duration rl |}).

(** [RateLimiter.get_reset_time]; reading [self.requests[client_ip]]
    creates the client's entry when it has none. *)
Definition get_reset_time (c : string) (rl : t) : option Q * t :=
  match PyDict.get c (blocked_ips rl) with
  | Some block_until => (Some block_until, rl)
  | None =>
      let rl' := {| config := config rl;
                    requests := PyDict.set c (history c rl) (requests rl);
                    blocked_ips := blocked_ips rl;
                    block_duration := block_duration rl |} in
      match history c rl with
      | [] => (None, rl')
      | oldest_request :: _ =>
          (Some (Float.add oldest_request
                           (Float.of_int (window_size (config rl)))), rl')
      end
  end.

(** [RateLimiter.clear_ip_history] *)
Definition clear_ip_history (c : string) (rl : t) : bool * t :=
  if PyDict.mem c (requests rl) then
    (true,
     {| config := config rl;
        requests := PyDict.del c (requests rl);
        blocked_ips := blocked_ips rl;
        block_duration := block_duration rl |})
  else (false, rl).

(** The dictionary [get_stats] returns. *)
Record Stats := mkStats {
  active_ips : Z;
  blocked_count : Z;
  total_requests : Z;
  requests_per_minute_limit : Z;
  stats_burst_limit : Z;
  stats_window_size : Z;
  stats_block_duration : Z
}.

(** The first loop of [get_stats]: every history is evicted in place;
    the result is [active_ips], [total_requests] and the dictionary. *)
Fixpoint count_requests (window : Z) (now : Q) (items : PyDict.t (list Q))
    : Z * Z * PyDict.t (list Q) :=
  match items with
  | [] => (0, 0, [])
  | (ip, q) :: rest =>
      let request_times := evict window now q in
      let '(active, total, rest') := count_requests window now rest in
      match request_times with
      | [] => (active, total, (ip, request_times) :: rest')
      | _ => (active + 1, total + Z.of_nat (length request_times),
              (ip, request_times) :: rest')
      end
  end.

(** The second loop of [get_stats]: the blocks that have not expired. *)
Definition count_blocked (now : Q) (blocked : PyDict.t Q) : Z :=
  Z.of_nat (length (filter (fun e => Float.ltb now (snd e)) blocked)).

(** [RateLimiter.get_stats] *)
Definition get_stats (now : Q) (rl : t) : Stats * t :=
  let '(active, total, evicted) :=
    count_requests (window_size (config rl)) now (requests rl) in
  ({| active_ips := active;
      blocked_count := count_blocked now (blocked_ips rl);
      total_requests := total;
      requests_per_minute_limit := requests_per_minute (config rl);
      stats_burst_limit := burst_limit (config rl);
      stats_window_size := window_size (config rl);
      stats_block_duration := block_duration rl |},
   {| config := config rl;
      requests := evicted;
      blocked_ips := blocked_ips rl;
      block_duration := block_duration rl |}).

(** [RateLimiter.reset_all] *)
Definition reset_all (rl : t) : t :=
  {| config := config rl;
     requests := PyDict.empty;
     blocked_ips := PyDict.empty;
     block_duration := block_duration rl |}.

(** The operations on a limiter that leave its configuration alone. *)
Inductive op :=
| IsAllowed (now : Q) (c : string)
| GetRemainingRequests (now : Q) (c : string)
| GetResetTime (c : string)
| IsBlocked (now : Q) (c : string)
| UnblockIp (c : string)
| ClearIpHistory (c : string)
| GetStats (now : Q)
| CleanupExpiredEntries (now : Q)
| ResetAll.

Definition step (rl : t) (o : op) : t :=
  match o with
  | IsAllowed now c => snd (is_allowed now c rl)
  | GetRemainingRequests now c => snd (get_remaining_requests now c rl)
  | GetResetTime c => snd (get_reset_time c rl)
  | IsBlocked now c => snd (is_blocked now c rl)
  | UnblockIp c => snd (unblock_ip c rl)
  | ClearIpHistory c => snd (clear_ip_history c rl)
  | GetStats now => snd (get_stats now rl)
  | CleanupExpiredEntries now => cleanup_expired_entries now rl
  | ResetAll => reset_all rl
  end.

Definition run (ops : list op) (rl : t) : t := fold_left step ops rl.

(** The clock reading an operation is made at, when it reads the clock. *)
Definition op_time (o : op) : option Q :=
  match o with
  | IsAllowed now _ | GetRemainingRequests now _ | IsBlocked now _
  | GetStats now | CleanupExpiredEntries now => Some now
  | _ => None
  end.

(** The clock never runs backwards along [ops], starting at [t0]. *)
Fixpoint monotone_clock (t0 : Q) (ops : list op) : Prop :=
  match ops with
  | [] => True
  | o :: r =>
      match op_time o with
      | Some now => (t0 <= now)%Q /\ monotone_clock now r
      | None => monotone_clock t0 r
      end
  end.

(** The requests of a history that are at most [window] old at [now], by
    the measure of the eviction loop. *)
Definition within_window (window : Z) (now : Q) (q : list Q) : list Q :=
  filter (fun t0 => Qle_bool (Float.sub now t0) (inject_Z window)) q.

(** No client is left with a block-until time that has passed. *)
Definition no_expired_block (now : Q) (rl : t) : Prop :=
  forall c b, PyDict.get c (blocked_ips rl) = Some b -> (now < b)%Q.

(** No client is left with a history that the eviction loop would empty. *)
Definition no_stale_history (now : Q) (rl : t) : Prop :=
  forall c q, PyDict.get c (requests rl) = Some q ->
              evict (window_size (config rl)) now q <> [].

(** The clock readings of thirteen calls of one client, the clock being
    set back (from 995 to 700) before the twelfth. *)
Definition stepped_back_clock : list Q :=
  ([935] ++ repeat 995 10 ++ [700; 1001])%Q.

(** A limiter holding two clients whose only request is long
    out of the window. *)
Definition two_idle_clients : t :=
  {| config := config (init 5);
     requests := [("a", [0%Q]); ("b", [0%Q])];
     blocked_ips := [];
     block_duration := 300 |}.

End RateLimiter.

(* ------------------------------------------------------------------ *)
(** ** HTTP exchanges as the gateway sees them *)

Module Http.

(** What [response.json()] returns when it returns: the parsed value, an
    object being a Python [dict].  Numbers are never inspected by the
    gateway; their payload stands for any numeric literal. *)
#[local] Set Warnings "-register-all".
Inductive json :=
| JNull
| JBool (b : bool)
| JNumber (n : Z)
| JString (s : string)
| JArray (items : list json)
| JObject (members : PyDict.t json).

(** An [httpx.Response]: [parsed] is [None] when [response.json()] raises. *)
Record Response := mkResponse {
  status_code : Z;
  content_type : string;
  text : string;
  parsed : option json
}.

(** The exceptions [httpx] raises, as far as the handlers tell them apart. *)
Inductive Error :=
| TimeoutException
| ConnectError
| OtherError.

(** The outcome of one request: a response, or an exception. *)
Inductive Outcome :=
| Responded (r : Response)
| Raised (e : Error).

End Http.

(* ------------------------------------------------------------------ *)
(** ** service_registry.py *)

Module ServiceRegistry.
Import Http.

Definition Metadata := PyDict.t string.

(** [ServiceInfo] *)
Record ServiceInfo := mkInfo {
  name : string;
  url : string;
  health_url : string;
  registered_at : Z;
  last_health_check : option Z;
  is_healthy : bool;
  response_time : option Q;
  metadata : Metadata
}.

(** [ServiceRegistry]; the monitoring task itself is its flag [is_running]. *)
Record t := mk {
  services : PyDict.t ServiceInfo;
  health_check_interval : Z;
  health_check_timeout : Z;
  is_running : bool
}.

(** [ServiceRegistry.__init__] *)
Definition init : t :=
  {| services := PyDict.empty;
     health_check_interval := 30;
     health_check_timeout := 10;
     is_running := false |}.

(** [ServiceRegistry._check_service_health], on the outcome of
    [client.get(health_url)].  A body that is valid JSON but not an object
    has no [get]: the [AttributeError] ends in the same bare [except] as a
    body that is not JSON. *)
Definition _check_service_health (probe : Outcome) : bool :=
  match probe with
  | Raised _ => false
  | Responded response =>
      if status_code response =? 200 then
        match parsed response with
        | Some (JObject data) =>
            match PyDict.get "status" data with
            | Some (JString s) => String.eqb s "healthy"
            | _ => false
            end
        | _ => true
        end
      else false
  end.

(** The URL normalisation of [register_service]. *)
Definition normalize_url (u : string) : string :=
  if String.prefix "http://" u || String.prefix "https://" u then u
  else ("http://" ++ u)%string.

(** [ServiceRegistry.register_service]; [probe] is the outcome of the
    health request, [t_reg] and [t_check] the two readings of
    [datetime.now()]. *)
Definition register_service (nm u : string) (md : option Metadata)
    (probe : Outcome) (t_reg t_check : Z) (reg : t) : bool * t :=
  let u' := normalize_url u in
  let hu := (u' ++ "/health")%string in
  let healthy := _check_service_health probe in
  let service_info :=
    {| name := nm; url := u'; health_url := hu;
       registered_at := t_reg; last_health_check := Some t_check;
       is_healthy := healthy; response_time := None;
       metadata := match md with
                   | Some m => m
                   | None => PyDict.empty
                   end |} in
  (true,
   {| services := PyDict.set nm service_info (services reg);
      health_check_interval := health_check_interval reg;
      health_check_timeout := health_check_timeout reg;
      is_running := true |}).

(** [ServiceRegistry.unregister_service] *)
Definition unregister_service (nm : string) (reg : t) : bool * t :=
  if PyDict.mem nm (services reg) then
    (true,
     {| services := PyDict.del nm (services reg);
        health_check_interval := health_check_interval reg;
        health_check_timeout := health_check_timeout reg;
        is_running := is_running reg |})
  else (false, reg).

(** [ServiceRegistry.get_service_url] *)
Definition get_service_url (nm : string) (reg : t) : option string :=
  match PyDict.get nm (services reg) with
  | Some info => if is_healthy info then Some (url info) else None
  | None => None
  end.

(** [ServiceRegistry.is_service_healthy] *)
Definition is_service_healthy (nm : string) (reg : t) : bool :=
  match PyDict.get nm (services reg) with
  | Some info => is_healthy info
  | None => false
  end.

(** [ServiceRegistry.get_registered_services] *)
Definition get_registered_services (reg : t) : list string :=
  PyDict.keys (services reg).

(** [ServiceRegistry._update_service_health] on one record: [probe] is the
    outcome of the request, [elapsed] the measured time, [now] the clock. *)
Definition _update_service_health (probe : Outcome) (elapsed : Q) (now : Z)
    (info : ServiceInfo) : ServiceInfo :=
  let healthy := _check_service_health probe in
  {| name := name info; url := url info; health_url := health_url info;
     registered_at := registered_at info;
     last_health_check := Some now;
     is_healthy := healthy;
     response_time := if healthy then Some elapsed else None;
     metadata := metadata info |}.

(** One round of [_health_monitoring_loop]: every record is probed and
    updated in place; [probe] gives, for a health URL, the outcome and the
    elapsed time of its request in this round. *)
Definition probe_cycle (probe : string -> Outcome * Q) (now : Z) (reg : t) : t :=
  {| services :=
       map (fun e =>
              let '(o, elapsed) := probe (health_url (snd e)) in
              (fst e, _update_service_health o elapsed now (snd e)))
           (services reg);
     health_check_interval := health_check_interval reg;
     health_check_timeout := health_check_timeout reg;
     is_running := is_running reg |}.

(** [ServiceRegistry.get_healthy_services] *)
Definition get_healthy_services (reg : t) : list string :=
  map fst (filter (fun e => is_healthy (snd e)) (services reg)).

(** [ServiceRegistry.get_unhealthy_services] *)
Definition get_unhealthy_services (reg : t) : list string :=
  map fst (filter (fun e => negb (is_healthy (snd e))) (services reg)).

(** [ServiceRegistry.stop_health_monitoring] *)
Definition stop_health_monitoring (reg : t) : t :=
  {| services := services reg;
     health_check_interval := health_check_interval reg;
     health_check_timeout := health_check_timeout reg;
     is_running := false |}.

(** [ServiceRegistry.cleanup] *)
Definition cleanup (reg : t) : t :=
  {| services := PyDict.empty;
     health_check_interval := health_check_interval reg;
     health_check_timeout := health_check_timeout reg;
     is_running := false |}.

(** The dictionary [get_service_statistics] returns. *)
Record Statistics := mkStatistics {
  total_services : Z;
  healthy_services : Z;
  unhealthy_services : Z;
  health_percentage : Q;
  average_response_time : Q;
  monitoring_active : bool
}.

(** [sum(xs)] on floats. *)
Definition sum_floats (xs : list Q) : Q := fold_right Qplus 0%Q xs.

(** [[s.response_time for s in self.services.values()
      if s.response_time is not None]] *)
Definition response_times (reg : t) : list Q :=
  flat_map (fun e => match response_time (snd e) with
                     | Some rt => [rt]
                     | None => []
                     end) (services reg).

(** [ServiceRegistry.get_service_statistics] *)
Definition get_service_statistics (reg : t) : Statistics :=
  let total := Z.of_nat (length (services reg)) in
  let healthy :=
    Z.of_nat (length (filter (fun e => is_healthy (snd e)) (services reg))) in
  let rts := response_times reg in
  {| total_services := total;
     healthy_services := healthy;
     unhealthy_services := total - healthy;
     health_percentage :=
       if total >? 0 then (inject_Z healthy / inject_Z total * 100)%Q
       else 0%Q;
     average_response_time :=
       match rts with
       | [] => 0%Q
       | _ => (sum_floats rts / inject_Z (Z.of_nat (length rts)))%Q
       end;
     monitoring_active := is_running reg |}.

(** What holds of every record of a registry: it is stored under its own
    name, its health URL is its URL followed by [/health], its URL has a
    scheme, it has been probed, and it carries a response time only while
    it is healthy. *)
Definition record_ok (nm : string) (info : ServiceInfo) : Prop :=
  name info = nm
  /\ health_url info = (url info ++ "/health")%string
  /\ (String.prefix "http://" (url info) = true
      \/ String.prefix "https://" (url info) = true)
  /\ last_health_check info <> None
  /\ (response_time info <> None -> is_healthy info = true).

(** The operations that change a registry. *)
Inductive op :=
| Register (nm u : string) (md : option Metadata) (probe : Outcome)
           (t_reg t_check : Z)
| Unregister (nm : string)
| ProbeCycle (probe : string -> Outcome * Q) (now : Z)
| StopMonitoring
| Cleanup.

Definition step (reg : t) (o : op) : t :=
  match o with
  | Register nm u md probe t_reg t_check =>
      snd (register_service nm u md probe t_reg t_check reg)
  | Unregister nm => snd (unregister_service nm reg)
  | ProbeCycle probe now => probe_cycle probe now reg
  | StopMonitoring => stop_health_monitoring reg
  | Cleanup => cleanup reg
  end.

(** The registry after a sequence of operations. *)
Definition run (ops : list op) (reg : t) : t := fold_left step ops reg.

(** States the registry can be in: those a run from [init] ends in. *)
Definition reachable (reg : t) : Prop := exists ops, reg = run ops init.

(** One registration request: address, metadata, probe outcome and the
    two clock readings. *)
Record Registration := mkRegistration {
  r_url : string;
  r_metadata : option Metadata;
  r_probe : Outcome;
  r_registered_at : Z;
  r_checked_at : Z
}.

Definition register_op (nm : string) (r : Registration) : op :=
  Register nm (r_url r) (r_metadata r) (r_probe r)
           (r_registered_at r) (r_checked_at r).

(** One round of the monitoring loop: what every probe answers, and the
    clock. *)
Definition probe_op (p : (string -> Outcome * Q) * Z) : op :=
  ProbeCycle (fst p) (snd p).

(** A probe answered with 200 and no JSON body. *)
Definition probe_ok : Outcome :=
  Responded {| status_code := 200; content_type := "text/plain";
               text := "ok"; parsed := None |}.

(** Two registrations with distinct addresses, the first with
    metadata. *)
Definition registration_a : Registration :=
  {| r_url := "a:8001"; r_metadata := Some [("zone", "eu")];
     r_probe := probe_ok;
     r_registered_at := 0; r_checked_at := 0 |}.

Definition registration_b : Registration :=
  {| r_url := "b:8001"; r_metadata := None; r_probe := Raised ConnectError;
     r_registered_at := 1; r_checked_at := 1 |}.

(** A round of probes in which every service answers 200 within 0.05 s. *)
Definition all_up : (string -> Outcome * Q) * Z :=
  (fun _ => (probe_ok, (1 # 20)%Q), 30).

End ServiceRegistry.

(* ------------------------------------------------------------------ *)
(** ** load_balancer.py *)

Module LoadBalancer.

(** [LoadBalancingStrategy] *)
Inductive LoadBalancingStrategy :=
| ROUND_ROBIN
| RANDOM
| LEAST_CONNECTIONS
| WEIGHTED_ROUND_ROBIN
| LEAST_RESPONSE_TIME.

(** [ServiceInstance] *)
Record ServiceInstance := mkInstance {
  url : string;
  weight : Z;
  active_connections : Z;
  response_time : Q;
  last_used : Q;
  is_healthy : bool
}.

(** [ServiceInstance(url=u, weight=w)] *)
Definition new_instance (u : string) (w : Z) : ServiceInstance :=
  {| url := u; weight := w; active_connections := 0; response_time := 0;
     last_used := 0; is_healthy := true |}.

(** [LoadBalancer]; the registry it holds a reference to is passed to the
    one method that reads it. *)
Record t := mk {
  strategy : LoadBalancingStrategy;
  service_instances : PyDict.t (list ServiceInstance);
  round_robin_counters : PyDict.t Z
}.

(** [LoadBalancer.__init__] *)
Definition init (s : LoadBalancingStrategy) : t :=
  {| strategy := s;
     service_instances := PyDict.empty;
     round_robin_counters := PyDict.empty |}.

(** A reference to an instance object: its position in the service's list,
    with the fields it has when the list is read.  The list handed to a
    selection function is a list of references into the service's own
    list, so the instance a selection returns can be updated in place. *)
Definition Ref : Type := nat * ServiceInstance.

Definition refs (l : list ServiceInstance) : list Ref :=
  combine (seq 0 (length l)) l.

(** [[inst for inst in instances if inst.is_healthy]] *)
Definition healthy_instances (l : list ServiceInstance) : list Ref :=
  filter (fun r => is_healthy (snd r)) (refs l).

(** [if service_name not in self.round_robin_counters:
       self.round_robin_counters[service_name] = 0] *)
Definition touch_counter (nm : string) (counters : PyDict.t Z) : PyDict.t Z :=
  if PyDict.mem nm counters then counters else PyDict.set nm 0 counters.

(** [self.round_robin_counters[service_name]] once the key is there. *)
Definition counter_of (nm : string) (counters : PyDict.t Z) : Z :=
  match PyDict.get nm counters with
  | Some c => c
  | None => 0
  end.

(** [LoadBalancer._round_robin_selection]: the selected element and the
    counters it leaves.  [None] is the [ZeroDivisionError] of an empty
    list, which [_select_instance] never passes on (the counter the source
    has initialised by then is not kept). *)
Definition _round_robin_selection {A : Type} (nm : string)
    (instances : list A) (counters : PyDict.t Z) : option (A * PyDict.t Z) :=
  let counters1 := touch_counter nm counters in
  let counter := counter_of nm counters1 in
  let n := Z.of_nat (length instances) in
  if n =? 0 then None
  else
    match nth_error instances (Z.to_nat (counter mod n)) with
    | Some selected_instance =>
        Some (selected_instance,
              PyDict.set nm ((counter + 1) mod n) counters1)
    | None => None
    end.

(** [random.choice(instances)], [draw] being the generator's draw. *)
Definition _random_selection {A : Type} (draw : nat) (instances : list A)
    : option A :=
  nth_error instances (draw mod length instances).

(** [min(x :: l, key=key)]: the first element with the least key. *)
Fixpoint min_by {A K : Type} (ltb : K -> K -> bool) (key : A -> K) (x : A)
    (l : list A) : A :=
  match l with
  | [] => x
  | y :: r => min_by ltb key (if ltb (key y) (key x) then y else x) r
  end.

(** [LoadBalancer._least_connections_selection] *)
Definition _least_connections_selection (instances : list Ref) : option Ref :=
  match instances with
  | [] => None
  | x :: l => Some (min_by Z.ltb (fun r => active_connections (snd r)) x l)
  end.

(** [LoadBalancer._weighted_round_robin_selection] *)
Definition _weighted_round_robin_selection (nm : string)
    (instances : list Ref) (counters : PyDict.t Z)
    : option (Ref * PyDict.t Z) :=
  let weighted_instances :=
    flat_map (fun r => repeat r (Z.to_nat (weight (snd r)))) instances in
  match weighted_instances with
  | [] =>
      match instances with
      | r :: _ => Some (r, counters)
      | [] => None
      end
  | _ => _round_robin_selection nm weighted_instances counters
  end.

(** [LoadBalancer._least_response_time_selection] *)
Definition _least_response_time_selection (instances : list Ref)
    : option Ref :=
  match filter (fun r => Float.gtb (response_time (snd r)) 0) instances with
  | x :: l => Some (min_by Float.ltb (fun r => response_time (snd r)) x l)
  | [] =>
      match instances with
      | r :: _ => Some r
      | [] => None
      end
  end.

(** [LoadBalancer._select_instance] *)
Definition _select_instance (s : LoadBalancingStrategy) (draw : nat)
    (nm : string) (instances : list Ref) (counters : PyDict.t Z)
    : option (Ref * PyDict.t Z) :=
  match instances with
  | [] => None
  | _ =>
      match s with
      | ROUND_ROBIN => _round_robin_selection nm instances counters
      | RANDOM =>
          option_map (fun r => (r, counters)) (_random_selection draw instances)
      | LEAST_CONNECTIONS =>
          option_map (fun r => (r, counters))
                     (_least_connections_selection instances)
      | WEIGHTED_ROUND_ROBIN =>
          _weighted_round_robin_selection nm instances counters
      | LEAST_RESPONSE_TIME =>
          option_map (fun r => (r, counters))
                     (_least_response_time_selection instances)
      end
  end.

(** Update in place of the object at position [i]. *)
Fixpoint update_at {A : Type} (i : nat) (f : A -> A) (l : list A) : list A :=
  match l, i with
  | [], _ => []
  | x :: r, O => f x :: r
  | x :: r, S i' => x :: update_at i' f r
  end.

(** [selected_instance.active_connections += 1;
     selected_instance.last_used = time.time()] *)
Definition mark_used (now : Q) (inst : ServiceInstance) : ServiceInstance :=
  {| url := url inst; weight := weight inst;
     active_connections := active_connections inst + 1;
     response_time := response_time inst;
     last_used := now;
     is_healthy := is_healthy inst |}.

(** The truth value of a string ([if service_url:]). *)
Definition truthy (s : string) : bool := negb (String.eqb s "").

(** [LoadBalancer.get_service_url].  [registry_url] is what
    [self.service_registry.get_service_url(service_name)] returns, [now] is
    [time.time()], [draw] the random draw.  The result carries, next to the
    URL the method returns, the position of the selected instance in the
    service's list. *)
Definition resolve (nm : string) (registry_url : option string)
    (now : Q) (draw : nat) (lb : t) : option (nat * string) * t :=
  let stored :=
    match PyDict.get nm (service_instances lb) with
    | Some l => l
    | None => []
    end in
  let fallback :=
    match stored with
    | [] =>
        match registry_url with
        | Some service_url =>
            if truthy service_url then
              Some [new_instance service_url 1]
            else None
        | None => None
        end
    | _ => Some stored
    end in
  match fallback with
  | None => (None, lb)
  | Some instances =>
      let table :=
        match stored with
        | [] => PyDict.set nm instances (service_instances lb)
        | _ => service_instances lb
        end in
      let lb1 := {| strategy := strategy lb;
                    service_instances := table;
                    round_robin_counters := round_robin_counters lb |} in
      match healthy_instances instances with
      | [] => (None, lb1)
      | healthy =>
          match _select_instance (strategy lb) draw nm healthy
                                 (round_robin_counters lb) with
          | Some (selected_instance, counters) =>
              (Some (fst selected_instance, url (snd selected_instance)),
               {| strategy := strategy lb;
                  service_instances :=
                    PyDict.set nm
                      (update_at (fst selected_instance) (mark_used now)
                                 instances)
                      table;
                  round_robin_counters := counters |})
          | None => (None, lb1)
          end
      end
  end.

Definition get_service_url (nm : string) (registry_url : option string)
    (now : Q) (draw : nat) (lb : t) : option string * t :=
  let '(r, lb') := resolve nm registry_url now draw lb in
  (option_map snd r, lb').

(** [LoadBalancer.add_service_instance] *)
Definition add_service_instance (nm u : string) (w : Z) (lb : t) : bool * t :=
  let instance := new_instance u w in
  let table :=
    if PyDict.mem nm (service_instances lb) then service_instances lb
    else PyDict.set nm [] (service_instances lb) in
  let l := match PyDict.get nm table with Some l => l | None => [] end in
  (true,
   {| strategy := strategy lb;
      service_instances := PyDict.set nm (l ++ [instance]) table;
      round_robin_counters := round_robin_counters lb |}).

(** [LoadBalancer.remove_service_instance] *)
Definition remove_service_instance (nm u : string) (lb : t) : bool * t :=
  match PyDict.get nm (service_instances lb) with
  | Some l =>
      let kept := filter (fun inst => negb (String.eqb (url inst) u)) l in
      let table := PyDict.set nm kept (service_instances lb) in
      (true,
       {| strategy := strategy lb;
          service_instances :=
            match kept with
            | [] => PyDict.del nm table
            | _ => table
            end;
          round_robin_counters := round_robin_counters lb |})
  | None => (false, lb)
  end.

(** The loop [for instance in ...: if instance.url == url: <update>;
    return True] of the two update methods: the first instance with the
    address is updated. *)
Fixpoint update_first (u : string) (f : ServiceInstance -> ServiceInstance)
    (l : list ServiceInstance) : option (list ServiceInstance) :=
  match l with
  | [] => None
  | inst :: r =>
      if String.eqb (url inst) u then Some (f inst :: r)
      else option_map (cons inst) (update_first u f r)
  end.

Definition set_healthy (b : bool) (inst : ServiceInstance) : ServiceInstance :=
  {| url := url inst; weight := weight inst;
     active_connections := active_connections inst;
     response_time := response_time inst;
     last_used := last_used inst;
     is_healthy := b |}.

Definition set_response_time (rt : Q) (inst : ServiceInstance)
    : ServiceInstance :=
  {| url := url inst; weight := weight inst;
     active_connections := active_connections inst;
     response_time := rt;
     last_used := last_used inst;
     is_healthy := is_healthy inst |}.

Definition update_instance (nm u : string)
    (f : ServiceInstance -> ServiceInstance) (lb : t) : bool * t :=
  match PyDict.get nm (service_instances lb) with
  | Some l =>
      match update_first u f l with
      | Some l' =>
          (true,
           {| strategy := strategy lb;
              service_instances := PyDict.set nm l' (service_instances lb);
              round_robin_counters := round_robin_counters lb |})
      | None => (false, lb)
      end
  | None => (false, lb)
  end.

(** [LoadBalancer.update_instance_health] *)
Definition update_instance_health (nm u : string) (b : bool) (lb : t)
    : bool * t :=
  update_instance nm u (set_healthy b) lb.

(** [LoadBalancer.update_instance_response_time] *)
Definition update_instance_response_time (nm u : string) (rt : Q) (lb : t)
    : bool * t :=
  update_instance nm u (set_response_time rt) lb.

(** [LoadBalancer.get_service_instances] *)
Definition get_service_instances (nm : string) (lb : t)
    : list ServiceInstance :=
  match PyDict.get nm (service_instances lb) with
  | Some l => l
  | None => []
  end.

(** [LoadBalancer.set_strategy] *)
Definition set_strategy (s : LoadBalancingStrategy) (lb : t) : t :=
  {| strategy := s;
     service_instances := service_instances lb;
     round_robin_counters := round_robin_counters lb |}.

(** [LoadBalancer.cleanup] *)
Definition cleanup (lb : t) : t :=
  {| strategy := strategy lb;
     service_instances := PyDict.empty;
     round_robin_counters := PyDict.empty |}.

(** The positions of the healthy instances of a list. *)
Definition healthy_positions (l : list ServiceInstance) : list nat :=
  map fst (healthy_instances l).

(** Consecutive resolutions of one service; [env] gives, per call, the
    clock reading and the random draw.  The registry's answer is only read
    when the service has no instance list. *)
Fixpoint resolutions (nm : string) (registry_url : option string)
    (env : list (Q * nat)) (lb : t) : list (option (nat * string)) * t :=
  match env with
  | [] => ([], lb)
  | (now, draw) :: env' =>
      let '(r, lb1) := resolve nm registry_url now draw lb in
      let '(rs, lb2) := resolutions nm registry_url env' lb1 in
      (r :: rs, lb2)
  end.

(** The positions selected by a run of resolutions. *)
Definition selected_positions (rs : list (option (nat * string)))
    : list nat :=
  flat_map (fun r => match r with Some (p, _) => [p] | None => [] end) rs.

(** The indices [counter % n] of [K] round-robin steps, the counter being
    stepped as the source steps it. *)
Fixpoint rotation (n counter : Z) (K : nat) : list Z :=
  match K with
  | O => []
  | S K' => counter mod n :: rotation n ((counter + 1) mod n) K'
  end.

(** Instances under every service name are pairwise distinct by address. *)
Definition unique_addresses (lb : t) : Prop :=
  forall nm l, PyDict.get nm (service_instances lb) = Some l ->
               NoDup (map url l).

(** The instance list a resolution works on: the stored list or, when
    there is none, the single instance made from the registry's answer;
    empty when the registry has no answer either. *)
Definition resolvable_instances (nm : string) (registry_url : option string)
    (lb : t) : list ServiceInstance :=
  match get_service_instances nm lb with
  | [] =>
      match registry_url with
      | Some service_url =>
          if truthy service_url then [new_instance service_url 1] else []
      | None => []
      end
  | stored => stored
  end.

(** The positions the weighted list of
    [_weighted_round_robin_selection] holds, in its order. *)
Definition weighted_positions (l : list ServiceInstance) : list nat :=
  flat_map (fun r : Ref => repeat (fst r) (Z.to_nat (weight (snd r))))
           (healthy_instances l).

(** One entry of ["services"] in [get_load_balancer_statistics]. *)
Record ServiceStatistics := mkServiceStatistics {
  s_total_instances : Z;
  s_healthy_instances : Z;
  s_total_connections : Z;
  s_average_response_time : Q
}.

(** The dictionary [get_load_balancer_statistics] returns. *)
Record Statistics := mkStatistics {
  stat_strategy : LoadBalancingStrategy;
  total_instances : Z;
  stat_healthy_instances : Z;
  unhealthy_instances : Z;
  total_active_connections : Z;
  stat_services : PyDict.t ServiceStatistics
}.

(** [sum(inst.active_connections for inst in instances)] *)
Definition connections (instances : list ServiceInstance) : Z :=
  fold_right Z.add 0 (map active_connections instances).

(** [len([inst for inst in instances if inst.is_healthy])] *)
Definition count_healthy (instances : list ServiceInstance) : Z :=
  Z.of_nat (length (filter is_healthy instances)).

(** [LoadBalancer.get_load_balancer_statistics] *)
Definition get_load_balancer_statistics (lb : t) : Statistics :=
  let lists := map snd (service_instances lb) in
  let total :=
    fold_right Z.add 0 (map (fun l => Z.of_nat (length l)) lists) in
  let healthy := fold_right Z.add 0 (map count_healthy lists) in
  {| stat_strategy := strategy lb;
     total_instances := total;
     stat_healthy_instances := healthy;
     unhealthy_instances := total - healthy;
     total_active_connections := fold_right Z.add 0 (map connections lists);
     stat_services :=
       map (fun e =>
              (fst e,
               {| s_total_instances := Z.of_nat (length (snd e));
                  s_healthy_instances := count_healthy (snd e);
                  s_total_connections := connections (snd e);
                  s_average_response_time :=
                    match snd e with
                    | [] => 0%Q
                    | instances =>
                        (fold_right Qplus 0%Q (map response_time instances)
                         / inject_Z (Z.of_nat (length instances)))%Q
                    end |}))
           (service_instances lb) |}.

(** The balancer's dictionaries have one entry per name and its instance
    lists no repeated address. *)
Definition tables_ok (lb : t) : Prop :=
  PyDict.wf (service_instances lb)
  /\ PyDict.wf (round_robin_counters lb)
  /\ unique_addresses lb.

(** The instances under [nm] are one healthy instance at address [u]. *)
Definition single_healthy (nm u : string) (lb : t) : Prop :=
  map url (get_service_instances nm lb) = [u]
  /\ map is_healthy (get_service_instances nm lb) = [true].

(** A balancer for the examples: ["svc"] with three instances, the second
    one unhealthy. *)
Definition three_instances : list ServiceInstance :=
  [new_instance "http://a:1" 1;
   set_healthy false (new_instance "http://b:1" 1);
   new_instance "http://c:1" 1].

Definition sample_balancer : t :=
  {| strategy := ROUND_ROBIN;
     service_instances := [("svc", three_instances)];
     round_robin_counters := [] |}.

(** Instances [A], [B], [C] with 5, 1 and 3 active connections, and a
    pair of instances with weights 1 and 3. *)
Definition busy_instances : list ServiceInstance :=
  [{| url := "http://A"; weight := 1; active_connections := 5;
      response_time := 0; last_used := 0; is_healthy := true |};
   {| url := "http://B"; weight := 1; active_connections := 1;
      response_time := 0; last_used := 0; is_healthy := true |};
   {| url := "http://C"; weight := 1; active_connections := 3;
      response_time := 0; last_used := 0; is_healthy := true |}].

Definition weighted_instances : list ServiceInstance :=
  [new_instance "http://light" 1; new_instance "http://heavy" 3].

Definition balancer_of (s : LoadBalancingStrategy)
    (l : list ServiceInstance) : t :=
  {| strategy := s;
     service_instances := [("svc", l)];
     round_robin_counters := [] |}.

(** Instances whose last measured response times are 0.3 s, none yet and
    0.1 s. *)
Definition timed_instances : list ServiceInstance :=
  [{| url := "http://x:1"; weight := 1; active_connections := 0;
      response_time := 3 # 10; last_used := 0; is_healthy := true |};
   new_instance "http://y:1" 1;
   {| url := "http://z:1"; weight := 1; active_connections := 0;
      response_time := 1 # 10; last_used := 0; is_healthy := true |}].

End LoadBalancer.

(* ------------------------------------------------------------------ *)
(** ** main.py: the gateway's components and the unary proxy *)

Module Gateway.
Import Http.

(** The module-level globals of [main.py] once [lifespan] has run;
    [initialized] says that [service_registry] and [http_client] are set. *)
Record t := mk {
  initialized : bool;
  service_registry : ServiceRegistry.t;
  load_balancer : LoadBalancer.t
}.

Definition init (s : LoadBalancer.LoadBalancingStrategy) : t :=
  {| initialized := true;
     service_registry := ServiceRegistry.init;
     load_balancer := LoadBalancer.init s |}.

(** [await load_balancer.get_service_url(service_name)], the balancer
    reading the registry it was built with. *)
Definition get_service_url (nm : string) (now : Q) (draw : nat) (g : t)
    : option string * t :=
  let '(r, lb) :=
    LoadBalancer.get_service_url nm
      (ServiceRegistry.get_service_url nm (service_registry g))
      now draw (load_balancer g) in
  (r, {| initialized := initialized g;
         service_registry := service_registry g;
         load_balancer := lb |}).

(** The [services] member of the dictionary the handler [health_check]
    returns: one entry per registered name, filled in the order of
    registration. *)
Definition health_check (g : t) : PyDict.t bool :=
  if initialized g then
    fold_left
      (fun services_status service_name =>
         PyDict.set service_name
           (ServiceRegistry.is_service_healthy service_name
              (service_registry g))
           services_status)
      (ServiceRegistry.get_registered_services (service_registry g))
      PyDict.empty
  else PyDict.empty.

(** The inbound request, as far as [proxy_request] reads it. *)
Record Request := mkRequest {
  method : string;
  query_params : string;
  headers : PyDict.t string;
  body : string
}.

(** The call [http_client.request(method, url, headers, content)]. *)
Record Forwarded := mkForwarded {
  f_method : string;
  f_url : string;
  f_headers : PyDict.t string;
  f_content : option string
}.

(** What the handlers of [proxy_request] tell apart: an [HTTPException]
    carries its status; of the other exceptions the timeout and the
    refused connection have a handler of their own, and [OtherError]
    stands for every other exception raised inside the [try] block,
    whichever call raises it. *)
Inductive Exception :=
| HTTPException (status : Z) (detail : string)
| ClientError (e : Error).

(** The body of a [JSONResponse]. *)
Inductive Content :=
| Json (v : json)
| Text (s : string).

(** What a handler hands to the framework: a response, or a raised
    [HTTPException]. *)
Inductive Result :=
| JSONResponse (content : Content) (status : Z)
| Raise (status : Z) (detail : string).


(** [auth_and_rate_limit_middleware], which stands in front of every HTTP
    route; [call_next] is the route's handler and [now] the clock
    [is_allowed] reads.  [rate_limiter.is_allowed] is an ordinary method,
    not a coroutine: the call is made and returns a [bool], and the
    [await] of that [bool] raises [TypeError] before the [if] is decided.
    The middleware's own [except Exception] answers it with status 500, so
    the rest of the [try] block, [call_next] included, is never reached.
    With [rate_limiter] unset the attribute lookup raises, to the same
    end.  The result is the status the client receives and the limiter
    the call leaves. *)
Definition auth_and_rate_limit_middleware {H : Type} (now : Q)
    (client_ip : string) (rate_limiter : option RateLimiter.t)
    (call_next : H) : Z * option RateLimiter.t :=
  match rate_limiter with
  | Some limiter =>
      (500, Some (snd (RateLimiter.is_allowed now client_ip limiter)))
  | None => (500, None)
  end.

Definition forward (service_url path : string) (request : Request)
    : Forwarded :=
  let target_url := (service_url ++ "/" ++ path)%string in
  {| f_method := method request;
     f_url := if LoadBalancer.truthy (query_params request)
              then (target_url ++ "?" ++ query_params request)%string
              else target_url;
     f_headers := PyDict.del "host" (headers request);
     f_content :=
       if String.eqb (method request) "POST"
          || String.eqb (method request) "PUT"
          || String.eqb (method request) "PATCH"
       then Some (body request) else None |}.

(** The [try] block of [proxy_request]: a response, or the exception the
    block raises.  [renders] says of a parsed body whether [JSONResponse]
    can be built from it: the constructor serialises its content at once
    ([json.dumps] with [allow_nan=False], then UTF-8 encoding) and raises,
    inside the [try] block, on a number that is not finite (a literal such
    as [1e400] parses to infinity) or a string that cannot be encoded.
    The text of a response, decoded by the client, always renders. *)
Definition proxy_try (service_name path : string) (request : Request)
    (upstream : Forwarded -> Outcome) (renders : json -> bool)
    (now : Q) (draw : nat) (g : t)
    : (Result + Exception) * t :=
  let '(resolved, g') := get_service_url service_name now draw g in
  match resolved with
  | Some service_url =>
      if LoadBalancer.truthy service_url then
        match upstream (forward service_url path request) with
        | Raised e => (inr (ClientError e), g')
        | Responded response =>
            if String.prefix "application/json" (content_type response) then
              match parsed response with
              | Some v =>
                  if renders v then
                    (inl (JSONResponse (Json v) (status_code response)), g')
                  else (inr (ClientError OtherError), g')
              | None => (inr (ClientError OtherError), g')
              end
            else
              (inl (JSONResponse (Text (text response))
                                 (status_code response)), g')
        end
      else
        (inr (HTTPException 503
                ("Service " ++ service_name ++ " not available")%string), g')
  | None =>
      (inr (HTTPException 503
              ("Service " ++ service_name ++ " not available")%string), g')
  end.

(** [proxy_request]: the guard, the [try] block and its three handlers,
    in the order of the source.  [except Exception] is the handler of
    every exception the first two do not take, an [HTTPException] raised
    inside the block included. *)
Definition proxy_request (service_name path : string) (request : Request)
    (upstream : Forwarded -> Outcome) (renders : json -> bool)
    (now : Q) (draw : nat) (g : t)
    : Result * t :=
  if negb (initialized g) then
    (Raise 503 "Service registry or HTTP client not initialized", g)
  else
    let '(r, g') :=
      proxy_try service_name path request upstream renders now draw g in
    match r with
    | inl response => (response, g')
    | inr (ClientError TimeoutException) => (Raise 504 "Service timeout", g')
    | inr (ClientError ConnectError) => (Raise 503 "Service unavailable", g')
    | inr _ => (Raise 500 "Internal server error", g')
    end.

(** The operations that change the gateway's registry and balancer. *)
Inductive op :=
| RegistryOp (o : ServiceRegistry.op)
| Resolve (nm : string) (now : Q) (draw : nat)
| AddServiceInstance (nm u : string) (w : Z)
| RemoveServiceInstance (nm u : string)
| UpdateInstanceHealth (nm u : string) (b : bool)
| UpdateInstanceResponseTime (nm u : string) (rt : Q)
| SetStrategy (s : LoadBalancer.LoadBalancingStrategy)
| BalancerCleanup.

Definition with_balancer (g : t) (lb : LoadBalancer.t) : t :=
  {| initialized := initialized g;
     service_registry := service_registry g;
     load_balancer := lb |}.

Definition step (g : t) (o : op) : t :=
  match o with
  | RegistryOp ro =>
      {| initialized := initialized g;
         service_registry := ServiceRegistry.step (service_registry g) ro;
         load_balancer := load_balancer g |}
  | Resolve nm now draw => snd (get_service_url nm now draw g)
  | AddServiceInstance nm u w =>
      with_balancer g
        (snd (LoadBalancer.add_service_instance nm u w (load_balancer g)))
  | RemoveServiceInstance nm u =>
      with_balancer g
        (snd (LoadBalancer.remove_service_instance nm u (load_balancer g)))
  | UpdateInstanceHealth nm u b =>
      with_balancer g
        (snd (LoadBalancer.update_instance_health nm u b (load_balancer g)))
  | UpdateInstanceResponseTime nm u rt =>
      with_balancer g
        (snd (LoadBalancer.update_instance_response_time nm u rt
                (load_balancer g)))
  | SetStrategy s =>
      with_balancer g (LoadBalancer.set_strategy s (load_balancer g))
  | BalancerCleanup =>
      with_balancer g (LoadBalancer.cleanup (load_balancer g))
  end.

Definition run (ops : list op) (g : t) : t := fold_left step ops g.

(** Every dictionary of the gateway has one entry per service name. *)
Definition one_record_per_name (g : t) : Prop :=
  PyDict.wf (ServiceRegistry.services (service_registry g))
  /\ PyDict.wf (LoadBalancer.service_instances (load_balancer g))
  /\ PyDict.wf (LoadBalancer.round_robin_counters (load_balancer g)).

(** An operation that is not an [add_service_instance] of an address the
    service already has. *)
Definition adds_fresh (g : t) (o : op) : bool :=
  match o with
  | AddServiceInstance nm u _ =>
      negb (existsb (fun inst => String.eqb (LoadBalancer.url inst) u)
              (LoadBalancer.get_service_instances nm (load_balancer g)))
  | _ => true
  end.

(** A run in which every operation satisfies [adds_fresh] in the state it
    is applied to. *)
Fixpoint all_adds_fresh (g : t) (ops : list op) : bool :=
  match ops with
  | [] => true
  | o :: r => adds_fresh g o && all_adds_fresh (step g o) r
  end.

(** An operation that leaves the addresses and health flags of the
    instances stored under [nm] as they are: every operation but the
    balancer's [cleanup] and an addition, a removal or a health update
    under [nm] itself. *)
Definition keeps_instances (nm : string) (o : op) : bool :=
  match o with
  | AddServiceInstance nm' _ _ | RemoveServiceInstance nm' _
  | UpdateInstanceHealth nm' _ _ => negb (String.eqb nm' nm)
  | BalancerCleanup => false
  | _ => true
  end.


Definition empty_gateway : t := init LoadBalancer.ROUND_ROBIN.

Definition voice_gateway : t :=
  step empty_gateway
    (RegistryOp (ServiceRegistry.Register "voice-service"
                   "http://voice-service:8001" None
                   ServiceRegistry.probe_ok 0 0)).




(** Two runs for the examples.  In the first a name is registered twice
    with one address, resolved, and given a second, new address; in the
    second one address is added twice under one name. *)
Definition sample_ops : list op :=
  [RegistryOp (ServiceRegistry.Register "svc" "a:1" None
                 ServiceRegistry.probe_ok 0 0);
   RegistryOp (ServiceRegistry.Register "svc" "a:1" None
                 ServiceRegistry.probe_ok 5 5);
   Resolve "svc" 6 0;
   AddServiceInstance "svc" "http://b:1" 1;
   UpdateInstanceHealth "svc" "http://b:1" false;
   RemoveServiceInstance "svc" "http://a:1"].

Definition duplicate_adds : list op :=
  [AddServiceInstance "svc" "http://a:1" 1;
   AddServiceInstance "svc" "http://a:1" 1].

End Gateway.
(* ================================================================== *)
(** * Properties *)

(* ------------------------------------------------------------------ *)
(** ** Lists *)

Module ListFacts.

Lemma NoDup_app_disjoint {A : Type} (l1 l2 : list A) :
  NoDup (l1 ++ l2) -> forall a, In a l1 -> ~ In a l2.
Proof.
  induction l1 as [|x l1 IH]; simpl; [tauto|].
  intros Hnd a [<-|Ha] H2; inversion Hnd as [|? ? Hni Hnd']; subst.
  - apply Hni. apply in_or_app. now right.
  - now apply (IH Hnd' a).
Qed.

End ListFacts.

(* ------------------------------------------------------------------ *)
(** ** Dictionary laws *)

Module PyDictFacts.
Import PyDict.

Section Facts.
Context {V : Type}.
Implicit Types (d : PyDict.t V) (k : string) (v : V).

Lemma get_set_same k v d : get k (set k v d) = Some v.
Proof.
  induction d as [|[k' v'] r IH]; simpl.
  - now rewrite String.eqb_refl.
  - destruct (String.eqb k k') eqn:E; simpl; rewrite ?E; auto.
    now rewrite String.eqb_refl.
Qed.

Lemma get_set_other k k' v d : k' <> k -> get k' (set k v d) = get k' d.
Proof.
  intros Hne. induction d as [|[k0 v0] r IH]; simpl.
  - apply String.eqb_neq in Hne. now rewrite Hne.
  - destruct (String.eqb k k0) eqn:E; simpl.
    + apply String.eqb_eq in E. subst k0.
      apply String.eqb_neq in Hne. now rewrite Hne.
    + now rewrite IH.
Qed.

Lemma get_del_same k d : get k (del k d) = None.
Proof.
  induction d as [|[k' v'] r IH]; simpl; auto.
  destruct (String.eqb k k') eqn:E; simpl; rewrite ?E; auto.
Qed.

Lemma get_del_other k k' d : k' <> k -> get k' (del k d) = get k' d.
Proof.
  intros Hne. induction d as [|[k0 v0] r IH]; simpl; auto.
  destruct (String.eqb k k0) eqn:E; simpl.
  - apply String.eqb_eq in E. subst k0.
    apply String.eqb_neq in Hne. now rewrite Hne.
  - now rewrite IH.
Qed.

Lemma del_absent k d : get k d = None -> del k d = d.
Proof.
  induction d as [|[k' v'] r IH]; simpl; auto.
  destruct (String.eqb k k'); [discriminate|].
  intros H. now rewrite IH.
Qed.

Lemma get_Some_In k v d : get k d = Some v -> In (k, v) d.
Proof.
  induction d as [|[k' v'] r IH]; simpl; [discriminate|].
  destruct (String.eqb k k') eqn:E.
  - apply String.eqb_eq in E. subst. intros [= ->]. now left.
  - intros H. right. auto.
Qed.

Lemma get_None_keys k d : get k d = None <-> ~ In k (keys d).
Proof.
  induction d as [|[k' v'] r IH]; simpl.
  - tauto.
  - destruct (String.eqb k k') eqn:E.
    + apply String.eqb_eq in E. subst. split; [discriminate|]. tauto.
    + apply String.eqb_neq in E. rewrite IH. split.
      * intros H [H1|H1]; [congruence|tauto].
      * tauto.
Qed.

Lemma In_get_wf k v d : wf d -> In (k, v) d -> get k d = Some v.
Proof.
  unfold wf. induction d as [|[k' v'] r IH]; simpl; [tauto|].
  intros Hnd [H|H].
  - inversion H; subst. now rewrite String.eqb_refl.
  - inversion Hnd as [|? ? Hni Hnd']; subst.
    destruct (String.eqb k k') eqn:E.
    + apply String.eqb_eq in E. subst k'.
      exfalso. apply Hni. change k with (fst (k, v)). now apply in_map.
    + auto.
Qed.

Lemma keys_set_present k v d :
  get k d <> None -> keys (set k v d) = keys d.
Proof.
  induction d as [|[k' v'] r IH]; simpl; [congruence|].
  destruct (String.eqb k k') eqn:E; simpl.
  - apply String.eqb_eq in E. now subst.
  - intros H. now rewrite IH.
Qed.

Lemma keys_set_absent k v d :
  get k d = None -> keys (set k v d) = keys d ++ [k].
Proof.
  induction d as [|[k' v'] r IH]; simpl; auto.
  destruct (String.eqb k k') eqn:E; [discriminate|].
  simpl. intros H. now rewrite IH.
Qed.

Lemma wf_set k v d : wf d -> wf (set k v d).
Proof.
  unfold wf. intros Hnd.
  destruct (get k d) eqn:G.
  - rewrite keys_set_present; [assumption|congruence].
  - rewrite keys_set_absent by assumption.
    apply NoDup_app; [assumption|repeat constructor; simpl; tauto|].
    intros x Hx [<-|[]]. apply get_None_keys in G. contradiction.
Qed.

Lemma keys_del_incl k d x : In x (keys (del k d)) -> In x (keys d).
Proof.
  induction d as [|[k' v'] r IH]; simpl; auto.
  destruct (String.eqb k k'); simpl; tauto.
Qed.

Lemma wf_del k d : wf d -> wf (del k d).
Proof.
  unfold wf. induction d as [|[k' v'] r IH]; simpl; auto.
  intros Hnd. inversion Hnd as [|? ? Hni Hnd']; subst.
  destruct (String.eqb k k'); simpl; auto.
  constructor; auto. intros H. apply Hni. eapply keys_del_incl; eauto.
Qed.

Lemma wf_empty : wf (@empty V).
Proof. constructor. Qed.

End Facts.

End PyDictFacts.

(* ------------------------------------------------------------------ *)
(** ** Floats: comparisons and rounding *)

Module FloatFacts.

Lemma ltb_lt x y : Float.ltb x y = true <-> (x < y)%Q.
Proof.
  unfold Float.ltb. rewrite negb_true_iff. split.
  - intros H. apply Qnot_le_lt. intros Hle.
    apply Qle_bool_iff in Hle. congruence.
  - intros H. destruct (Qle_bool y x) eqn:E; auto.
    apply Qle_bool_iff in E. exfalso. now apply (Qlt_not_le x y).
Qed.

Lemma ltb_ge x y : Float.ltb x y = false <-> (y <= x)%Q.
Proof.
  unfold Float.ltb. rewrite negb_false_iff. apply Qle_bool_iff.
Qed.

Lemma gtb_lt x y : Float.gtb x y = true <-> (y < x)%Q.
Proof. apply ltb_lt. Qed.

Lemma gtb_le x y : Float.gtb x y = false <-> (x <= y)%Q.
Proof. apply ltb_ge. Qed.

Lemma geb_le x y : Float.geb x y = true <-> (y <= x)%Q.
Proof. apply Qle_bool_iff. Qed.

Lemma geb_lt x y : Float.geb x y = false <-> (x < y)%Q.
Proof.
  unfold Float.geb. split.
  - intros H. apply Qnot_le_lt. intros Hle.
    apply Qle_bool_iff in Hle. congruence.
  - intros H. destruct (Qle_bool y x) eqn:E; auto.
    apply Qle_bool_iff in E. exfalso. now apply (Qlt_not_le x y).
Qed.

(** *** Rounding to the nearest double *)

Section Rounding.
Import Float.
Local Open Scope Q_scope.

Lemma rne_between q : (Qfloor q <= rne q <= Qfloor q + 1)%Z.
Proof.
  unfold rne. destruct (Qcompare _ _); [destruct (Z.even _)| |]; lia.
Qed.

Lemma rne_mono q q' : q <= q' -> (rne q <= rne q')%Z.
Proof.
  intros H. pose proof (Qfloor_resp_le _ _ H) as Hf.
  destruct (Z.eq_dec (Qfloor q) (Qfloor q')) as [E|E].
  - unfold rne. rewrite <- E.
    destruct (Qcompare_spec (q - inject_Z (Qfloor q)) (1 # 2)),
             (Qcompare_spec (q' - inject_Z (Qfloor q)) (1 # 2));
      try destruct (Z.even (Qfloor q)); try lia; exfalso; lra.
  - pose proof (rne_between q). pose proof (rne_between q'). lia.
Qed.

Lemma rne_Z n : rne (inject_Z n) = n.
Proof.
  unfold rne. rewrite Qfloor_Z.
  destruct (Qcompare_spec (inject_Z n - inject_Z n) (1 # 2));
    [exfalso; lra|reflexivity|exfalso; lra].
Qed.

Lemma rne_le_Z q n : q <= inject_Z n -> (rne q <= n)%Z.
Proof. intros H. rewrite <- (rne_Z n). now apply rne_mono. Qed.

Lemma rne_ge_Z q n : inject_Z n <= q -> (n <= rne q)%Z.
Proof. intros H. rewrite <- (rne_Z n). now apply rne_mono. Qed.

Lemma pow2_pos e : 0 < pow2 e.
Proof. apply Qpower_0_lt. reflexivity. Qed.

Lemma pow2_le a b : (a <= b)%Z -> pow2 a <= pow2 b.
Proof. intros H. apply Qpower_le_compat_l; [exact H|discriminate]. Qed.

Lemma pow2_plus a b : pow2 (a + b) == pow2 a * pow2 b.
Proof. apply Qpower_plus. discriminate. Qed.

Lemma pow2_Z n : (0 <= n)%Z -> inject_Z (2 ^ n) == pow2 n.
Proof. intros H. now apply Zpower_Qpower. Qed.

Lemma pow2_succ a : pow2 (a + 1) == 2 * pow2 a.
Proof. rewrite pow2_plus. change (pow2 1) with 2. ring. Qed.

Lemma log2_bounds n :
  (0 < n)%Z -> pow2 (Z.log2 n) <= inject_Z n /\ inject_Z n < pow2 (Z.log2 n + 1).
Proof.
  intros Hn. destruct (Z.log2_spec n Hn) as (H1 & H2).
  pose proof (Z.log2_nonneg n) as H0.
  split.
  - rewrite <- pow2_Z by assumption. now rewrite <- Zle_Qle.
  - rewrite <- pow2_Z by lia. rewrite <- Zlt_Qlt.
    now rewrite <- Z.add_1_r in H2.
Qed.

Lemma ilog2_spec q :
  0 < q -> pow2 (ilog2 q) <= q /\ q < pow2 (ilog2 q + 1).
Proof.
  intros Hq. unfold ilog2.
  set (a := Z.log2 (Qnum q)). set (b := Z.log2 (Zpos (Qden q))).
  assert (Hn : (0 < Qnum q)%Z).
  { destruct q as [n d]. unfold Qlt in Hq. cbn in *. lia. }
  destruct (log2_bounds (Qnum q) Hn) as (N1 & N2). fold a in N1, N2.
  destruct (log2_bounds (Zpos (Qden q)) eq_refl) as (D1 & D2).
  fold b in D1, D2.
  assert (Hqd : q * inject_Z (Zpos (Qden q)) == inject_Z (Qnum q)).
  { destruct q as [n d]. unfold Qeq. cbn. rewrite Pos.mul_1_r. ring. }
  assert (HK : pow2 (a - b) * pow2 b == pow2 a).
  { rewrite <- pow2_plus. now replace (a - b + b)%Z with a by lia. }
  pose proof (pow2_pos (a - b)) as K0. pose proof (pow2_pos b) as B0.
  pose proof (pow2_succ a) as A1. pose proof (pow2_succ b) as B1.
  pose proof (pow2_succ (a - b)) as K1.
  pose proof (pow2_succ (a - b - 1)) as K2.
  replace (a - b - 1 + 1)%Z with (a - b)%Z in K2 by lia.
  set (K := pow2 (a - b)) in *. set (B := pow2 b) in *.
  set (A := pow2 a) in *. set (D := inject_Z (Zpos (Qden q))) in *.
  set (N := inject_Z (Qnum q)) in *.
  assert (Hup : q < 2 * K).
  { destruct (Qlt_le_dec q (2 * K)) as [|Hge]; [assumption|exfalso].
    assert (2 * K * D <= q * D) by (apply Qmult_le_compat_r; lra).
    assert (2 * K * B <= 2 * K * D) by (apply Qmult_le_l; lra).
    lra. }
  assert (Hlo : pow2 (a - b - 1) < q).
  { destruct (Qlt_le_dec (pow2 (a - b - 1)) q) as [|Hge]; [assumption|exfalso].
    assert (q * D <= pow2 (a - b - 1) * D) by (apply Qmult_le_compat_r; lra).
    assert (K * D < K * (2 * B)) by (apply Qmult_lt_l; lra).
    assert (K * D == 2 * (pow2 (a - b - 1) * D)) by (rewrite K2; ring).
    lra. }
  destruct (Qle_bool K q) eqn:E.
  - apply Qle_bool_iff in E. split; [exact E|]. rewrite K1. exact Hup.
  - assert (q < K).
    { apply Qnot_le_lt. intros H. apply Qle_bool_iff in H. congruence. }
    split; [lra|]. now replace (a - b - 1 + 1)%Z with (a - b)%Z by lia.
Qed.

Lemma ilog2_mono q q' : 0 < q -> q <= q' -> (ilog2 q <= ilog2 q')%Z.
Proof.
  intros Hq Hle.
  destruct (ilog2_spec q Hq) as (L1 & _).
  destruct (ilog2_spec q' ltac:(lra)) as (_ & U2).
  destruct (Z_le_gt_dec (ilog2 q) (ilog2 q')) as [|Hgt]; [assumption|exfalso].
  pose proof (pow2_le (ilog2 q' + 1) (ilog2 q) ltac:(lia)). lra.
Qed.

Lemma ulp_exp_bounds x :
  0 < Qabs x ->
  Qabs x < pow2 (ulp_exp x + 53)
  /\ ((emin < ulp_exp x)%Z -> pow2 (ulp_exp x + 52) <= Qabs x).
Proof.
  intros H. destruct (ilog2_spec _ H) as (L & U). unfold ulp_exp, prec.
  split.
  - pose proof (pow2_le (ilog2 (Qabs x) + 1)
                  (Z.max emin (ilog2 (Qabs x) - (53 - 1)) + 53) ltac:(lia)).
    lra.
  - intros He.
    replace (Z.max emin (ilog2 (Qabs x) - (53 - 1)) + 52)%Z
      with (ilog2 (Qabs x)) by lia.
    exact L.
Qed.

Lemma ulp_exp_ge x : (emin <= ulp_exp x)%Z.
Proof. unfold ulp_exp. lia. Qed.

Lemma ulp_exp_mono x y :
  0 < Qabs x -> Qabs x <= Qabs y -> (ulp_exp x <= ulp_exp y)%Z.
Proof.
  intros H Hle. pose proof (ilog2_mono _ _ H Hle). unfold ulp_exp. lia.
Qed.

Lemma round_value x :
  round x == inject_Z (rne (x / pow2 (ulp_exp x))) * pow2 (ulp_exp x).
Proof. unfold round. apply Qred_correct. Qed.

Lemma scaled_le x e n : x <= inject_Z n * pow2 e -> x / pow2 e <= inject_Z n.
Proof. intros H. apply Qle_shift_div_r; [apply pow2_pos|exact H]. Qed.

Lemma scaled_ge x e n : inject_Z n * pow2 e <= x -> inject_Z n <= x / pow2 e.
Proof. intros H. apply Qle_shift_div_l; [apply pow2_pos|exact H]. Qed.

Lemma round_mono_pos x y : 0 < x -> x <= y -> round x <= round y.
Proof.
  intros Hx Hxy. rewrite !round_value.
  assert (Ax : Qabs x == x) by (apply Qabs_pos; lra).
  assert (Ay : Qabs y == y) by (apply Qabs_pos; lra).
  destruct (ulp_exp_bounds x ltac:(lra)) as (Ux & Lx).
  destruct (ulp_exp_bounds y ltac:(lra)) as (Uy & Ly).
  pose proof (ulp_exp_mono x y ltac:(lra) ltac:(lra)) as He.
  pose proof (ulp_exp_ge x) as Gx.
  rewrite Ax in Ux, Lx. rewrite Ay in Uy, Ly.
  set (ex := ulp_exp x) in *. set (ey := ulp_exp y) in *.
  pose proof (pow2_pos ex) as Px. pose proof (pow2_pos ey) as Py.
  destruct (Z.eq_dec ex ey) as [E|E].
  - rewrite <- E. apply Qmult_le_compat_r; [|lra].
    rewrite <- Zle_Qle. apply rne_mono.
    apply Qmult_le_compat_r; [exact Hxy|].
    apply Qlt_le_weak, Qinv_lt_0_compat, Px.
  - assert (Hm : (rne (x / pow2 ex) <= 2 ^ 53)%Z).
    { apply rne_le_Z, scaled_le. rewrite pow2_Z by lia.
      rewrite <- pow2_plus. rewrite Z.add_comm. lra. }
    assert (Hm' : (2 ^ 52 <= rne (y / pow2 ey))%Z).
    { apply rne_ge_Z, scaled_ge. rewrite pow2_Z by lia.
      rewrite <- pow2_plus. rewrite Z.add_comm. apply Ly. lia. }
    rewrite Zle_Qle in Hm, Hm'. rewrite pow2_Z in Hm, Hm' by lia.
    assert (H1 : inject_Z (rne (x / pow2 ex)) * pow2 ex <= pow2 (53 + ex)).
    { rewrite pow2_plus. apply Qmult_le_compat_r; lra. }
    assert (H2 : pow2 (52 + ey) <= inject_Z (rne (y / pow2 ey)) * pow2 ey).
    { rewrite pow2_plus. apply Qmult_le_compat_r; lra. }
    pose proof (pow2_le (53 + ex) (52 + ey) ltac:(lia)). lra.
Qed.

Lemma round_mono_neg x y : y < 0 -> x <= y -> round x <= round y.
Proof.
  intros Hy Hxy. rewrite !round_value.
  assert (Ax : Qabs x == - x) by (apply Qabs_neg; lra).
  assert (Ay : Qabs y == - y) by (apply Qabs_neg; lra).
  destruct (ulp_exp_bounds x ltac:(lra)) as (Ux & Lx).
  destruct (ulp_exp_bounds y ltac:(lra)) as (Uy & Ly).
  pose proof (ulp_exp_mono y x ltac:(lra) ltac:(lra)) as He.
  pose proof (ulp_exp_ge y) as Gy.
  rewrite Ax in Ux, Lx. rewrite Ay in Uy, Ly.
  set (ex := ulp_exp x) in *. set (ey := ulp_exp y) in *.
  pose proof (pow2_pos ex) as Px. pose proof (pow2_pos ey) as Py.
  destruct (Z.eq_dec ex ey) as [E|E].
  - rewrite <- E. apply Qmult_le_compat_r; [|lra].
    rewrite <- Zle_Qle. apply rne_mono.
    apply Qmult_le_compat_r; [exact Hxy|].
    apply Qlt_le_weak, Qinv_lt_0_compat, Px.
  - assert (Hm : (rne (x / pow2 ex) <= - 2 ^ 52)%Z).
    { apply rne_le_Z, scaled_le. rewrite inject_Z_opp, pow2_Z by lia.
      specialize (Lx ltac:(lia)). rewrite (Z.add_comm ex), pow2_plus in Lx.
      lra. }
    assert (Hm' : (- 2 ^ 53 <= rne (y / pow2 ey))%Z).
    { apply rne_ge_Z, scaled_ge. rewrite inject_Z_opp, pow2_Z by lia.
      rewrite (Z.add_comm ey), pow2_plus in Uy. lra. }
    rewrite Zle_Qle in Hm, Hm'.
    rewrite inject_Z_opp, pow2_Z in Hm, Hm' by lia.
    assert (H1 : inject_Z (rne (x / pow2 ex)) * pow2 ex
                 <= (- pow2 52) * pow2 ex)
      by (apply Qmult_le_compat_r; lra).
    assert (H2 : (- pow2 53) * pow2 ey
                 <= inject_Z (rne (y / pow2 ey)) * pow2 ey)
      by (apply Qmult_le_compat_r; lra).
    pose proof (pow2_le (53 + ey) (52 + ex) ltac:(lia)) as H3.
    rewrite !pow2_plus in H3. lra.
Qed.

Lemma round_nonpos x : x <= 0 -> round x <= 0.
Proof.
  intros H. rewrite round_value. pose proof (pow2_pos (ulp_exp x)) as P.
  assert (Hm : (rne (x / pow2 (ulp_exp x)) <= 0)%Z).
  { apply rne_le_Z, scaled_le. change (inject_Z 0) with 0. lra. }
  rewrite Zle_Qle in Hm. change (inject_Z 0) with 0 in Hm.
  apply Qle_trans with (0 * pow2 (ulp_exp x)); [|lra].
  apply Qmult_le_compat_r; lra.
Qed.

Lemma round_nonneg x : 0 <= x -> 0 <= round x.
Proof.
  intros H. rewrite round_value. pose proof (pow2_pos (ulp_exp x)) as P.
  assert (Hm : (0 <= rne (x / pow2 (ulp_exp x)))%Z).
  { apply rne_ge_Z, scaled_ge. change (inject_Z 0) with 0. lra. }
  rewrite Zle_Qle in Hm. change (inject_Z 0) with 0 in Hm.
  apply Qmult_le_0_compat; lra.
Qed.

(** Rounding to nearest is monotone. *)
Lemma round_mono x y : x <= y -> round x <= round y.
Proof.
  intros H. destruct (Qlt_le_dec 0 x) as [Hx|Hx].
  - now apply round_mono_pos.
  - destruct (Qlt_le_dec y 0) as [Hy|Hy].
    + now apply round_mono_neg.
    + apply Qle_trans with 0; [now apply round_nonpos|now apply round_nonneg].
Qed.

Lemma round_compat x y : x == y -> round x = round y.
Proof.
  intros H.
  assert (H1 : round x <= round y)
    by (apply round_mono; rewrite H; apply Qle_refl).
  assert (H2 : round y <= round x)
    by (apply round_mono; rewrite H; apply Qle_refl).
  unfold round in *. cbv zeta in *. apply Qred_complete.
  apply (proj1 (Qred_le _ _)) in H1. apply (proj1 (Qred_le _ _)) in H2.
  now apply Qle_antisym.
Qed.

Lemma sub_mono_l x x' y : x <= x' -> sub x y <= sub x' y.
Proof. intros H. apply round_mono. lra. Qed.

Lemma sub_mono_r x y y' : y <= y' -> sub x y' <= sub x y.
Proof. intros H. apply round_mono. lra. Qed.

Lemma add_mono_l x x' y : x <= x' -> add x y <= add x' y.
Proof. intros H. apply round_mono. lra. Qed.

Lemma sub_diag x : sub x x = 0.
Proof.
  unfold sub. rewrite (round_compat (x - x) 0) by ring. reflexivity.
Qed.


Lemma round_ge_repr x w : round w == w -> w <= x -> w <= round x.
Proof. intros Hw H. rewrite <- Hw. now apply round_mono. Qed.

(** The sum with a converted [int], as the limiter forms it. *)
Lemma add_of_int_mono x x' n :
  x <= x' -> add x (of_int n) <= add x' (of_int n).
Proof. apply add_mono_l. Qed.

End Rounding.

End FloatFacts.

(* ------------------------------------------------------------------ *)
(** ** Rate limiter *)

Module RateLimiterFacts.
Import RateLimiter.

(** *** The eviction loop *)

Lemma evict_spec window now q :
  exists k, evict window now q = skipn k q
            /\ Forall (fun t0 => (inject_Z window < Float.sub now t0)%Q) (firstn k q).
Proof.
  induction q as [|t0 r IH]; simpl.
  - exists 0%nat. split; [reflexivity|constructor].
  - destruct (Float.gtb (Float.sub now t0) (inject_Z window)) eqn:E.
    + destruct IH as (k & Hk & Hold). exists (S k). simpl. split; auto.
      constructor; auto. now apply FloatFacts.gtb_lt.
    + exists 0%nat. split; [reflexivity|constructor].
Qed.


Lemma evict_fresh window now q :
  (forall t0, In t0 q -> (Float.sub now t0 <= inject_Z window)%Q) ->
  evict window now q = q.
Proof.
  destruct q as [|t0 r]; simpl; auto.
  intros H. destruct (Float.gtb (Float.sub now t0) (inject_Z window)) eqn:E; auto.
  apply FloatFacts.gtb_lt in E. specialize (H t0 (or_introl eq_refl)).
  exfalso. now apply (Qlt_not_le _ _ E).
Qed.


Lemma recent_requests_le now q :
  recent_requests now q <= Z.of_nat (length q).
Proof.
  unfold recent_requests. pose proof (filter_length_le
    (fun t0 => Float.ltb (Float.sub now t0) (inject_Z burst_window)) q). lia.
Qed.



(** *** Reading the history through the dictionary *)

Lemma history_set_same c q rl cfg B d :
  history c {| config := cfg; requests := PyDict.set c q (requests rl);
               blocked_ips := B; block_duration := d |} = q.
Proof. unfold history; simpl. now rewrite PyDictFacts.get_set_same. Qed.

Lemma history_set_other c c' q rl cfg B d :
  c' <> c ->
  history c' {| config := cfg; requests := PyDict.set c q (requests rl);
                blocked_ips := B; block_duration := d |} = history c' rl.
Proof.
  intros H. unfold history; simpl. now rewrite PyDictFacts.get_set_other.
Qed.

(** *** The three outcomes of the window check *)

Lemma check_window_cases now c rl B :
  let q := evict (window_size (config rl)) now (history c rl) in
  let rl' := snd (check_window now c rl B) in
  config rl' = config rl /\ block_duration rl' = block_duration rl /\
  (forall c', c' <> c -> history c' rl' = history c' rl) /\
  (forall c', c' <> c ->
     PyDict.get c' (blocked_ips rl') = PyDict.get c' B) /\
  ((fst (check_window now c rl B) = false /\ history c rl' = q /\
    ((requests_per_minute (config rl) <= Z.of_nat (length q) /\
      blocked_ips rl'
      = PyDict.set c (Float.add now (Float.of_int (block_duration rl))) B)
     \/ (Z.of_nat (length q) < requests_per_minute (config rl) /\
         burst_limit (config rl) <= recent_requests now q /\
         blocked_ips rl' = B)))
   \/ (fst (check_window now c rl B) = true /\ history c rl' = q ++ [now] /\
       Z.of_nat (length q) < requests_per_minute (config rl) /\
       recent_requests now q < burst_limit (config rl) /\
       blocked_ips rl' = B)).
Proof.
  intros q rl'. subst q rl'. unfold check_window.
  set (q := evict _ now _).
  destruct (Z.of_nat (length q) >=? requests_per_minute (config rl)) eqn:E1;
    [|destruct (recent_requests now q >=? burst_limit (config rl)) eqn:E2];
    simpl; (split; [reflexivity|split; [reflexivity|]]);
    (split; [intros c' Hc'; now apply history_set_other|]).
  - split; [intros c' Hc'; now apply PyDictFacts.get_set_other|].
    left. rewrite history_set_same. apply Z.geb_le in E1.
    repeat split; auto.
  - split; [reflexivity|].
    left. rewrite history_set_same.
    apply Z.geb_le in E2. rewrite Z.geb_leb in E1. apply Z.leb_gt in E1.
    repeat split; auto.
  - split; [reflexivity|].
    right. rewrite history_set_same.
    rewrite Z.geb_leb in E1, E2. apply Z.leb_gt in E1. apply Z.leb_gt in E2.
    repeat split; auto.
Qed.

Lemma check_window_accept now c rl B :
  (forall t0, In t0 (history c rl) ->
              (Float.sub now t0 <= inject_Z (window_size (config rl)))%Q) ->
  Z.of_nat (length (history c rl)) < requests_per_minute (config rl) ->
  Z.of_nat (length (history c rl)) < burst_limit (config rl) ->
  check_window now c rl B =
  (true, {| config := config rl;
            requests := PyDict.set c (history c rl ++ [now]) (requests rl);
            blocked_ips := B;
            block_duration := block_duration rl |}).
Proof.
  intros Hw Hr Hb. unfold check_window. rewrite evict_fresh by assumption.
  pose proof (recent_requests_le now (history c rl)).
  destruct (Z.of_nat _ >=? _) eqn:E1; [apply Z.geb_le in E1; lia|].
  destruct (recent_requests _ _ >=? _) eqn:E2; [apply Z.geb_le in E2; lia|].
  reflexivity.
Qed.

(** A blocked client is rejected and nothing changes. *)
Lemma is_allowed_blocked now c rl b :
  PyDict.get c (blocked_ips rl) = Some b -> (now < b)%Q ->
  is_allowed now c rl = (false, rl).
Proof.
  intros G H. unfold is_allowed. rewrite G.
  apply FloatFacts.ltb_lt in H. now rewrite H.
Qed.

Lemma calls_blocked c rl b later :
  PyDict.get c (blocked_ips rl) = Some b ->
  Forall (fun t0 => (t0 < b)%Q) later ->
  calls c later rl = (repeat false (length later), rl).
Proof.
  intros G. induction 1 as [|t0 later Ht _ IH]; simpl; auto.
  rewrite (is_allowed_blocked _ _ _ _ G Ht). now rewrite IH.
Qed.

(** Calls that stay inside the window and under both limits are all
    allowed and only extend the history. *)
Lemma calls_all_allowed c ts : forall rl,
  PyDict.get c (blocked_ips rl) = None ->
  (forall t0 u, In t0 (history c rl ++ ts) -> In u ts ->
                (Float.sub u t0 <= inject_Z (window_size (config rl)))%Q) ->
  Z.of_nat (length (history c rl ++ ts)) <= requests_per_minute (config rl) ->
  Z.of_nat (length (history c rl ++ ts)) <= burst_limit (config rl) ->
  fst (calls c ts rl) = repeat true (length ts)
  /\ history c (snd (calls c ts rl)) = history c rl ++ ts
  /\ blocked_ips (snd (calls c ts rl)) = blocked_ips rl
  /\ config (snd (calls c ts rl)) = config rl
  /\ block_duration (snd (calls c ts rl)) = block_duration rl.
Proof.
  induction ts as [|now ts IH]; intros rl G Hw Hr Hb.
  - simpl. rewrite app_nil_r. auto.
  - rewrite length_app in Hr, Hb. simpl in Hr, Hb.
    simpl. unfold is_allowed. rewrite G.
    rewrite check_window_accept; try lia.
    2:{ intros t0 Ht0. apply Hw; [apply in_or_app; now left|now left]. }
    set (rl1 := {| config := config rl |}).
    assert (H1 : history c rl1 = history c rl ++ [now])
      by apply history_set_same.
    destruct (IH rl1) as (I1 & I2 & I3 & I4 & I5).
    + exact G.
    + rewrite H1. simpl. intros t0 u Ht0 Hu. apply Hw; [|now right].
      rewrite <- app_assoc in Ht0. exact Ht0.
    + rewrite H1, <- app_assoc, length_app. simpl. lia.
    + rewrite H1, <- app_assoc, length_app. simpl. lia.
    + destruct (calls c ts rl1) as [rs rl2]. simpl in *.
      rewrite I1, I2, I3, I4, I5, H1, <- app_assoc. auto.
Qed.

(** *** Window limit and punitive block *)

(** C3. With [requests_per_minute = 5] (and a burst limit of at least 5, as
    the default 10 is), for a client with no history and no block, five
    calls whose times all lie within one window of each other are allowed,
    the sixth call inside that window is rejected and sets the block to
    last [block_duration] from the sixth call, and every later call made
    before that block-until time is rejected and leaves the limiter as it
    is, whatever has become of the window by then.  Times are measured as
    the code measures them: two calls lie within a window when the
    difference of their clock readings, a double, does not exceed it, and
    the block-until time is the double sum of the sixth clock reading and
    the block duration. *)
Theorem sixth_call_sets_block (rl : t) (c : string) (ts later : list Q) (t6 : Q) :
  requests_per_minute (config rl) = 5 ->
  5 <= burst_limit (config rl) ->
  history c rl = [] ->
  PyDict.get c (blocked_ips rl) = None ->
  length ts = 5%nat ->
  (forall t0 u, In t0 (ts ++ [t6]) -> In u (ts ++ [t6]) ->
                (Float.sub u t0 <= inject_Z (window_size (config rl)))%Q) ->
  Forall (fun t0 =>
            (t0 < Float.add t6 (Float.of_int (block_duration rl)))%Q)
         later ->
  let rl5 := snd (calls c ts rl) in
  let rl6 := snd (is_allowed t6 c rl5) in
  fst (calls c ts rl) = [true; true; true; true; true]
  /\ fst (is_allowed t6 c rl5) = false
  /\ PyDict.get c (blocked_ips rl6)
     = Some (Float.add t6 (Float.of_int (block_duration rl)))
  /\ calls c later rl6 = (repeat false (length later), rl6).
Proof.
  intros Hrpm Hburst Hh Hb Hlen Hw Hlater rl5 rl6.
  destruct (calls_all_allowed c ts rl) as (I1 & I2 & I3 & I4 & I5).
  - exact Hb.
  - rewrite Hh. simpl. intros t0 u Ht0 Hu.
    apply Hw; apply in_or_app; now left.
  - rewrite Hh. simpl. lia.
  - rewrite Hh. simpl. lia.
  - rewrite Hh in I2. simpl in I2. rewrite Hlen in I1. simpl in I1.
    fold rl5 in I2, I3, I4, I5.
    assert (Hfresh : evict (window_size (config rl5)) t6 (history c rl5)
                     = ts).
    { rewrite I2, I4. apply evict_fresh. intros t0 Ht0.
      apply Hw; apply in_or_app; [now left|right; now left]. }
    assert (G5 : PyDict.get c (blocked_ips rl5) = None) by now rewrite I3.
    assert (E6 : is_allowed t6 c rl5 = check_window t6 c rl5 (blocked_ips rl5)).
    { unfold is_allowed. now rewrite G5. }
    pose proof (check_window_cases t6 c rl5 (blocked_ips rl5)) as Hc.
    cbv zeta in Hc. rewrite Hfresh, <- E6 in Hc. fold rl6 in Hc.
    destruct Hc as (_ & Hd & _ & _ & [(Hr & _ & Hcase)|(_ & _ & Hlt & _)]).
    + destruct Hcase as [(_ & Hblk)|(Hlt & _)].
      * assert (G6 : PyDict.get c (blocked_ips rl6)
                     = Some (Float.add t6 (Float.of_int (block_duration rl)))).
        { rewrite Hblk, I5. apply PyDictFacts.get_set_same. }
        repeat split; auto.
        apply (calls_blocked c rl6 _ later G6 Hlater).
      * rewrite I4, Hrpm, Hlen in Hlt. simpl in Hlt. lia.
    + rewrite I4, Hrpm, Hlen in Hlt. simpl in Hlt. lia.
Qed.

Lemma sixth_call_sets_block_witness :
  let ts := [0; 1 # 2; 20; 30; 40]%Q in
  let later := [51; 200; 699 # 2]%Q in
  let rl5 := snd (calls "x" ts (init 5)) in
  let rl6 := snd (is_allowed 50 "x" rl5) in
  fst (calls "x" ts (init 5)) = [true; true; true; true; true]
  /\ fst (is_allowed 50 "x" rl5) = false
  /\ PyDict.get "x" (blocked_ips rl6)
     = Some (Float.add 50 (Float.of_int (block_duration (init 5))))
  /\ calls "x" later rl6 = (repeat false (length later), rl6).
Proof.
  apply (sixth_call_sets_block (init 5) "x" [0; 1 # 2; 20; 30; 40]%Q
           [51; 200; 699 # 2]%Q 50%Q).
  - reflexivity.
  - cbn [burst_limit config init]. lia.
  - reflexivity.
  - reflexivity.
  - reflexivity.
  - cbn [window_size config init]. intros t0 u Ht0 Hu.
    cbn [app In] in Ht0, Hu.
    repeat (destruct Ht0 as [Ht0|Ht0]); repeat (destruct Hu as [Hu|Hu]);
      try contradiction; subst t0 u; vm_compute; discriminate.
  - repeat constructor.
Defined.

(** *** Burst guard *)



(** *** Clock readings that are not whole numbers

    The differences and sums of clock readings are rounded as the doubles
    of the code are.  Ten calls at 0.1, 0.2, ..., 1.0 and an eleventh at
    10.1: the first request is 10.1 - 0.1 old, which as a double is 10.0,
    not less than 10, so it is not counted and the eleventh call is
    allowed.  Six calls at 0.2 under a limit of five: the block runs until
    0.2 + 300, which as a double is the double 300.2, so a call at 300.2
    is not blocked any more.  A request made at 0.1 and a call at 60.1:
    the request is 60.0 old as a double, not more than the window, so it
    stays and the call is rejected. *)

Example eleventh_call_at_ten_seconds :
  let ts := map (fun k => Float.round (inject_Z k / 10))
                [1; 2; 3; 4; 5; 6; 7; 8; 9; 10] in
  let t11 := Float.round (101 # 10) in
  Float.sub t11 (Float.round (1 # 10)) = 10%Q
  /\ (t11 - Float.round (1 # 10) < 10)%Q
  /\ fst (calls "x" (ts ++ [t11]) (init 100)) = repeat true 11.
Proof. vm_compute. repeat split. Qed.

Example block_until_is_a_double :
  let t := Float.round (2 # 10) in
  let rl := snd (calls "x" (repeat t 6) (init 5)) in
  PyDict.get "x" (blocked_ips rl) = Some (Float.round (3002 # 10))
  /\ (Float.round (3002 # 10) < t + 300)%Q
  /\ fst (is_allowed (Float.round (3002 # 10)) "x" rl) = true.
Proof. vm_compute. repeat split. Qed.

Example request_sixty_seconds_old :
  let rl := {| config := config (init 1);
               requests := [("x", [Float.round (1 # 10)])];
               blocked_ips := [("x", 50%Q)];
               block_duration := 300 |} in
  let now := Float.round (601 # 10) in
  Float.sub now (Float.round (1 # 10)) = 60%Q
  /\ (60 < now - Float.round (1 # 10))%Q
  /\ fst (is_allowed now "x" rl) = false
  /\ history "x" (snd (is_allowed now "x" rl)) = [Float.round (1 # 10)]
  /\ PyDict.get "x" (blocked_ips (snd (is_allowed now "x" rl)))
     = Some (Float.add now (Float.of_int 300)).
Proof. vm_compute. repeat split. Qed.

(** *** What a call does to the history *)

Lemma check_window_requests now c rl B :
  exists q, requests (snd (check_window now c rl B))
            = PyDict.set c q (requests rl).
Proof.
  unfold check_window.
  destruct (_ >=? _); [|destruct (_ >=? _)]; cbn [snd requests]; eauto.
Qed.

(** C9 (as the code has it). A rejected [is_allowed] call appends nothing
    to the client's history: what it leaves is the old history with some
    leading entries, all older than the window, removed.  An allowed call
    leaves that same evicted history followed by exactly one new entry,
    the time of the call, and the client without a block entry.  Of the
    block map a rejected call touches the client's own entry only: it
    leaves it as it is, or sets it to the time of the call plus the block
    duration, or removes it when it had expired; while the block runs the
    call changes nothing at all.  No call touches another client's history
    or block entry, the configuration or the block duration. *)
Theorem rejected_call_appends_nothing (now : Q) (c : string) (rl : t) :
  let r := fst (is_allowed now c rl) in
  let rl' := snd (is_allowed now c rl) in
  (exists k,
     Forall (fun t0 =>
               (inject_Z (window_size (config rl)) < Float.sub now t0)%Q)
            (firstn k (history c rl))
     /\ (r = false -> history c rl' = skipn k (history c rl))
     /\ (r = true -> history c rl' = skipn k (history c rl) ++ [now]))
  /\ (forall c', c' <> c -> history c' rl' = history c' rl)
  /\ config rl' = config rl
  /\ block_duration rl' = block_duration rl
  /\ (forall c', c' <> c ->
        PyDict.get c' (requests rl') = PyDict.get c' (requests rl)
        /\ PyDict.get c' (blocked_ips rl') = PyDict.get c' (blocked_ips rl))
  /\ (r = false ->
      PyDict.get c (blocked_ips rl') = PyDict.get c (blocked_ips rl)
      \/ PyDict.get c (blocked_ips rl')
         = Some (Float.add now (Float.of_int (block_duration rl)))
      \/ (PyDict.get c (blocked_ips rl') = None
          /\ exists b, PyDict.get c (blocked_ips rl) = Some b
                       /\ (b <= now)%Q))
  /\ (forall b, PyDict.get c (blocked_ips rl) = Some b -> (now < b)%Q ->
                r = false /\ rl' = rl)
  /\ (r = true -> PyDict.get c (blocked_ips rl') = None).
Proof.
  intros r rl'. subst r rl'.
  assert (Hcw : forall B,
    (forall c', c' <> c -> PyDict.get c' B = PyDict.get c' (blocked_ips rl)) ->
    PyDict.get c B = None ->
    let r := fst (check_window now c rl B) in
    let rl' := snd (check_window now c rl B) in
    (exists k,
       Forall (fun t0 =>
                 (inject_Z (window_size (config rl)) < Float.sub now t0)%Q)
              (firstn k (history c rl))
       /\ (r = false -> history c rl' = skipn k (history c rl))
       /\ (r = true -> history c rl' = skipn k (history c rl) ++ [now]))
    /\ (forall c', c' <> c -> history c' rl' = history c' rl)
    /\ config rl' = config rl
    /\ block_duration rl' = block_duration rl
    /\ (forall c', c' <> c ->
          PyDict.get c' (requests rl') = PyDict.get c' (requests rl)
          /\ PyDict.get c' (blocked_ips rl')
             = PyDict.get c' (blocked_ips rl))
    /\ (r = false ->
        PyDict.get c (blocked_ips rl') = None
        \/ PyDict.get c (blocked_ips rl')
           = Some (Float.add now (Float.of_int (block_duration rl))))
    /\ (r = true -> PyDict.get c (blocked_ips rl') = None)).
  { intros B HB HBc r rl'. subst r rl'.
    pose proof (check_window_cases now c rl B) as Hc. cbv zeta in Hc.
    destruct Hc as (Hcfg & Hd & Hoth & Hblk & Hcase).
    destruct (check_window_requests now c rl B) as (q' & Hreq).
    destruct (evict_spec (window_size (config rl)) now (history c rl))
      as (k & Hk & Hold).
    rewrite Hk in Hcase.
    split; [|split; [exact Hoth|split; [exact Hcfg|split; [exact Hd|]]]].
    { exists k. split; [exact Hold|].
      destruct Hcase as [(Hr & Hq & _)|(Hr & Hq & _)]; rewrite Hr;
        split; intros; congruence. }
    split.
    { intros c' Hc'. split.
      - rewrite Hreq. now apply PyDictFacts.get_set_other.
      - rewrite (Hblk c' Hc'). now apply HB. }
    destruct Hcase as [(Hr & _ & [(_ & Hset)|(_ & _ & Hsame)])
                      |(Hr & _ & _ & _ & Hsame)]; rewrite Hr.
    - split; [|discriminate]. intros _. right.
      rewrite Hset. apply PyDictFacts.get_set_same.
    - split; [|discriminate]. intros _. left. now rewrite Hsame.
    - split; [discriminate|]. intros _. now rewrite Hsame. }
  unfold is_allowed.
  destruct (PyDict.get c (blocked_ips rl)) as [b|] eqn:G.
  - destruct (Float.ltb now b) eqn:E.
    + (* the block is running *)
      cbn [fst snd].
      split.
      { exists 0%nat. cbn [firstn skipn]. split; [constructor|].
        split; congruence. }
      repeat split; auto; try discriminate.
    + (* the block has expired: the entry is removed first *)
      apply FloatFacts.ltb_ge in E.
      destruct (Hcw (PyDict.del c (blocked_ips rl)))
        as (H1 & H2 & H3 & H4 & H5 & H6 & H7).
      * intros c' Hc'. now apply PyDictFacts.get_del_other.
      * apply PyDictFacts.get_del_same.
      * split; [exact H1|]. split; [exact H2|]. split; [exact H3|].
        split; [exact H4|]. split; [exact H5|]. split; [|split].
        -- intros Hr. destruct (H6 Hr) as [Hn|Hs]; [|now right; left].
           right. right. split; [exact Hn|]. now exists b.
        -- intros b' [= <-] Hlt. exfalso. now apply (Qlt_not_le _ _ Hlt).
        -- exact H7.
  - destruct (Hcw (blocked_ips rl)) as (H1 & H2 & H3 & H4 & H5 & H6 & H7);
      auto.
    split; [exact H1|]. split; [exact H2|]. split; [exact H3|].
    split; [exact H4|]. split; [exact H5|]. split; [|split].
    + intros Hr. destruct (H6 Hr) as [Hn|Hs]; [now left|now right; left].
    + intros b' Hb'. discriminate Hb'.
    + exact H7.
Qed.

(** C9 (as stated) fails in its account of what a rejected call may
    change.  A client of [RateLimiter(11)] calls at 935, ten times at 995
    and, the clock having been set back, at 700, where the eleven stored
    requests get it blocked until 1000.  Its call at 1001 finds the block
    expired and removes the entry, evicts the request of 935, and is
    rejected by the burst guard: the block entry is gone, though the call
    neither evicted it from a history nor set it. *)
Lemma expired_block_removed_by_rejected_call :
  let rl := snd (calls "x" (removelast stepped_back_clock) (init 11)) in
  let rl' := snd (is_allowed 1001 "x" rl) in
  fst (calls "x" stepped_back_clock (init 11))
  = repeat true 11 ++ [false; false]
  /\ PyDict.get "x" (blocked_ips rl) = Some 1000%Q
  /\ fst (is_allowed 1001 "x" rl) = false
  /\ history "x" rl' = repeat 995%Q 10
  /\ PyDict.get "x" (blocked_ips rl') = None
  /\ blocked_ips rl' <> blocked_ips rl
  /\ PyDict.get "x" (blocked_ips rl')
     <> Some (Float.add 1001 (Float.of_int (block_duration rl))).
Proof.
  vm_compute. repeat split; discriminate.
Qed.

(** *** Expiry of a block *)

(** C10. For a client whose stored block-until time is not in the future,
    [is_allowed] behaves exactly as it does on the limiter with that block
    entry removed (so the client goes through the ordinary window and burst
    checks), [is_blocked] answers "not blocked" and removes the entry, and
    when the evicted history is under both limits the call is allowed, adds
    its time to the history and leaves the client without a block entry. *)
Theorem expired_block_lifted (now : Q) (c : string) (rl : t) (b : Q) :
  PyDict.get c (blocked_ips rl) = Some b ->
  (b <= now)%Q ->
  let unblocked := snd (unblock_ip c rl) in
  let q := evict (window_size (config rl)) now (history c rl) in
  PyDict.get c (blocked_ips unblocked) = None
  /\ is_allowed now c rl = is_allowed now c unblocked
  /\ is_blocked now c rl = (false, unblocked)
  /\ (Z.of_nat (length q) < requests_per_minute (config rl) ->
      recent_requests now q < burst_limit (config rl) ->
      fst (is_allowed now c rl) = true
      /\ history c (snd (is_allowed now c rl)) = q ++ [now]
      /\ PyDict.get c (blocked_ips (snd (is_allowed now c rl))) = None).
Proof.
  intros G Hb unblocked q. subst unblocked.
  unfold unblock_ip. rewrite G. cbn [snd].
  assert (Hdel : PyDict.get c (PyDict.del c (blocked_ips rl)) = None)
    by apply PyDictFacts.get_del_same.
  assert (Hlt : Float.ltb now b = false) by now apply FloatFacts.ltb_ge.
  assert (Hge : Float.geb now b = true) by now apply FloatFacts.geb_le.
  assert (E : is_allowed now c rl
              = check_window now c rl (PyDict.del c (blocked_ips rl))).
  { unfold is_allowed. now rewrite G, Hlt. }
  split; [exact Hdel|]. split; [|split].
  - rewrite E. unfold is_allowed. cbn [blocked_ips]. rewrite Hdel.
    reflexivity.
  - unfold is_blocked. now rewrite G, Hge.
  - intros Hr Hbu. rewrite E.
    pose proof (check_window_cases now c rl (PyDict.del c (blocked_ips rl)))
      as Hc.
    cbv zeta in Hc. fold q in Hc.
    destruct Hc as (_ & _ & _ & _ & [(_ & _ & Hcase)|(Ht & Hq & _ & _ & HB)]).
    + destruct Hcase as [(H1 & _)|(_ & H1 & _)]; lia.
    + rewrite HB. auto.
Qed.

Lemma expired_block_lifted_witness :
  let rl := {| config := config (init 5);
               requests := [("x", [0; 1; 2; 3; 4]%Q)];
               blocked_ips := [("x", 305%Q)];
               block_duration := 300 |} in
  let unblocked := snd (unblock_ip "x" rl) in
  PyDict.get "x" (blocked_ips unblocked) = None
  /\ is_allowed 305 "x" rl = is_allowed 305 "x" unblocked
  /\ is_blocked 305 "x" rl = (false, unblocked)
  /\ fst (is_allowed 305 "x" rl) = true
  /\ history "x" (snd (is_allowed 305 "x" rl)) = [305%Q]
  /\ PyDict.get "x" (blocked_ips (snd (is_allowed 305 "x" rl))) = None.
Proof.
  intros rl unblocked.
  destruct (expired_block_lifted 305%Q "x" rl 305%Q) as (H1 & H2 & H3 & H4).
  - reflexivity.
  - vm_compute. discriminate.
  - destruct H4 as (H4 & H5 & H6); [reflexivity|reflexivity|].
    exact (conj H1 (conj H2 (conj H3 (conj H4 (conj H5 H6))))).
Defined.

(** *** Cleanup *)

Lemma get_delete_all ks : forall (B : PyDict.t Q) c,
  PyDict.get c (delete_all ks B)
  = if in_dec string_dec c ks then None else PyDict.get c B.
Proof.
  unfold delete_all.
  induction ks as [|k ks IH]; intros B c; simpl; auto.
  rewrite IH. destruct (string_dec k c) as [->|Hne].
  - destruct (in_dec string_dec c ks); auto.
    apply PyDictFacts.get_del_same.
  - destruct (in_dec string_dec c ks); auto.
    apply PyDictFacts.get_del_other. congruence.
Qed.

(** The block half of cleanup does what it is meant to do. *)
Lemma cleanup_no_expired_block now rl :
  no_expired_block now (cleanup_expired_entries now rl).
Proof.
  intros c b. unfold cleanup_expired_entries. cbn [blocked_ips].
  rewrite get_delete_all.
  destruct (in_dec string_dec c _) as [|Hni]; [discriminate|].
  intros G. destruct (Float.geb now b) eqn:E.
  - exfalso. apply Hni. unfold expired_blocks.
    change c with (fst (c, b)). apply in_map. apply filter_In. split.
    + now apply PyDictFacts.get_Some_In.
    + exact E.
  - now apply FloatFacts.geb_lt.
Qed.

Lemma evict_idempotent window now q :
  evict window now (evict window now q) = evict window now q.
Proof.
  induction q as [|t0 r IH]; simpl; auto.
  destruct (Float.gtb (Float.sub now t0) (inject_Z window)) eqn:E; auto.
  simpl. now rewrite E.
Qed.

(** While the loop deletes nothing it visits every entry: each history is
    evicted and none is left that eviction would empty. *)
Lemma cleanup_requests_complete window now items :
  snd (cleanup_requests window now items) = false ->
  Forall (fun e => evict window now (snd e) <> [])
         (fst (cleanup_requests window now items)).
Proof.
  induction items as [|[ip q] rest IH]; simpl; [constructor|].
  destruct (evict window now q) as [|t0 q'] eqn:E; [discriminate|].
  destruct (cleanup_requests window now rest) as [rest' raised].
  cbn [fst snd] in *. intros ->. constructor; auto.
  cbn [snd]. rewrite <- E, evict_idempotent, E. discriminate.
Qed.

(** C8 (defect). Cleanup at time 1000 of a limiter holding two clients,
    each with one request made at time 0: the loop deletes client "a" from
    the dictionary it is iterating, the iteration stops there, and client
    "b" keeps its history [[0]], which is empty once entries older than the
    60 second window are evicted. *)
Theorem cleanup_leaves_stale_history :
  requests (cleanup_expired_entries 1000 two_idle_clients) = [("b", [0%Q])]
  /\ snd (cleanup_requests 60 1000 (requests two_idle_clients)) = true
  /\ ~ no_stale_history 1000 (cleanup_expired_entries 1000 two_idle_clients).
Proof.
  split; [reflexivity|]. split; [reflexivity|].
  intros H. apply (H "b" [0%Q]); reflexivity.
Qed.

End RateLimiterFacts.

(* ------------------------------------------------------------------ *)
(** ** Service registry *)

Module ServiceRegistryFacts.
Import Http ServiceRegistry.

(** *** Health probe *)

(** C5. The probe classifies an instance healthy exactly when the request
    returns a response with status 200 whose body either does not parse to
    a JSON object or parses to an object whose ["status"] member is the
    string ["healthy"].  Hence every raised exception (timeout, connection
    error, any other) and every status other than 200 give unhealthy, and a
    200 whose body does not parse gives healthy. *)
Theorem probe_healthy_iff (probe : Outcome) :
  (_check_service_health probe = true <->
   exists response,
     probe = Responded response
     /\ status_code response = 200
     /\ ((forall data, parsed response <> Some (JObject data))
         \/ exists data,
              parsed response = Some (JObject data)
              /\ PyDict.get "status" data = Some (JString "healthy")))
  /\ (forall e, _check_service_health (Raised e) = false)
  /\ (forall response, status_code response <> 200 ->
        _check_service_health (Responded response) = false)
  /\ (forall response, status_code response = 200 ->
        parsed response = None ->
        _check_service_health (Responded response) = true).
Proof.
  split; [|split; [|split]].
  - split.
    + destruct probe as [response|e]; simpl; [|discriminate].
      destruct (Z.eqb_spec (status_code response) 200) as [Hs|Hs];
        [|discriminate].
      intros H. exists response. split; [reflexivity|]. split; [exact Hs|].
      destruct (parsed response) as [[| | | | |data]|];
        try (left; intros data'; congruence).
      right. exists data. split; [reflexivity|].
      destruct (PyDict.get "status" data) as [[| | |s| |]|];
        try discriminate.
      apply String.eqb_eq in H. now subst s.
    + intros (response & -> & Hs & Hbody). simpl. rewrite Hs. simpl.
      destruct Hbody as [Hno|(data & -> & ->)].
      * destruct (parsed response) as [[| | | | |data]|]; auto.
        exfalso. now apply (Hno data).
      * reflexivity.
  - reflexivity.
  - intros response Hs. simpl.
    destruct (Z.eqb_spec (status_code response) 200); [contradiction|].
    reflexivity.
  - intros response Hs Hp. simpl. now rewrite Hs, Hp.
Qed.

(** *** Names, records and the two health lists *)

Lemma step_wf reg o :
  PyDict.wf (services reg) -> PyDict.wf (services (step reg o)).
Proof.
  intros Hwf. destruct o; simpl.
  - now apply PyDictFacts.wf_set.
  - unfold unregister_service. destruct (PyDict.mem nm (services reg)); simpl.
    + now apply PyDictFacts.wf_del.
    + exact Hwf.
  - unfold PyDict.wf, PyDict.keys in *. rewrite map_map.
    erewrite map_ext; [exact Hwf|].
    intros [k v]. simpl. now destruct (probe (health_url v)).
  - exact Hwf.
  - constructor.
Qed.

Lemma run_wf ops : forall reg,
  PyDict.wf (services reg) -> PyDict.wf (services (run ops reg)).
Proof.
  unfold run. induction ops as [|o ops IH]; intros reg Hwf; simpl; auto.
  apply IH. now apply step_wf.
Qed.

Lemma reachable_wf reg : reachable reg -> PyDict.wf (services reg).
Proof. intros (ops & ->). apply run_wf. constructor. Qed.

Lemma reachable_run ops reg : reachable reg -> reachable (run ops reg).
Proof.
  intros (ops0 & ->). exists (ops0 ++ ops). unfold run.
  now rewrite fold_left_app.
Qed.

Lemma health_lists_permutation reg :
  Permutation (get_healthy_services reg ++ get_unhealthy_services reg)
              (get_registered_services reg).
Proof.
  unfold get_healthy_services, get_unhealthy_services,
    get_registered_services, PyDict.keys.
  induction (services reg) as [|[k v] r IH]; simpl; auto.
  destruct (is_healthy v); simpl.
  - now constructor.
  - apply Permutation_sym. apply Permutation_cons_app.
    now apply Permutation_sym.
Qed.

(** Registering under a name stores the normalised address under it. *)
Lemma register_stores nm r reg :
  exists info,
    PyDict.get nm (services (step reg (register_op nm r))) = Some info
    /\ url info = normalize_url (r_url r).
Proof.
  simpl. rewrite PyDictFacts.get_set_same. eexists. split; reflexivity.
Qed.

Lemma get_probe_cycle nm probe now reg :
  PyDict.get nm (services (probe_cycle probe now reg))
  = option_map
      (fun info =>
         _update_service_health (fst (probe (health_url info)))
                                (snd (probe (health_url info))) now info)
      (PyDict.get nm (services reg)).
Proof.
  unfold probe_cycle. cbn [services].
  induction (services reg) as [|[k v] r IH]; simpl; auto.
  destruct (probe (health_url v)) as [o elapsed] eqn:Ep. simpl.
  destruct (String.eqb nm k); auto.
  simpl. now rewrite Ep.
Qed.

(** Probe rounds leave the address stored under a name as it is. *)
Lemma probe_cycles_keep_url nm u cycles : forall reg,
  (exists info, PyDict.get nm (services reg) = Some info /\ url info = u) ->
  exists info,
    PyDict.get nm (services (run (map probe_op cycles) reg)) = Some info
    /\ url info = u.
Proof.
  induction cycles as [|[probe now] cycles IH]; intros reg H; [exact H|].
  apply IH. destruct H as (info & G & Hu).
  cbn [step probe_op fst snd]. rewrite get_probe_cycle, G. simpl.
  eexists. split; [reflexivity|exact Hu].
Qed.

(** C2 (as the code has it). After one or more registrations under one
    service name, with any addresses, followed by any number of probe
    rounds, the registry holds exactly one record under that name and it
    carries the last address registered; the healthy list and the unhealthy
    list are lists of service names, and together they partition exactly
    the registered names: every registered name is in exactly one of the
    two lists, once. *)
Theorem registrations_partition_names (reg : t) (nm : string)
    (rs : list Registration) (r_last : Registration)
    (cycles : list ((string -> Outcome * Q) * Z)) :
  reachable reg ->
  let reg' := run (map (register_op nm) (rs ++ [r_last])
                   ++ map probe_op cycles) reg in
  (exists info, PyDict.get nm (services reg') = Some info
                /\ url info = normalize_url (r_url r_last))
  /\ count_occ string_dec (get_registered_services reg') nm = 1%nat
  /\ Permutation (get_healthy_services reg' ++ get_unhealthy_services reg')
                 (get_registered_services reg')
  /\ (forall n, In n (get_registered_services reg') ->
        (In n (get_healthy_services reg')
         /\ ~ In n (get_unhealthy_services reg'))
        \/ (~ In n (get_healthy_services reg')
            /\ In n (get_unhealthy_services reg'))).
Proof.
  intros Hreach reg'.
  assert (Hwf : PyDict.wf (services reg')).
  { apply reachable_wf. now apply reachable_run. }
  assert (Hget : exists info, PyDict.get nm (services reg') = Some info
                              /\ url info = normalize_url (r_url r_last)).
  { subst reg'. unfold run. rewrite fold_left_app.
    apply probe_cycles_keep_url.
    rewrite map_app, fold_left_app. simpl fold_left.
    apply register_stores. }
  pose proof (health_lists_permutation reg') as Hperm.
  split; [exact Hget|]. split; [|split; [exact Hperm|]].
  - destruct Hget as (info & Hinfo & _).
    apply PyDictFacts.get_Some_In in Hinfo.
    assert (Hin : In nm (get_registered_services reg')).
    { change nm with (fst (nm, info)). now apply in_map. }
    pose proof (proj1 (NoDup_count_occ string_dec _) Hwf nm) as Hle.
    apply (proj1 (count_occ_In string_dec _ nm)) in Hin.
    unfold get_registered_services in *. lia.
  - intros n Hn.
    assert (Hnd : NoDup (get_healthy_services reg'
                         ++ get_unhealthy_services reg')).
    { eapply Permutation_NoDup; [apply Permutation_sym; exact Hperm|].
      exact Hwf. }
    apply (Permutation_in _ (Permutation_sym Hperm)) in Hn.
    apply in_app_or in Hn.
    destruct Hn as [Hn|Hn]; [left|right]; split; auto.
    + now apply (ListFacts.NoDup_app_disjoint _ _ Hnd).
    + intros Hh. now apply (ListFacts.NoDup_app_disjoint _ _ Hnd n).
Qed.

Lemma registrations_partition_names_witness :
  let reg' := run (map (register_op "svc") ([registration_a] ++ [registration_b])
                   ++ map probe_op [all_up]) init in
  (exists info, PyDict.get "svc" (services reg') = Some info
                /\ url info = normalize_url (r_url registration_b))
  /\ count_occ string_dec (get_registered_services reg') "svc" = 1%nat
  /\ Permutation (get_healthy_services reg' ++ get_unhealthy_services reg')
                 (get_registered_services reg')
  /\ (forall n, In n (get_registered_services reg') ->
        (In n (get_healthy_services reg')
         /\ ~ In n (get_unhealthy_services reg'))
        \/ (~ In n (get_healthy_services reg')
            /\ In n (get_unhealthy_services reg'))).
Proof.
  apply (registrations_partition_names init "svc" [registration_a]
           registration_b [all_up]).
  exists []. reflexivity.
Defined.

(** C2 (as stated) fails: two registrations under ["svc"] with the distinct
    addresses [http://a:8001] and [http://b:8001] leave one record; the two
    lists together are [["svc"]], before and after a round of probes, which
    holds neither address and is no arrangement of the two addresses. *)
Lemma registered_addresses_not_partitioned :
  let reg' := run (map (register_op "svc") [registration_a; registration_b])
                  init in
  let reg'' := run [probe_op all_up] reg' in
  let addresses := map (fun r => normalize_url (r_url r))
                       [registration_a; registration_b] in
  addresses = ["http://a:8001"; "http://b:8001"]
  /\ get_healthy_services reg' ++ get_unhealthy_services reg' = ["svc"]
  /\ get_healthy_services reg'' ++ get_unhealthy_services reg'' = ["svc"]
  /\ ~ Permutation (get_healthy_services reg' ++ get_unhealthy_services reg')
                   addresses
  /\ ~ (forall a, In a addresses ->
          In a (get_healthy_services reg' ++ get_unhealthy_services reg')).
Proof.
  cbv zeta. split; [reflexivity|]. split; [reflexivity|].
  split; [reflexivity|]. split.
  - intros H. apply Permutation_length in H. discriminate H.
  - intros H. specialize (H "http://a:8001" (or_introl eq_refl)).
    vm_compute in H. destruct H as [H|[]]. discriminate H.
Qed.

End ServiceRegistryFacts.

(* ------------------------------------------------------------------ *)
(** ** Unary proxy *)

Module ProxyFacts.
Import Http Gateway.




(** Behind the middleware every request is answered with status 500,
    whatever the limiter holds and whatever the route's handler would
    do; the limiter has counted the request all the same. *)
Lemma middleware_answers_500 {H : Type} (now : Q) (client_ip : string)
    (rate_limiter : option RateLimiter.t) (call_next : H) :
  fst (auth_and_rate_limit_middleware now client_ip rate_limiter call_next)
  = 500
  /\ snd (auth_and_rate_limit_middleware now client_ip rate_limiter
                                         call_next)
     = option_map (fun rl => snd (RateLimiter.is_allowed now client_ip rl))
                  rate_limiter.
Proof. destruct rate_limiter; split; reflexivity. Qed.

End ProxyFacts.

(* ------------------------------------------------------------------ *)
(** ** Load balancer *)

Module LoadBalancerFacts.
Import LoadBalancer.

(** *** The strategies on small inputs *)

Example least_connections_picks_B :
  fst (get_service_url "svc" None 0 0
         (balancer_of LEAST_CONNECTIONS busy_instances))
  = Some "http://B".
Proof. reflexivity. Qed.

Example weighted_round_robin_one_to_three :
  let env := repeat (0%Q, 0%nat) 8 in
  let rs := fst (resolutions "svc" None env
                   (balancer_of WEIGHTED_ROUND_ROBIN weighted_instances)) in
  count_occ Nat.eq_dec (selected_positions rs) 0%nat = 2%nat
  /\ count_occ Nat.eq_dec (selected_positions rs) 1%nat = 6%nat.
Proof. split; reflexivity. Qed.

Example lazy_instance_from_registry :
  let r := resolve "svc" (Some "http://a:1") 7 0 (init ROUND_ROBIN) in
  fst r = Some (0%nat, "http://a:1")
  /\ map active_connections (get_service_instances "svc" (snd r)) = [1].
Proof. split; reflexivity. Qed.

(** *** Arithmetic of a rotation *)

Lemma rotation_closed n K : forall c,
  0 < n ->
  rotation n c K = map (fun i => (c + Z.of_nat i) mod n) (seq 0 K).
Proof.
  induction K as [|K IH]; intros c Hn; simpl; auto.
  rewrite Z.add_0_r. f_equal.
  rewrite IH by assumption. rewrite <- seq_shift, map_map.
  apply map_ext. intros i.
  rewrite Zplus_mod_idemp_l. f_equal. lia.
Qed.

Lemma hits_index n c k j :
  0 < n -> 0 <= j < n ->
  ((c + k) mod n = j <-> k mod n = (j - c) mod n).
Proof.
  intros Hn Hj. split; intros H.
  - rewrite <- H. rewrite Zminus_mod_idemp_l. f_equal. lia.
  - rewrite <- Zplus_mod_idemp_r, H, Zplus_mod_idemp_r.
    replace (c + (j - c)) with j by lia. now apply Z.mod_small.
Qed.

Lemma succ_div_mod n k :
  0 < n -> 0 <= k ->
  (k mod n + 1 < n /\ (k + 1) / n = k / n /\ (k + 1) mod n = k mod n + 1)
  \/ (k mod n + 1 = n /\ (k + 1) / n = k / n + 1 /\ (k + 1) mod n = 0).
Proof.
  intros Hn Hk.
  pose proof (Z.mod_pos_bound k n Hn) as Hr.
  pose proof (Z.div_mod k n ltac:(lia)) as Hdm.
  destruct (Z_lt_dec (k mod n + 1) n) as [Hlt|Hge]; [left|right].
  - split; [exact Hlt|]. split.
    + symmetry. apply (Z.div_unique_pos (k + 1) n (k / n) (k mod n + 1)); lia.
    + symmetry. apply (Z.mod_unique_pos (k + 1) n (k / n) (k mod n + 1)); lia.
  - split; [lia|]. split.
    + symmetry. apply (Z.div_unique_pos (k + 1) n (k / n + 1) 0); lia.
    + symmetry. apply (Z.mod_unique_pos (k + 1) n (k / n + 1) 0); lia.
Qed.

(** How often index [j] comes up in [K] steps from counter [c]. *)
Lemma count_rotation n c j K :
  0 < n -> 0 <= j < n ->
  Z.of_nat (count_occ Z.eq_dec (rotation n c K) j)
  = Z.of_nat K / n
    + (if (j - c) mod n <? Z.of_nat K mod n then 1 else 0).
Proof.
  intros Hn Hj. rewrite rotation_closed by assumption.
  induction K as [|K IH].
  - cbn [seq map count_occ]. change (Z.of_nat 0) with 0.
    rewrite Zdiv_0_l, Zmod_0_l.
    pose proof (Z.mod_pos_bound (j - c) n Hn).
    destruct (Z.ltb_spec ((j - c) mod n) 0); lia.
  - rewrite seq_S, map_app, count_occ_app, Nat2Z.inj_add, IH.
    simpl map. rewrite Nat2Z.inj_succ, <- Z.add_1_r.
    pose proof (Z.mod_pos_bound (j - c) n Hn) as Hd.
    pose proof (hits_index n c (Z.of_nat K) j Hn Hj) as Hhit.
    destruct (succ_div_mod n (Z.of_nat K) Hn ltac:(lia))
      as [(H1 & H2 & H3)|(H1 & H2 & H3)]; rewrite H2, H3;
      simpl count_occ;
      destruct (Z.eq_dec ((c + Z.of_nat K) mod n) j) as [E|E];
      destruct (Z.ltb_spec ((j - c) mod n) (Z.of_nat K mod n));
      destruct (Z.ltb_spec ((j - c) mod n) (Z.of_nat K mod n + 1));
      try destruct (Z.ltb_spec ((j - c) mod n) 0);
      try (apply Hhit in E); try lia;
      try (exfalso; apply E; apply Hhit; lia).
Qed.

(** The count is the floor or the ceiling of [K / n]. *)
Lemma count_rotation_floor_ceil n c j K :
  (0 < n)%nat -> (j < n)%nat ->
  let k := count_occ Z.eq_dec (rotation (Z.of_nat n) c K) (Z.of_nat j) in
  k = (K / n)%nat \/ k = ((K + n - 1) / n)%nat.
Proof.
  intros Hn Hj k.
  assert (Hk : Z.of_nat k = Z.of_nat K / Z.of_nat n
               + (if (Z.of_nat j - c) mod Z.of_nat n
                     <? Z.of_nat K mod Z.of_nat n then 1 else 0))
    by (apply count_rotation; lia).
  pose proof (Z.mod_pos_bound (Z.of_nat j - c) (Z.of_nat n) ltac:(lia)) as Hd.
  pose proof (Z.mod_pos_bound (Z.of_nat K) (Z.of_nat n) ltac:(lia)) as Hr.
  pose proof (Z.div_mod (Z.of_nat K) (Z.of_nat n) ltac:(lia)) as Hdm.
  destruct (Z.ltb_spec ((Z.of_nat j - c) mod Z.of_nat n)
                       (Z.of_nat K mod Z.of_nat n)) as [Hlt|Hge].
  - right. apply Nat2Z.inj. rewrite Nat2Z.inj_div, Hk.
    replace (Z.of_nat (K + n - 1)) with (Z.of_nat K + Z.of_nat n - 1) by lia.
    apply (Z.div_unique_pos _ _ _ (Z.of_nat K mod Z.of_nat n - 1)); lia.
  - left. apply Nat2Z.inj. rewrite Nat2Z.inj_div, Hk. lia.
Qed.

(** *** References into an instance list *)

Lemma length_update_at {A : Type} (f : A -> A) (l : list A) : forall i,
  length (update_at i f l) = length l.
Proof.
  induction l as [|x r IH]; intros [|i]; simpl; auto.
Qed.

Lemma map_update_at {A B : Type} (g : A -> B) (f : A -> A) (l : list A) :
  (forall x, g (f x) = g x) ->
  forall i, map g (update_at i f l) = map g l.
Proof.
  intros Hg. induction l as [|x r IH]; intros [|i]; simpl; auto.
  - now rewrite Hg.
  - now rewrite IH.
Qed.

Lemma positions_by_flags (l l' : list ServiceInstance) : forall s,
  map is_healthy l = map is_healthy l' ->
  map fst (filter (fun r : Ref => is_healthy (snd r))
             (combine (seq s (length l)) l))
  = map fst (filter (fun r : Ref => is_healthy (snd r))
               (combine (seq s (length l')) l')).
Proof.
  revert l'. induction l as [|x r IH]; intros [|x' r'] s H;
    try discriminate; auto.
  simpl in H. injection H as Hx Hr. simpl. rewrite Hx.
  destruct (is_healthy x'); simpl; now rewrite (IH r' (S s) Hr).
Qed.

Lemma healthy_positions_by_flags (l l' : list ServiceInstance) :
  map is_healthy l = map is_healthy l' ->
  healthy_positions l = healthy_positions l'.
Proof. apply positions_by_flags. Qed.

Lemma In_combine_seq (l : list ServiceInstance) : forall s p inst,
  In (p, inst) (combine (seq s (length l)) l) ->
  (s <= p)%nat /\ nth_error l (p - s) = Some inst.
Proof.
  induction l as [|x r IH]; intros s p inst; simpl; [tauto|].
  intros [H|H].
  - injection H as <- <-. split; [lia|]. now rewrite Nat.sub_diag.
  - apply IH in H as (Hle & Hn). split; [lia|].
    replace (p - s)%nat with (S (p - S s)) by lia. exact Hn.
Qed.

Lemma In_healthy_instances l p inst :
  In (p, inst) (healthy_instances l) ->
  nth_error l p = Some inst /\ is_healthy inst = true.
Proof.
  unfold healthy_instances, refs. intros H. apply filter_In in H as (H & Hh).
  apply In_combine_seq in H as (_ & H). rewrite Nat.sub_0_r in H. auto.
Qed.

Lemma positions_bounds (l : list ServiceInstance) : forall s,
  let hp := map fst (filter (fun r : Ref => is_healthy (snd r))
                       (combine (seq s (length l)) l)) in
  NoDup hp /\ forall p, In p hp -> (s <= p)%nat.
Proof.
  induction l as [|x r IH]; intros s; simpl.
  - split; [constructor|tauto].
  - destruct (IH (S s)) as (Hnd & Hb). destruct (is_healthy x); simpl.
    + split.
      * constructor; auto. intros H. apply Hb in H. lia.
      * intros p [<-|H]; [lia|]. apply Hb in H. lia.
    + split; auto. intros p H. apply Hb in H. lia.
Qed.

Lemma NoDup_healthy_positions l : NoDup (healthy_positions l).
Proof. apply (positions_bounds l 0). Qed.

(** *** One round-robin step *)

Lemma counter_of_touch nm counters :
  counter_of nm (touch_counter nm counters) = counter_of nm counters.
Proof.
  unfold touch_counter, counter_of, PyDict.mem.
  destruct (PyDict.get nm counters) eqn:G.
  - now rewrite G.
  - now rewrite PyDictFacts.get_set_same.
Qed.

Lemma round_robin_step {A : Type} nm (instances : list A) counters :
  instances <> [] ->
  let n := Z.of_nat (length instances) in
  let c := counter_of nm counters in
  exists x,
    nth_error instances (Z.to_nat (c mod n)) = Some x
    /\ _round_robin_selection nm instances counters
       = Some (x, PyDict.set nm ((c + 1) mod n) (touch_counter nm counters)).
Proof.
  intros Hne n c. unfold _round_robin_selection.
  rewrite counter_of_touch. fold n c.
  assert (Hn : 0 < n).
  { subst n. destruct instances; [contradiction|simpl; lia]. }
  destruct (Z.eqb_spec n 0); [lia|].
  pose proof (Z.mod_pos_bound c n Hn) as Hb.
  destruct (nth_error instances (Z.to_nat (c mod n))) as [x|] eqn:E.
  - exists x. auto.
  - apply nth_error_None in E. lia.
Qed.

Lemma rotation_range n c K x :
  0 < n -> In x (rotation n c K) -> 0 <= x < n.
Proof.
  intros Hn. revert c. induction K as [|K IH]; intros c; simpl; [tauto|].
  intros [<-|H]; [now apply Z.mod_pos_bound|eauto].
Qed.

Lemma count_occ_map_inj {A B : Type} (decA : forall x y : A, {x = y} + {x <> y})
    (decB : forall x y : B, {x = y} + {x <> y}) (f : A -> B) (l : list A) y :
  (forall x, In x l -> f x = f y -> x = y) ->
  count_occ decB (map f l) (f y) = count_occ decA l y.
Proof.
  induction l as [|x r IH]; intros Hinj; simpl; auto.
  destruct (decB (f x) (f y)) as [E|E], (decA x y) as [E'|E'].
  - f_equal. apply IH. intros; apply Hinj; auto. now right.
  - exfalso. apply E'. apply Hinj; auto. now left.
  - subst. contradiction.
  - apply IH. intros; apply Hinj; auto. now right.
Qed.

(** *** One resolution under round-robin *)

Lemma resolve_round_robin nm ru now draw lb l :
  strategy lb = ROUND_ROBIN ->
  PyDict.get nm (service_instances lb) = Some l ->
  healthy_positions l <> [] ->
  let n := Z.of_nat (length (healthy_positions l)) in
  let c := counter_of nm (round_robin_counters lb) in
  exists p inst,
    nth_error (healthy_instances l) (Z.to_nat (c mod n)) = Some (p, inst)
    /\ resolve nm ru now draw lb
       = (Some (p, url inst),
          {| strategy := ROUND_ROBIN;
             service_instances :=
               PyDict.set nm (update_at p (mark_used now) l)
                          (service_instances lb);
             round_robin_counters :=
               PyDict.set nm ((c + 1) mod n)
                          (touch_counter nm (round_robin_counters lb)) |}).
Proof.
  intros Hs G Hne n c.
  assert (Hh : healthy_instances l <> []).
  { intros E. apply Hne. unfold healthy_positions. now rewrite E. }
  destruct (round_robin_step nm (healthy_instances l)
              (round_robin_counters lb) Hh) as ([p inst] & Hnth & Hsel).
  assert (Hlen : length (healthy_instances l) = length (healthy_positions l))
    by (unfold healthy_positions; now rewrite length_map).
  rewrite Hlen in Hnth, Hsel. fold n c in Hnth, Hsel.
  exists p, inst. split; [exact Hnth|].
  unfold resolve. rewrite G, Hs.
  destruct l as [|x0 l0]; [now contradiction Hne|].
  destruct (healthy_instances (x0 :: l0)) as [|h0 hs] eqn:Eh;
    [contradiction|].
  unfold _select_instance. rewrite Hsel. reflexivity.
Qed.

(** *** A run of resolutions under round-robin *)

Lemma resolutions_round_robin nm ru l0 env : forall lb l,
  strategy lb = ROUND_ROBIN ->
  PyDict.get nm (service_instances lb) = Some l ->
  map is_healthy l = map is_healthy l0 ->
  map url l = map url l0 ->
  healthy_positions l0 <> [] ->
  let n := Z.of_nat (length (healthy_positions l0)) in
  let c := counter_of nm (round_robin_counters lb) in
  let rs := fst (resolutions nm ru env lb) in
  selected_positions rs
  = map (fun i => nth (Z.to_nat i) (healthy_positions l0) 0%nat)
        (rotation n c (length env))
  /\ Forall (fun r => exists p inst,
                r = Some (p, url inst)
                /\ In p (healthy_positions l0)
                /\ nth_error l0 p = Some inst) rs.
Proof.
  induction env as [|[now draw] env IH]; intros lb l Hs G Hfl Hurl Hne n c rs.
  - subst rs. simpl. split; [reflexivity|constructor].
  - pose proof (healthy_positions_by_flags _ _ Hfl) as Hhp.
    destruct (resolve_round_robin nm ru now draw lb l Hs G)
      as (p & inst & Hnth & Hres).
    { now rewrite Hhp. }
    rewrite Hhp in Hnth, Hres. fold n c in Hnth, Hres.
    subst rs. simpl resolutions. rewrite Hres.
    set (lb1 := {| strategy := ROUND_ROBIN |}).
    specialize (IH lb1 (update_at p (mark_used now) l)).
    destruct IH as (IH1 & IH2).
    + reflexivity.
    + apply PyDictFacts.get_set_same.
    + rewrite <- Hfl. now apply map_update_at.
    + rewrite <- Hurl. now apply map_update_at.
    + exact Hne.
    + assert (Hc1 : counter_of nm (round_robin_counters lb1) = (c + 1) mod n).
      { unfold counter_of, lb1. simpl.
        now rewrite PyDictFacts.get_set_same. }
      rewrite Hc1 in IH1.
      destruct (resolutions nm ru env lb1) as [rs lb2]. simpl in IH1, IH2.
      simpl. rewrite IH1.
      assert (Hin : In (p, inst) (healthy_instances l))
        by (eapply nth_error_In; eauto).
      assert (Hp : nth (Z.to_nat (c mod n)) (healthy_positions l0) 0%nat = p).
      { rewrite <- Hhp. unfold healthy_positions.
        apply nth_error_nth.
        exact (map_nth_error fst _ _ Hnth). }
      split; [now rewrite Hp|].
      constructor; [|exact IH2].
      apply In_healthy_instances in Hin as Hin'. destruct Hin' as (Hl & _).
      assert (Hu : nth_error (map url l0) p = Some (url inst)).
      { rewrite <- Hurl. now rewrite nth_error_map, Hl. }
      rewrite nth_error_map in Hu.
      destruct (nth_error l0 p) as [inst0|] eqn:E0; [|discriminate].
      simpl in Hu. injection Hu as Hu.
      exists p, inst0. rewrite Hu. repeat split; auto.
      rewrite <- Hhp. unfold healthy_positions.
      change p with (fst (p, inst)). now apply in_map.
Qed.

(** C4. Under round-robin, [K] consecutive resolutions of a service whose
    instance list has [M > 0] healthy instances all return the address of a
    healthy instance, and each healthy instance is selected [K / M] times
    rounded down or rounded up.  Whatever counter is stored and whatever
    the length of the (non-empty) list it is given, [_round_robin_selection]
    picks the element at index [counter mod length], which is in range, and
    stores a counter below the length. *)
Theorem round_robin_fair (lb : t) (nm : string) (ru : option string)
    (l : list ServiceInstance) (env : list (Q * nat)) :
  strategy lb = ROUND_ROBIN ->
  PyDict.get nm (service_instances lb) = Some l ->
  healthy_positions l <> [] ->
  let M := length (healthy_positions l) in
  let K := length env in
  let rs := fst (resolutions nm ru env lb) in
  Forall (fun r => exists p inst,
            r = Some (p, url inst)
            /\ In p (healthy_positions l)
            /\ nth_error l p = Some inst) rs
  /\ (forall p, In p (healthy_positions l) ->
        count_occ Nat.eq_dec (selected_positions rs) p = (K / M)%nat
        \/ count_occ Nat.eq_dec (selected_positions rs) p
           = ((K + M - 1) / M)%nat)
  /\ (forall (A : Type) (instances : list A) (counters : PyDict.t Z)
             (nm' : string),
        instances <> [] ->
        exists i x counters',
          _round_robin_selection nm' instances counters = Some (x, counters')
          /\ Z.of_nat i
             = counter_of nm' counters mod Z.of_nat (length instances)
          /\ (i < length instances)%nat
          /\ nth_error instances i = Some x
          /\ 0 <= counter_of nm' counters' < Z.of_nat (length instances)).
Proof.
  intros Hs G Hne M K rs.
  destruct (resolutions_round_robin nm ru l env lb l Hs G eq_refl eq_refl Hne)
    as (Hsel & Hall).
  fold rs in Hsel, Hall. fold M K in Hsel.
  assert (HM : (0 < M)%nat).
  { subst M. destruct (healthy_positions l); [contradiction|simpl; lia]. }
  split; [exact Hall|]. split.
  - intros p Hp.
    destruct (In_nth _ _ 0%nat Hp) as (j & Hj & Hnth). fold M in Hj.
    set (f := fun i : Z => nth (Z.to_nat i) (healthy_positions l) 0%nat)
      in Hsel.
    assert (Hpf : p = f (Z.of_nat j)).
    { unfold f. now rewrite Nat2Z.id. }
    rewrite Hsel, Hpf.
    rewrite (count_occ_map_inj Z.eq_dec Nat.eq_dec f).
    + now apply count_rotation_floor_ceil.
    + intros x Hx Hfx.
      apply rotation_range in Hx; [|lia].
      unfold f in Hfx. rewrite Nat2Z.id in Hfx.
      apply (proj1 (NoDup_nth _ 0%nat) (NoDup_healthy_positions l)) in Hfx;
        fold M; lia.
  - intros A instances counters nm' Hi.
    destruct (round_robin_step nm' instances counters Hi) as (x & Hx & Hsel').
    cbv zeta in Hx, Hsel'.
    assert (Hn : 0 < Z.of_nat (length instances)).
    { destruct instances; [contradiction|simpl; lia]. }
    pose proof (Z.mod_pos_bound (counter_of nm' counters) _ Hn) as Hb.
    exists (Z.to_nat (counter_of nm' counters
                      mod Z.of_nat (length instances))), x.
    eexists. split; [exact Hsel'|]. split; [lia|]. split; [lia|].
    split; [exact Hx|].
    unfold counter_of at 1 3. rewrite PyDictFacts.get_set_same.
    now apply Z.mod_pos_bound.
Qed.

Lemma round_robin_fair_witness :
  let env := [(0%Q, 0%nat); (1%Q, 0%nat); (2%Q, 0%nat); (3%Q, 0%nat);
              (4%Q, 0%nat)] in
  let rs := fst (resolutions "svc" None env sample_balancer) in
  map (option_map snd) rs
  = [Some "http://a:1"; Some "http://c:1"; Some "http://a:1";
     Some "http://c:1"; Some "http://a:1"]
  /\ (forall p, In p (healthy_positions three_instances) ->
        count_occ Nat.eq_dec (selected_positions rs) p = (5 / 2)%nat
        \/ count_occ Nat.eq_dec (selected_positions rs) p
           = ((5 + 2 - 1) / 2)%nat).
Proof.
  intros env rs. split; [reflexivity|].
  refine (proj1 (proj2 (round_robin_fair sample_balancer "svc" None
                          three_instances env eq_refl eq_refl _))).
  discriminate.
Defined.

(** *** Addresses under a service name *)

Lemma NoDup_map_filter {A B : Type} (f : A -> B) (P : A -> bool) (l : list A) :
  NoDup (map f l) -> NoDup (map f (filter P l)).
Proof.
  induction l as [|x r IH]; simpl; auto.
  intros H. inversion H as [|? ? Hni Hnd]; subst.
  destruct (P x); simpl; auto.
  constructor; auto. intros Hin. apply Hni.
  apply in_map_iff in Hin as (y & Hy & Hin). apply filter_In in Hin as (Hin & _).
  rewrite <- Hy. now apply in_map.
Qed.

Lemma update_first_urls u f l l' :
  (forall x, url (f x) = url x) ->
  update_first u f l = Some l' -> map url l' = map url l.
Proof.
  intros Hf. revert l'. induction l as [|x r IH]; intros l'; simpl;
    [discriminate|].
  destruct (String.eqb (url x) u).
  - intros [= <-]. simpl. now rewrite Hf.
  - destruct (update_first u f r) as [r'|]; [|discriminate].
    intros [= <-]. simpl. now rewrite (IH r').
Qed.

Lemma existsb_url_false u l :
  existsb (fun inst => String.eqb (url inst) u) l = false ->
  ~ In u (map url l).
Proof.
  induction l as [|x r IH]; simpl; [tauto|].
  intros H. apply orb_false_elim in H as (Hx & Hr).
  apply String.eqb_neq in Hx. intros [E|E]; [congruence|now apply IH].
Qed.

Lemma select_counters_wf s draw nm instances counters r counters' :
  PyDict.wf counters ->
  _select_instance s draw nm instances counters = Some (r, counters') ->
  PyDict.wf counters'.
Proof.
  intros Hwf.
  assert (Htouch : PyDict.wf (touch_counter nm counters)).
  { unfold touch_counter. destruct (PyDict.mem nm counters); auto.
    now apply PyDictFacts.wf_set. }
  assert (Hrr : forall (xs : list Ref),
            _round_robin_selection nm xs counters = Some (r, counters') ->
            PyDict.wf counters').
  { intros xs. unfold _round_robin_selection.
    destruct (_ =? 0); [discriminate|].
    destruct (nth_error xs _); [|discriminate].
    intros [= _ <-]. now apply PyDictFacts.wf_set. }
  unfold _select_instance. destruct instances as [|x xs]; [discriminate|].
  destruct s.
  - apply Hrr.
  - destruct (_random_selection draw (x :: xs)); simpl; [|discriminate].
    now intros [= _ <-].
  - simpl. now intros [= _ <-].
  - unfold _weighted_round_robin_selection. cbv zeta.
    match goal with
    | |- context [flat_map ?f ?xs'] => destruct (flat_map f xs') as [|y ys]
    end.
    + now intros [= _ <-].
    + apply Hrr.
  - destruct (_least_response_time_selection (x :: xs)); simpl;
      [|discriminate].
    now intros [= _ <-].
Qed.

(** What a resolution leaves in the instance tables: the tables it found,
    or new content under the resolved name only, with the addresses the
    name had, or the single address the registry gave. *)
Lemma resolve_effect nm ru now draw lb :
  let lb' := snd (resolve nm ru now draw lb) in
  strategy lb' = strategy lb
  /\ (PyDict.wf (service_instances lb) -> PyDict.wf (service_instances lb'))
  /\ (PyDict.wf (round_robin_counters lb) ->
      PyDict.wf (round_robin_counters lb'))
  /\ (forall nm', nm' <> nm ->
        PyDict.get nm' (service_instances lb')
        = PyDict.get nm' (service_instances lb))
  /\ (forall l', PyDict.get nm (service_instances lb') = Some l' ->
        map url l' = map url (get_service_instances nm lb)
        \/ exists u, map url l' = [u]).
Proof.
  unfold resolve, get_service_instances.
  set (stored := match PyDict.get nm (service_instances lb) with
                 | Some l => l
                 | None => []
                 end).
  assert (Hstored : forall l', PyDict.get nm (service_instances lb) = Some l' ->
                               l' = stored).
  { intros l' G. unfold stored. now rewrite G. }
  assert (Hupd : forall p l, map url (update_at p (mark_used now) l) = map url l)
    by (intros; now apply map_update_at).
  destruct stored as [|x0 l0] eqn:Est.
  - (* no instance stored: the registry is asked *)
    destruct ru as [service_url|]; [destruct (truthy service_url)|].
    + destruct (healthy_instances [new_instance service_url 1]) as [|h hs].
      * simpl. repeat split; auto using PyDictFacts.wf_set.
        -- intros nm' Hne. now apply PyDictFacts.get_set_other.
        -- rewrite PyDictFacts.get_set_same. intros l' [= <-].
           right. now exists service_url.
      * destruct (_select_instance _ _ _ _ _) as [[sel counters]|] eqn:Esel;
          simpl.
        -- repeat split; auto using PyDictFacts.wf_set.
           ++ intros Hwf. eapply select_counters_wf; eauto.
           ++ intros nm' Hne. now rewrite !PyDictFacts.get_set_other.
           ++ rewrite PyDictFacts.get_set_same. intros l' [= <-].
              right. exists service_url. now rewrite Hupd.
        -- repeat split; auto using PyDictFacts.wf_set.
           ++ intros nm' Hne. now apply PyDictFacts.get_set_other.
           ++ rewrite PyDictFacts.get_set_same. intros l' [= <-].
              right. now exists service_url.
    + simpl. repeat split; auto. intros l' G. left. now rewrite (Hstored l' G).
    + simpl. repeat split; auto. intros l' G. left. now rewrite (Hstored l' G).
  - (* the stored instances are used *)
    destruct (healthy_instances (x0 :: l0)) as [|h hs];
      [|destruct (_select_instance _ _ _ _ _) as [[sel counters]|] eqn:Esel];
      simpl.
    + repeat split; auto. intros l' G. left. now rewrite (Hstored l' G).
    + repeat split; auto using PyDictFacts.wf_set.
      * intros Hwf. eapply select_counters_wf; eauto.
      * intros nm' Hne. now apply PyDictFacts.get_set_other.
      * rewrite PyDictFacts.get_set_same. intros l' [= <-]. left.
        apply (Hupd (fst sel) (x0 :: l0)).
    + repeat split; auto. intros l' G. left. now rewrite (Hstored l' G).
Qed.

End LoadBalancerFacts.

(* ------------------------------------------------------------------ *)
(** ** The gateway's tables *)

Module GatewayFacts.
Import LoadBalancer Gateway.

Lemma get_service_instances_urls lb nm :
  unique_addresses lb -> NoDup (map url (get_service_instances nm lb)).
Proof.
  intros Hu. unfold get_service_instances.
  destruct (PyDict.get nm (service_instances lb)) as [l|] eqn:G.
  - now apply (Hu nm).
  - constructor.
Qed.

Lemma add_tables_ok nm u w lb :
  tables_ok lb ->
  existsb (fun inst => String.eqb (url inst) u)
          (get_service_instances nm lb) = false ->
  tables_ok (snd (add_service_instance nm u w lb)).
Proof.
  intros (Hw1 & Hw2 & Hu) Hfresh. unfold add_service_instance. simpl.
  set (table := if PyDict.mem nm (service_instances lb)
                then service_instances lb
                else PyDict.set nm [] (service_instances lb)).
  assert (Hwt : PyDict.wf table).
  { unfold table. destruct (PyDict.mem nm _); auto.
    now apply PyDictFacts.wf_set. }
  assert (Hl : match PyDict.get nm table with Some l => l | None => [] end
               = get_service_instances nm lb).
  { unfold table, get_service_instances, PyDict.mem.
    destruct (PyDict.get nm (service_instances lb)) as [l|] eqn:G.
    - now rewrite G.
    - now rewrite PyDictFacts.get_set_same. }
  assert (Hoth : forall nm', nm' <> nm ->
            PyDict.get nm' table = PyDict.get nm' (service_instances lb)).
  { intros nm' Hne. unfold table. destruct (PyDict.mem nm _); auto.
    now apply PyDictFacts.get_set_other. }
  split; [now apply PyDictFacts.wf_set|]. split; [exact Hw2|].
  intros nm' l'. simpl. destruct (string_dec nm' nm) as [->|Hne].
  - rewrite PyDictFacts.get_set_same, Hl. intros [= <-].
    rewrite map_app. simpl. apply NoDup_app.
    + now apply get_service_instances_urls.
    + repeat constructor. simpl. tauto.
    + intros a Ha [<-|[]]. revert Ha.
      now apply LoadBalancerFacts.existsb_url_false.
  - rewrite PyDictFacts.get_set_other, Hoth by assumption. apply Hu.
Qed.

Lemma remove_tables_ok nm u lb :
  tables_ok lb -> tables_ok (snd (remove_service_instance nm u lb)).
Proof.
  intros (Hw1 & Hw2 & Hu). unfold remove_service_instance.
  destruct (PyDict.get nm (service_instances lb)) as [l|] eqn:G;
    [|now repeat split].
  pose proof (LoadBalancerFacts.NoDup_map_filter url
                (fun inst => negb (String.eqb (url inst) u)) l (Hu nm l G))
    as Hkept.
  unfold tables_ok, unique_addresses.
  destruct (filter _ l) as [|k ks];
    cbn [snd service_instances round_robin_counters].
  - split; [now apply PyDictFacts.wf_del, PyDictFacts.wf_set|].
    split; [exact Hw2|].
    intros nm' l'. destruct (string_dec nm' nm) as [->|Hne].
    + now rewrite PyDictFacts.get_del_same.
    + rewrite PyDictFacts.get_del_other, PyDictFacts.get_set_other
        by assumption.
      apply Hu.
  - split; [now apply PyDictFacts.wf_set|]. split; [exact Hw2|].
    intros nm' l'. destruct (string_dec nm' nm) as [->|Hne].
    + rewrite PyDictFacts.get_set_same. now intros [= <-].
    + rewrite PyDictFacts.get_set_other by assumption. apply Hu.
Qed.

Lemma update_tables_ok nm u f lb :
  (forall x, url (f x) = url x) ->
  tables_ok lb -> tables_ok (snd (update_instance nm u f lb)).
Proof.
  intros Hf (Hw1 & Hw2 & Hu). unfold update_instance.
  destruct (PyDict.get nm (service_instances lb)) as [l|] eqn:G;
    [|now repeat split].
  destruct (update_first u f l) as [l1|] eqn:E; [|now repeat split].
  simpl. split; [now apply PyDictFacts.wf_set|]. split; [exact Hw2|].
  intros nm' l'. simpl. destruct (string_dec nm' nm) as [->|Hne].
  - rewrite PyDictFacts.get_set_same. intros [= <-].
    rewrite (LoadBalancerFacts.update_first_urls u f l l1 Hf E).
    now apply (Hu nm).
  - rewrite PyDictFacts.get_set_other by assumption. apply Hu.
Qed.

Lemma resolve_tables_ok nm ru now draw lb :
  tables_ok lb -> tables_ok (snd (resolve nm ru now draw lb)).
Proof.
  intros (Hw1 & Hw2 & Hu).
  destruct (LoadBalancerFacts.resolve_effect nm ru now draw lb)
    as (_ & H1 & H2 & Hoth & Hnm).
  split; [auto|]. split; [auto|].
  intros nm' l'. destruct (string_dec nm' nm) as [->|Hne].
  - intros G. destruct (Hnm l' G) as [E|(a & E)]; rewrite E.
    + now apply get_service_instances_urls.
    + repeat constructor. simpl. tauto.
  - rewrite Hoth by assumption. apply Hu.
Qed.

Lemma step_invariant g o :
  adds_fresh g o = true ->
  one_record_per_name g /\ unique_addresses (load_balancer g) ->
  one_record_per_name (step g o) /\ unique_addresses (load_balancer (step g o)).
Proof.
  intros Hfresh ((Hr & Hi & Hc) & Hu).
  assert (Hok : tables_ok (load_balancer g)) by (repeat split; auto).
  assert (Hlift : forall lb, tables_ok lb ->
            one_record_per_name (with_balancer g lb)
            /\ unique_addresses (load_balancer (with_balancer g lb))).
  { intros lb (H1 & H2 & H3). repeat split; auto. }
  destruct o; simpl in *.
  - repeat split; auto. now apply ServiceRegistryFacts.step_wf.
  - unfold get_service_url, LoadBalancer.get_service_url.
    pose proof (resolve_tables_ok nm
                  (ServiceRegistry.get_service_url nm (service_registry g))
                  now draw (load_balancer g) Hok) as (H1 & H2 & H3).
    destruct (resolve nm _ now draw (load_balancer g)) as [r lb'].
    simpl in *. repeat split; auto.
  - apply Hlift. apply add_tables_ok; auto.
    now apply negb_true_iff in Hfresh.
  - apply Hlift. now apply remove_tables_ok.
  - apply Hlift. now apply update_tables_ok.
  - apply Hlift. now apply update_tables_ok.
  - apply Hlift. destruct Hok as (H1 & H2 & H3). repeat split; auto.
  - apply Hlift. repeat split; try constructor.
    intros nm l. discriminate.
Qed.

Lemma run_invariant ops : forall g,
  all_adds_fresh g ops = true ->
  one_record_per_name g /\ unique_addresses (load_balancer g) ->
  one_record_per_name (run ops g)
  /\ unique_addresses (load_balancer (run ops g)).
Proof.
  unfold run. induction ops as [|o ops IH]; intros g Hf Hinv; simpl; auto.
  simpl in Hf. apply andb_true_iff in Hf as (Hf1 & Hf2).
  apply IH; auto. now apply step_invariant.
Qed.

(** C7 (as the code has it). In every state the gateway reaches from its
    initial state by operations among which no [add_service_instance] adds
    an address its service already has, each dictionary holds one entry per
    service name and the instances under a name are pairwise distinct by
    address; registering a name a second time with the same address leaves
    the list of registered names as it is and one record under the name,
    with that address; and [add_service_instance] appends the new instance
    to the instances the name has, whatever their addresses. *)
Theorem names_and_addresses_unique (s : LoadBalancingStrategy)
    (ops : list op) :
  all_adds_fresh (init s) ops = true ->
  let g := run ops (init s) in
  one_record_per_name g
  /\ unique_addresses (load_balancer g)
  /\ (forall nm u md probe t_reg t_check md' probe' t_reg' t_check',
        let g1 :=
          step g (RegistryOp (ServiceRegistry.Register nm u md probe
                                t_reg t_check)) in
        let g2 :=
          step g1 (RegistryOp (ServiceRegistry.Register nm u md' probe'
                                 t_reg' t_check')) in
        ServiceRegistry.get_registered_services (service_registry g2)
        = ServiceRegistry.get_registered_services (service_registry g1)
        /\ count_occ string_dec
             (ServiceRegistry.get_registered_services (service_registry g2))
             nm = 1%nat
        /\ option_map ServiceRegistry.url
             (PyDict.get nm (ServiceRegistry.services (service_registry g2)))
           = Some (ServiceRegistry.normalize_url u))
  /\ (forall nm u w,
        get_service_instances nm
          (load_balancer (step g (AddServiceInstance nm u w)))
        = get_service_instances nm (load_balancer g) ++ [new_instance u w]).
Proof.
  intros Hfresh g.
  assert (Hinv : one_record_per_name g /\ unique_addresses (load_balancer g)).
  { apply run_invariant; [exact Hfresh|].
    repeat split; try constructor. intros nm l. discriminate. }
  destruct Hinv as (Hone & Hu). split; [exact Hone|]. split; [exact Hu|].
  split.
  2:{ intros nm u w. cbn [step with_balancer load_balancer].
      unfold add_service_instance, get_service_instances, PyDict.mem.
      cbn [snd service_instances].
      rewrite PyDictFacts.get_set_same.
      destruct (PyDict.get nm (service_instances (load_balancer g))) as [l|]
        eqn:G.
      - now rewrite G.
      - now rewrite PyDictFacts.get_set_same. }
  intros nm u md probe t_reg t_check md' probe' t_reg' t_check' g1 g2.
  assert (Hwf2 : PyDict.wf (ServiceRegistry.services (service_registry g2))).
  { subst g2 g1. cbn [step service_registry].
    do 2 apply ServiceRegistryFacts.step_wf. apply Hone. }
  assert (Hget : exists info,
            PyDict.get nm (ServiceRegistry.services (service_registry g2))
            = Some info
            /\ ServiceRegistry.url info = ServiceRegistry.normalize_url u).
  { subst g2. simpl. rewrite PyDictFacts.get_set_same.
    eexists. split; reflexivity. }
  split; [|split].
  - subst g2 g1. simpl. unfold ServiceRegistry.get_registered_services. simpl.
    apply PyDictFacts.keys_set_present.
    now rewrite PyDictFacts.get_set_same.
  - destruct Hget as (info & Hinfo & _).
    apply PyDictFacts.get_Some_In in Hinfo.
    assert (Hin : In nm (ServiceRegistry.get_registered_services
                           (service_registry g2))).
    { change nm with (fst (nm, info)). now apply in_map. }
    pose proof (proj1 (NoDup_count_occ string_dec _) Hwf2 nm) as Hle.
    apply (proj1 (count_occ_In string_dec _ nm)) in Hin.
    unfold ServiceRegistry.get_registered_services in *. lia.
  - destruct Hget as (info & -> & Hurl). simpl. now rewrite Hurl.
Qed.

Lemma names_and_addresses_unique_witness :
  let g := run sample_ops (init ROUND_ROBIN) in
  one_record_per_name g
  /\ unique_addresses (load_balancer g)
  /\ map url (get_service_instances "svc" (load_balancer g)) = ["http://b:1"]
  /\ ServiceRegistry.get_registered_services (service_registry g) = ["svc"].
Proof.
  intros g.
  destruct (names_and_addresses_unique ROUND_ROBIN sample_ops eq_refl)
    as (H1 & H2 & _ & _).
  split; [exact H1|]. split; [exact H2|]. split; reflexivity.
Defined.

(** C7 (as stated) fails: adding the address [http://a:1] twice under
    ["svc"] leaves two instances with that address under the name. *)
Lemma duplicate_address_added :
  let g := run duplicate_adds (init ROUND_ROBIN) in
  map url (get_service_instances "svc" (load_balancer g))
  = ["http://a:1"; "http://a:1"]
  /\ ~ unique_addresses (load_balancer g).
Proof.
  split; [reflexivity|].
  intros H. specialize (H "svc" _ eq_refl). simpl in H.
  inversion H as [|? ? Hni _]; subst. apply Hni. now left.
Qed.

End GatewayFacts.

(* ================================================================== *)
(** * Further properties of the code *)

(* ------------------------------------------------------------------ *)
(** ** More dictionary laws *)

Module PyDictMore.
Import PyDict.

Section More.
Context {V : Type}.
Implicit Types (d : PyDict.t V) (k : string) (v : V).

Lemma set_set k v v' d : set k v (set k v' d) = set k v d.
Proof.
  induction d as [|[k0 v0] r IH]; simpl.
  - now rewrite String.eqb_refl.
  - destruct (String.eqb k k0) eqn:E; simpl; rewrite ?E.
    + now rewrite String.eqb_refl.
    + now rewrite IH.
Qed.

Lemma set_same_value k v d : get k d = Some v -> set k v d = d.
Proof.
  induction d as [|[k0 v0] r IH]; simpl; [discriminate|].
  destruct (String.eqb k k0) eqn:E.
  - apply String.eqb_eq in E. subst. now intros [= ->].
  - intros H. now rewrite IH.
Qed.

Lemma del_as_filter k d :
  del k d = filter (fun e => negb (String.eqb k (fst e))) d.
Proof.
  induction d as [|[k0 v0] r IH]; simpl; auto.
  destruct (String.eqb k k0); simpl; now rewrite IH.
Qed.

Lemma Forall_set (P : string * V -> Prop) k v d :
  P (k, v) -> Forall P d -> Forall P (set k v d).
Proof.
  intros Hp. induction 1 as [|[k0 v0] r H0 Hr IH]; simpl.
  - repeat constructor. exact Hp.
  - destruct (String.eqb k k0); constructor; auto.
Qed.

Lemma Forall_del (P : string * V -> Prop) k d :
  Forall P d -> Forall P (del k d).
Proof.
  induction 1 as [|[k0 v0] r H0 Hr IH]; simpl; auto.
  destruct (String.eqb k k0); auto.
Qed.

Lemma get_map_values (f : V -> V) k d :
  get k (map (fun e => (fst e, f (snd e))) d) = option_map f (get k d).
Proof.
  induction d as [|[k0 v0] r IH]; simpl; auto.
  destruct (String.eqb k k0); auto.
Qed.

Lemma mem_true_get k d : mem k d = true <-> get k d <> None.
Proof.
  unfold mem. destruct (get k d); split; congruence.
Qed.

Lemma wf_In_unique k v v' d :
  wf d -> In (k, v) d -> In (k, v') d -> v = v'.
Proof.
  intros Hwf H1 H2.
  apply (PyDictFacts.In_get_wf _ _ _ Hwf) in H1.
  apply (PyDictFacts.In_get_wf _ _ _ Hwf) in H2. congruence.
Qed.

Lemma get_Some_keys k v d : get k d = Some v -> In k (keys d).
Proof.
  intros H. apply PyDictFacts.get_Some_In in H.
  change k with (fst (k, v)). now apply in_map.
Qed.

Lemma keys_get k d : In k (keys d) -> exists v, get k d = Some v.
Proof.
  intros H. destruct (get k d) as [v|] eqn:G; [eauto|].
  now apply PyDictFacts.get_None_keys in G.
Qed.

Lemma set_absent k v d : get k d = None -> set k v d = d ++ [(k, v)].
Proof.
  induction d as [|[k0 v0] r IH]; simpl; auto.
  destruct (String.eqb k k0); [discriminate|].
  intros H. now rewrite IH.
Qed.

End More.

End PyDictMore.

(* ------------------------------------------------------------------ *)
(** ** Rate limiter: the auxiliary operations *)

Module RateLimiterExtra.
Import RateLimiter.

(** *** More on the eviction loop *)

Lemma evict_head window now q t0 r :
  evict window now q = t0 :: r ->
  Float.gtb (Float.sub now t0) (inject_Z window) = false.
Proof.
  induction q as [|t1 q IH]; simpl; [discriminate|].
  destruct (Float.gtb (Float.sub now t1) (inject_Z window)) eqn:E; auto.
  intros [= -> _]. exact E.
Qed.

Lemma evict_later window now now' q :
  (now <= now')%Q ->
  evict window now' (evict window now q) = evict window now' q.
Proof.
  intros Hle. induction q as [|t0 r IH]; simpl; auto.
  destruct (Float.gtb (Float.sub now t0) (inject_Z window)) eqn:E;
    [|reflexivity].
  rewrite IH.
  assert (E' : Float.gtb (Float.sub now' t0) (inject_Z window) = true).
  { apply FloatFacts.gtb_lt. apply FloatFacts.gtb_lt in E.
    pose proof (FloatFacts.sub_mono_l now now' t0 Hle). lra. }
  now rewrite E'.
Qed.

Lemma evict_keeps_new window now q :
  0 <= window ->
  evict window now (evict window now q ++ [now])
  = evict window now q ++ [now].
Proof.
  intros Hw. destruct (evict window now q) as [|t0 r] eqn:E; simpl.
  - assert (H : Float.gtb (Float.sub now now) (inject_Z window) = false).
    { apply FloatFacts.gtb_le. rewrite Zle_Qle in Hw.
      change (inject_Z 0) with 0%Q in Hw.
      rewrite FloatFacts.sub_diag. exact Hw. }
    now rewrite H.
  - now rewrite (evict_head _ _ _ _ _ E).
Qed.

Lemma is_allowed_cases now c rl :
  is_allowed now c rl = (false, rl)
  \/ exists B, is_allowed now c rl = check_window now c rl B.
Proof.
  unfold is_allowed. destruct (PyDict.get c (blocked_ips rl)) as [b|].
  - destruct (Float.ltb now b); [now left|right; eauto].
  - right; eauto.
Qed.

(** *** Remaining requests *)

(** X1. With a window that is not negative, [is_allowed] lowers what
    [get_remaining_requests] reports for the client by exactly one when it
    allows the call (and then at least one request was remaining), and
    leaves it as it is when it rejects the call. *)
Theorem allowed_call_uses_one_remaining (now : Q) (c : string) (rl : t) :
  0 <= window_size (config rl) ->
  let before := fst (get_remaining_requests now c rl) in
  let after :=
    fst (get_remaining_requests now c (snd (is_allowed now c rl))) in
  (fst (is_allowed now c rl) = true -> 1 <= before /\ after = before - 1)
  /\ (fst (is_allowed now c rl) = false -> after = before).
Proof.
  intros Hw before after. subst before after.
  unfold get_remaining_requests. cbn [fst].
  destruct (is_allowed_cases now c rl) as [E|(B & E)]; rewrite E.
  - cbn [fst snd]. split; [discriminate|reflexivity].
  - pose proof (RateLimiterFacts.check_window_cases now c rl B) as Hc.
    cbv zeta in Hc.
    destruct Hc as (Hcfg & _ & _ & _ & [(Hr & Hq & _)|(Hr & Hq & Hlt & _)]);
      rewrite Hr, Hq, Hcfg.
    + split; [discriminate|]. intros _.
      now rewrite RateLimiterFacts.evict_idempotent.
    + split; [|discriminate]. intros _.
      rewrite evict_keeps_new by assumption.
      rewrite length_app. simpl. lia.
Qed.

Lemma allowed_call_uses_one_remaining_witness :
  let rl := snd (calls "x" [0; 1; 2]%Q (init 5)) in
  fst (is_allowed 3 "x" rl) = true
  /\ fst (get_remaining_requests 3 "x" rl) = 2
  /\ fst (get_remaining_requests 3 "x" (snd (is_allowed 3 "x" rl))) = 2 - 1.
Proof.
  intros rl.
  destruct (allowed_call_uses_one_remaining 3%Q "x" rl) as (H & _).
  - cbn [window_size config]. vm_compute. discriminate.
  - split; [reflexivity|]. split; [reflexivity|].
    exact (proj2 (H eq_refl)).
Defined.

(** Two limiters that differ, for client [c], at most by an eviction made
    at an earlier time decide alike. *)
Lemma check_window_evicted now now' c rl1 rl2 B :
  (now <= now')%Q ->
  config rl1 = config rl2 ->
  block_duration rl1 = block_duration rl2 ->
  (history c rl1 = history c rl2
   \/ history c rl1 = evict (window_size (config rl2)) now (history c rl2)) ->
  fst (check_window now' c rl1 B) = fst (check_window now' c rl2 B)
  /\ history c (snd (check_window now' c rl1 B))
     = history c (snd (check_window now' c rl2 B))
  /\ blocked_ips (snd (check_window now' c rl1 B))
     = blocked_ips (snd (check_window now' c rl2 B)).
Proof.
  intros Hle Hcfg Hd Hh.
  assert (He : evict (window_size (config rl1)) now' (history c rl1)
               = evict (window_size (config rl2)) now' (history c rl2)).
  { rewrite Hcfg. destruct Hh as [->| ->]; [reflexivity|].
    now apply evict_later. }
  unfold check_window. rewrite He, Hcfg, Hd.
  destruct (_ >=? requests_per_minute (config rl2));
    [|destruct (_ >=? burst_limit (config rl2))];
    cbn [fst snd blocked_ips]; repeat split;
    now rewrite !RateLimiterFacts.history_set_same.
Qed.

Lemma calls_evicted now c ts : forall rl1 rl2,
  Forall (fun u => (now <= u)%Q) ts ->
  config rl1 = config rl2 ->
  block_duration rl1 = block_duration rl2 ->
  blocked_ips rl1 = blocked_ips rl2 ->
  (history c rl1 = history c rl2
   \/ history c rl1 = evict (window_size (config rl2)) now (history c rl2)) ->
  fst (calls c ts rl1) = fst (calls c ts rl2).
Proof.
  induction ts as [|u ts IH]; intros rl1 rl2 Hts Hcfg Hd HB Hh; [reflexivity|].
  inversion Hts as [|? ? Hu Hts']; subst.
  simpl.
  assert (Hstep :
    fst (is_allowed u c rl1) = fst (is_allowed u c rl2)
    /\ config (snd (is_allowed u c rl1)) = config (snd (is_allowed u c rl2))
    /\ block_duration (snd (is_allowed u c rl1))
       = block_duration (snd (is_allowed u c rl2))
    /\ blocked_ips (snd (is_allowed u c rl1))
       = blocked_ips (snd (is_allowed u c rl2))
    /\ (history c (snd (is_allowed u c rl1))
        = history c (snd (is_allowed u c rl2))
        \/ history c (snd (is_allowed u c rl1))
           = evict (window_size (config (snd (is_allowed u c rl2)))) now
                   (history c (snd (is_allowed u c rl2))))).
  { unfold is_allowed. rewrite HB.
    assert (Hcw : forall B,
      fst (check_window u c rl1 B) = fst (check_window u c rl2 B)
      /\ config (snd (check_window u c rl1 B))
         = config (snd (check_window u c rl2 B))
      /\ block_duration (snd (check_window u c rl1 B))
         = block_duration (snd (check_window u c rl2 B))
      /\ blocked_ips (snd (check_window u c rl1 B))
         = blocked_ips (snd (check_window u c rl2 B))
      /\ (history c (snd (check_window u c rl1 B))
          = history c (snd (check_window u c rl2 B))
          \/ history c (snd (check_window u c rl1 B))
             = evict (window_size (config (snd (check_window u c rl2 B))))
                     now (history c (snd (check_window u c rl2 B))))).
    { intros B.
      destruct (check_window_evicted now u c rl1 rl2 B Hu Hcfg Hd Hh)
        as (H1 & H2 & H3).
      pose proof (RateLimiterFacts.check_window_cases u c rl1 B) as C1.
      pose proof (RateLimiterFacts.check_window_cases u c rl2 B) as C2.
      cbv zeta in C1, C2.
      destruct C1 as (K1 & D1 & _). destruct C2 as (K2 & D2 & _).
      repeat split; auto; congruence. }
    destruct (PyDict.get c (blocked_ips rl2)) as [b|]; [|apply Hcw].
    destruct (Float.ltb u b); [|apply Hcw].
    cbn [fst snd]. rewrite Hcfg. auto. }
  destruct Hstep as (S1 & S2 & S3 & S4 & S5).
  destruct (is_allowed u c rl1) as [r1 rl1'], (is_allowed u c rl2) as [r2 rl2'].
  cbn [fst snd] in *. subst r2.
  specialize (IH rl1' rl2' Hts' S2 S3 S4 S5).
  destruct (calls c ts rl1') as [rs1 ?], (calls c ts rl2') as [rs2 ?].
  cbn [fst] in *. now subst.
Qed.

(** X2. Asking for the remaining requests of a client at some time never
    changes what [is_allowed] answers that client afterwards: for calls
    made at that time or later, the answers are the ones the limiter would
    have given without the question. *)
Theorem remaining_query_changes_no_answer (now : Q) (c : string)
    (ts : list Q) (rl : t) :
  Forall (fun u => (now <= u)%Q) ts ->
  fst (calls c ts (snd (get_remaining_requests now c rl)))
  = fst (calls c ts rl).
Proof.
  intros Hts. apply (calls_evicted now c ts); auto.
  right. unfold get_remaining_requests. cbn [snd config].
  apply RateLimiterFacts.history_set_same.
Qed.

Lemma remaining_query_changes_no_answer_witness :
  let rl := snd (calls "x" [0; 1; 2; 3]%Q (init 5)) in
  fst (calls "x" [62; 62; 63]%Q (snd (get_remaining_requests (123 # 2) "x" rl)))
  = fst (calls "x" [62; 62; 63]%Q rl).
Proof.
  intros rl.
  apply (remaining_query_changes_no_answer (123 # 2)%Q "x" [62; 62; 63]%Q rl).
  repeat constructor; vm_compute; discriminate.
Defined.

(** *** Reset time *)


(** The reset time of a client whose oldest request was made at the
    double nearest to 0.1, under the default window of 60 seconds: a
    check at 60 evicts nothing. *)
Example reset_time_before_threshold :
  let rl := {| config := config (init 5);
               requests := [("x", [Float.round (1 # 10)])];
               blocked_ips := [];
               block_duration := 300 |} in
  exists r,
    fst (get_reset_time "x" rl) = Some r
    /\ Float.representable 60
    /\ Float.representable (inject_Z (window_size (config rl)))
    /\ (60 < r)%Q
    /\ evict (window_size (config rl)) 60 (history "x" rl) = history "x" rl.
Proof.
  intros rl. eexists. split; [reflexivity|].
  split; [reflexivity|]. split; [reflexivity|]. split; reflexivity.
Qed.

(** *** Blocks: checking and lifting *)

(** X4. [is_blocked] is a transparent pre-check of [is_allowed]: calling
    [is_allowed] after [is_blocked] gives exactly what [is_allowed] alone
    gives, and when [is_blocked] answers "blocked" the call is rejected and
    neither method changes the limiter. *)
Theorem is_blocked_agrees_with_is_allowed (now : Q) (c : string) (rl : t) :
  is_allowed now c (snd (is_blocked now c rl)) = is_allowed now c rl
  /\ (fst (is_blocked now c rl) = true ->
      is_allowed now c rl = (false, rl) /\ snd (is_blocked now c rl) = rl).
Proof.
  unfold is_blocked, is_allowed.
  destruct (PyDict.get c (blocked_ips rl)) as [b|] eqn:G.
  - unfold Float.geb, Float.ltb.
    destruct (Qle_bool b now) eqn:E; cbn [fst snd negb blocked_ips].
    + rewrite PyDictFacts.get_del_same. split; [reflexivity|discriminate].
    + rewrite G. unfold Float.ltb. rewrite E. cbn [negb]. auto.
  - cbn [fst snd]. rewrite G. split; [reflexivity|discriminate].
Qed.

(** X5. Readmitting a blocked client takes both [unblock_ip] and
    [clear_ip_history].  After [unblock_ip] alone, a client whose window
    still holds [requests_per_minute] requests is rejected by the next
    call and blocked again for [block_duration]; after [clear_ip_history]
    alone, a client whose block has not expired is still rejected; after
    both, with limits of at least one, the next call is allowed. *)
Theorem readmission_needs_unblock_and_clear (now : Q) (c : string) (rl : t)
    (b : Q) :
  PyDict.get c (blocked_ips rl) = Some b ->
  let unblocked := snd (unblock_ip c rl) in
  let cleared := snd (clear_ip_history c rl) in
  let both := snd (clear_ip_history c unblocked) in
  (requests_per_minute (config rl)
   <= Z.of_nat (length (evict (window_size (config rl)) now (history c rl))) ->
   fst (is_allowed now c unblocked) = false
   /\ PyDict.get c (blocked_ips (snd (is_allowed now c unblocked)))
      = Some (Float.add now (Float.of_int (block_duration rl))))
  /\ ((now < b)%Q -> is_allowed now c cleared = (false, cleared))
  /\ (1 <= requests_per_minute (config rl) -> 1 <= burst_limit (config rl) ->
      fst (is_allowed now c both) = true
      /\ history c (snd (is_allowed now c both)) = [now]).
Proof.
  intros G unblocked cleared both.
  assert (Hub : unblocked = {| config := config rl; requests := requests rl;
                               blocked_ips := PyDict.del c (blocked_ips rl);
                               block_duration := block_duration rl |}).
  { unfold unblocked, unblock_ip. now rewrite G. }
  assert (Hclear : forall rl0,
            config (snd (clear_ip_history c rl0)) = config rl0
            /\ block_duration (snd (clear_ip_history c rl0))
               = block_duration rl0
            /\ blocked_ips (snd (clear_ip_history c rl0)) = blocked_ips rl0
            /\ history c (snd (clear_ip_history c rl0)) = []).
  { intros rl0. unfold clear_ip_history, PyDict.mem, history.
    destruct (PyDict.get c (requests rl0)) eqn:E; cbn [snd requests].
    - now rewrite PyDictFacts.get_del_same.
    - now rewrite E. }
  split; [|split].
  - intros Hfull.
    assert (E : is_allowed now c unblocked
                = check_window now c unblocked (blocked_ips unblocked)).
    { unfold is_allowed. rewrite Hub. cbn [blocked_ips].
      now rewrite PyDictFacts.get_del_same. }
    rewrite E.
    pose proof (RateLimiterFacts.check_window_cases now c unblocked
                  (blocked_ips unblocked)) as Hc.
    cbv zeta in Hc.
    assert (Hh : history c unblocked = history c rl) by now rewrite Hub.
    assert (Hcf : config unblocked = config rl) by now rewrite Hub.
    assert (Hd : block_duration unblocked = block_duration rl)
      by now rewrite Hub.
    rewrite Hh, Hcf, Hd in Hc.
    destruct Hc as (_ & _ & _ & _ & [(Hr & _ & Hcase)|(_ & _ & Hlt & _)]);
      [|lia].
    destruct Hcase as [(_ & HB)|(Hlt & _)]; [|lia].
    split; [exact Hr|]. rewrite HB. apply PyDictFacts.get_set_same.
  - intros Hlt. apply (RateLimiterFacts.is_allowed_blocked now c cleared b).
    + destruct (Hclear rl) as (_ & _ & HB & _). fold cleared in HB.
      now rewrite HB.
    + exact Hlt.
  - intros Hrpm Hburst.
    destruct (Hclear unblocked) as (Hcf & Hd & HB & Hh).
    fold both in Hcf, Hd, HB, Hh.
    assert (Gb : PyDict.get c (blocked_ips both) = None).
    { rewrite HB, Hub. cbn [blocked_ips]. apply PyDictFacts.get_del_same. }
    unfold is_allowed. rewrite Gb.
    rewrite RateLimiterFacts.check_window_accept.
    + cbn [fst snd]. rewrite Hh. split; [reflexivity|].
      apply RateLimiterFacts.history_set_same.
    + rewrite Hh. intros t0 [].
    + rewrite Hh, Hcf, Hub. cbn [length config]. lia.
    + rewrite Hh, Hcf, Hub. cbn [length config]. lia.
Qed.

Lemma readmission_needs_unblock_and_clear_witness :
  let rl := snd (calls "x" [0; 1; 2; 3; 4; 5]%Q (init 5)) in
  let unblocked := snd (unblock_ip "x" rl) in
  let cleared := snd (clear_ip_history "x" rl) in
  let both := snd (clear_ip_history "x" unblocked) in
  PyDict.get "x" (blocked_ips rl) = Some (Float.add 5 (Float.of_int 300))
  /\ fst (is_allowed 6 "x" unblocked) = false
  /\ is_allowed 6 "x" cleared = (false, cleared)
  /\ fst (is_allowed 6 "x" both) = true.
Proof.
  intros rl unblocked cleared both.
  destruct (readmission_needs_unblock_and_clear 6%Q "x" rl
              (Float.add 5 (Float.of_int 300)) eq_refl) as (H1 & H2 & H3).
  split; [reflexivity|]. split; [|split].
  - apply H1. vm_compute. discriminate.
  - apply H2. reflexivity.
  - apply H3; vm_compute; discriminate.
Defined.

(** *** The first call of a client *)

(** X6. After [reset_all], whatever the limiter held, the first call of
    any client is allowed exactly when both [requests_per_minute] and
    [burst_limit] are positive; with a per-minute limit of zero or less the
    call is rejected and the client is blocked for [block_duration]. *)
Theorem first_call_after_reset (now : Q) (c : string) (rl : t) :
  (fst (is_allowed now c (reset_all rl)) = true
   <-> 0 < requests_per_minute (config rl) /\ 0 < burst_limit (config rl))
  /\ (requests_per_minute (config rl) <= 0 ->
      PyDict.get c (blocked_ips (snd (is_allowed now c (reset_all rl))))
      = Some (Float.add now (Float.of_int (block_duration rl)))).
Proof.
  unfold is_allowed, reset_all, check_window, history, recent_requests.
  cbn [blocked_ips requests config block_duration PyDict.get PyDict.empty
       evict length filter Z.of_nat].
  destruct (Z.geb_spec 0 (requests_per_minute (config rl))) as [H1|H1];
    [|destruct (Z.geb_spec 0 (burst_limit (config rl))) as [H2|H2]];
    cbn [fst snd blocked_ips].
  - split; [split; [discriminate|lia]|].
    intros _. apply PyDictFacts.get_set_same.
  - split; [split; [discriminate|lia]|lia].
  - split; [split; [intros _; lia|reflexivity]|lia].
Qed.

(** *** Cleanup, block by block and client by client *)

Lemma filter_filter {A : Type} (f g : A -> bool) (l : list A) :
  filter f (filter g l) = filter (fun x => g x && f x) l.
Proof.
  induction l as [|x r IH]; simpl; auto.
  destruct (g x); simpl; [destruct (f x)|]; now rewrite IH.
Qed.

Lemma delete_all_as_filter ks : forall B : PyDict.t Q,
  delete_all ks B
  = filter (fun e => negb (existsb (fun k => String.eqb k (fst e)) ks)) B.
Proof.
  unfold delete_all. induction ks as [|k ks IH]; intros B; simpl.
  - symmetry. apply forallb_filter_id. now apply forallb_forall.
  - rewrite IH, PyDictMore.del_as_filter, filter_filter.
    apply filter_ext. intros e. now rewrite negb_orb.
Qed.

Lemma wf_delete_all ks (B : PyDict.t Q) :
  PyDict.wf B -> PyDict.wf (delete_all ks B).
Proof.
  unfold delete_all. revert B.
  induction ks as [|k ks IH]; intros B H; simpl; auto.
  apply IH. now apply PyDictFacts.wf_del.
Qed.

(** X7. [cleanup_expired_entries] leaves in [blocked_ips] exactly the
    entries whose block-until time is still in the future, in their order:
    no expired block survives and no running block is lifted. *)
Theorem cleanup_keeps_running_blocks (now : Q) (rl : t) :
  PyDict.wf (blocked_ips rl) ->
  blocked_ips (cleanup_expired_entries now rl)
  = filter (fun e => Float.ltb now (snd e)) (blocked_ips rl).
Proof.
  intros Hwf. unfold cleanup_expired_entries. cbn [blocked_ips].
  rewrite delete_all_as_filter. apply filter_ext_in. intros [k b] Hin.
  cbn [fst snd]. unfold Float.ltb. f_equal.
  destruct (Qle_bool b now) eqn:E.
  - apply existsb_exists. exists k. split; [|apply String.eqb_refl].
    unfold expired_blocks. change k with (fst (k, b)). apply in_map.
    apply filter_In. split; [exact Hin|exact E].
  - destruct (existsb _ _) eqn:Ex; [|reflexivity].
    apply existsb_exists in Ex as (k' & Hk' & Heq).
    apply String.eqb_eq in Heq. subst k'.
    unfold expired_blocks in Hk'.
    apply in_map_iff in Hk' as ([k' b'] & Hfst & Hf).
    cbn [fst] in Hfst. subst k'.
    apply filter_In in Hf as (Hin' & Hexp). cbn [snd] in Hexp.
    rewrite (PyDictMore.wf_In_unique k b b' _ Hwf Hin Hin') in E.
    unfold Float.geb in Hexp. congruence.
Qed.

Lemma cleanup_keeps_running_blocks_witness :
  let rl := {| config := config (init 5);
               requests := [];
               blocked_ips := [("a", 100%Q); ("b", 400%Q); ("c", 250%Q)];
               block_duration := 300 |} in
  blocked_ips (cleanup_expired_entries 250 rl) = [("b", 400%Q)].
Proof.
  intros rl.
  rewrite (cleanup_keeps_running_blocks 250%Q rl).
  - reflexivity.
  - repeat constructor; cbn [In]; intuition discriminate.
Defined.

Lemma cleanup_requests_shape window now items :
  (Forall (fun e => evict window now (snd e) <> []) items
   /\ cleanup_requests window now items
      = (map (fun e => (fst e, evict window now (snd e))) items, false))
  \/ (exists pre ip q post,
        items = pre ++ (ip, q) :: post
        /\ Forall (fun e => evict window now (snd e) <> []) pre
        /\ evict window now q = []
        /\ cleanup_requests window now items
           = (map (fun e => (fst e, evict window now (snd e))) pre ++ post,
              true)).
Proof.
  induction items as [|[ip q] rest IH]; simpl.
  - left. split; [constructor|reflexivity].
  - destruct (evict window now q) as [|t0 q'] eqn:E.
    + right. exists [], ip, q, rest.
      split; [reflexivity|]. split; [constructor|].
      split; [exact E|reflexivity].
    + destruct IH as [(Hall & Hc)|(pre & ip' & q1 & post & -> & Hall & Hq & Hc)];
        rewrite Hc.
      * left. split; [|reflexivity]. constructor; auto.
        cbn [snd]. rewrite E. discriminate.
      * right. exists ((ip, q) :: pre), ip', q1, post.
        split; [reflexivity|]. split; [|split; [exact Hq|]].
        -- constructor; auto. cbn [snd]. rewrite E. discriminate.
        -- cbn [map fst snd app]. now rewrite E.
Qed.

(** X8. One call of [cleanup_expired_entries] removes at most one client
    from [requests]: if no history is emptied by eviction, every client is
    kept with its history evicted; otherwise the clients before the first
    such history are kept with their histories evicted, that one client is
    removed, and every client after it is left exactly as it was. *)
Theorem cleanup_removes_first_stale_client (now : Q) (rl : t) :
  let window := window_size (config rl) in
  let after := requests (cleanup_expired_entries now rl) in
  (Forall (fun e => evict window now (snd e) <> []) (requests rl)
   /\ after = map (fun e => (fst e, evict window now (snd e))) (requests rl))
  \/ (exists pre ip q post,
        requests rl = pre ++ (ip, q) :: post
        /\ Forall (fun e => evict window now (snd e) <> []) pre
        /\ evict window now q = []
        /\ after
           = map (fun e => (fst e, evict window now (snd e))) pre ++ post).
Proof.
  intros window after. subst after.
  unfold cleanup_expired_entries. cbn [requests]. fold window.
  destruct (cleanup_requests_shape window now (requests rl))
    as [(Hall & Hc)|(pre & ip & q & post & Hreq & Hall & Hq & Hc)];
    rewrite Hc; [left|right]; auto.
  exists pre, ip, q, post. auto.
Qed.

(** *** Statistics *)

Lemma count_requests_spec window now items :
  let ev := map (fun e => (fst e, evict window now (snd e))) items in
  count_requests window now items
  = (Z.of_nat (length (filter (fun e => match snd e with
                                        | [] => false
                                        | _ => true
                                        end) ev)),
     Z.of_nat (list_sum (map (fun e => length (snd e)) ev)),
     ev).
Proof.
  induction items as [|[ip q] rest IH]; [reflexivity|].
  cbn [count_requests map fst snd]. cbv zeta in IH. rewrite IH.
  destruct (evict window now q) as [|t0 q'];
    cbn [filter snd map length]; [reflexivity|].
  f_equal. f_equal; [lia|].
  change (list_sum (?x :: ?l)) with (x + list_sum l)%nat. lia.
Qed.

Lemma active_le_total (ev : PyDict.t (list Q)) :
  (length (filter (fun e => match snd e with [] => false | _ => true end) ev)
   <= list_sum (map (fun e => length (snd e)) ev))%nat.
Proof.
  induction ev as [|[ip q] r IH]; simpl; auto.
  destruct q; simpl; lia.
Qed.

(** X9. [get_stats] evicts every history in place and deletes nothing;
    [active_ips] is the number of clients left with a non-empty history,
    [total_requests] the number of requests left in all histories, so
    [active_ips <= total_requests]; and [blocked_ips] in the result counts
    the running blocks, which is the number of blocks a cleanup at that
    time would keep, while the block map itself is left as it is. *)
Theorem stats_count_what_is_live (now : Q) (rl : t) :
  PyDict.wf (blocked_ips rl) ->
  let s := fst (get_stats now rl) in
  let rl' := snd (get_stats now rl) in
  requests rl'
  = map (fun e => (fst e, evict (window_size (config rl)) now (snd e)))
        (requests rl)
  /\ blocked_ips rl' = blocked_ips rl
  /\ active_ips s
     = Z.of_nat (length (filter (fun e => match snd e with
                                          | [] => false
                                          | _ => true
                                          end) (requests rl')))
  /\ total_requests s
     = Z.of_nat (list_sum (map (fun e => length (snd e)) (requests rl')))
  /\ active_ips s <= total_requests s
  /\ blocked_count s
     = Z.of_nat (length (blocked_ips (cleanup_expired_entries now rl))).
Proof.
  intros Hwf s rl'. subst s rl'. unfold get_stats.
  rewrite count_requests_spec. cbn [fst snd requests blocked_ips active_ips
    total_requests blocked_count].
  repeat split.
  - apply inj_le. apply active_le_total.
  - unfold count_blocked. now rewrite cleanup_keeps_running_blocks.
Qed.

Lemma stats_count_what_is_live_witness :
  let rl := {| config := config (init 5);
               requests := [("a", [0; 50]%Q); ("b", [1]%Q); ("c", [70; 80]%Q)];
               blocked_ips := [("b", 90%Q); ("d", 400%Q)];
               block_duration := 300 |} in
  let s := fst (get_stats 100 rl) in
  active_ips s = 2 /\ total_requests s = 3 /\ blocked_count s = 1
  /\ active_ips s <= total_requests s
  /\ blocked_count s
     = Z.of_nat (length (blocked_ips (cleanup_expired_entries 100 rl))).
Proof.
  intros rl s.
  destruct (stats_count_what_is_live 100%Q rl) as (_ & _ & _ & _ & H1 & H2).
  - repeat constructor; cbn [In]; intuition discriminate.
  - split; [reflexivity|]. split; [reflexivity|]. split; [reflexivity|].
    split; [exact H1|exact H2].
Defined.

(** *** Invariants of a limiter with a fixed configuration *)

Lemma history_Forall (P : list Q -> Prop) c rl :
  P [] -> Forall (fun e => P (snd e)) (requests rl) -> P (history c rl).
Proof.
  intros Hnil Hall. unfold history.
  destruct (PyDict.get c (requests rl)) as [q|] eqn:G; auto.
  apply PyDictFacts.get_Some_In in G.
  apply (proj1 (Forall_forall _ _) Hall _ G).
Qed.

Lemma evict_closed (P : list Q -> Prop) window now q :
  (forall q k, P q -> P (skipn k q)) -> P q -> P (evict window now q).
Proof.
  intros Hskip Hq.
  destruct (RateLimiterFacts.evict_spec window now q) as (k & -> & _). auto.
Qed.

Lemma keys_map_values {V : Type} (f : V -> V) (d : PyDict.t V) :
  PyDict.keys (map (fun e => (fst e, f (snd e))) d) = PyDict.keys d.
Proof.
  unfold PyDict.keys. rewrite map_map. now apply map_ext.
Qed.

(** What one operation does to the histories: it shortens them from the
    front, drops them, or (an allowed call) extends one that is under the
    limit by the time of the call. *)
Lemma step_histories (P : list Q -> Prop) rl o :
  P [] ->
  (forall q k, P q -> P (skipn k q)) ->
  (forall now c q, o = IsAllowed now c -> P q ->
     Z.of_nat (length q) < requests_per_minute (config rl) ->
     P (q ++ [now])) ->
  Forall (fun e => P (snd e)) (requests rl) ->
  Forall (fun e => P (snd e)) (requests (step rl o)).
Proof.
  intros Hnil Hskip Happ Hall.
  assert (Hh : forall c, P (history c rl)) by (intros; now apply history_Forall).
  assert (He : forall now c,
            P (evict (window_size (config rl)) now (history c rl)))
    by (intros; now apply evict_closed).
  destruct o as [now c|now c|c|now c|c|c|now|now|]; cbn [step].
  - (* is_allowed *)
    assert (Hcw : forall B,
              Forall (fun e => P (snd e))
                     (requests (snd (check_window now c rl B)))).
    { intros B. unfold check_window.
      destruct (Z.geb_spec
                  (Z.of_nat (length (evict (window_size (config rl)) now
                                           (history c rl))))
                  (requests_per_minute (config rl)));
        [|destruct (_ >=? burst_limit (config rl))];
        cbn [snd requests]; apply PyDictMore.Forall_set; auto;
        cbn [snd]; try apply He.
      apply (Happ now c); auto. }
    unfold is_allowed. destruct (PyDict.get c (blocked_ips rl)) as [b|]; auto.
    destruct (Float.ltb now b); auto.
  - cbn [get_remaining_requests snd requests].
    apply PyDictMore.Forall_set; auto. apply He.
  - unfold get_reset_time.
    destruct (PyDict.get c (blocked_ips rl)); [exact Hall|].
    destruct (history c rl) eqn:E; cbn [snd requests];
      apply PyDictMore.Forall_set; auto; cbn [snd]; rewrite <- E; apply Hh.
  - unfold is_blocked. destruct (PyDict.get c (blocked_ips rl)); auto.
    destruct (Float.geb now q); auto.
  - unfold unblock_ip. destruct (PyDict.get c (blocked_ips rl)); auto.
  - unfold clear_ip_history. destruct (PyDict.mem c (requests rl)); auto.
    cbn [snd requests]. now apply PyDictMore.Forall_del.
  - unfold get_stats. rewrite count_requests_spec. cbn [snd requests].
    apply Forall_map. cbn [snd].
    apply (Forall_impl _ (P := fun e => P (snd e))); auto.
    intros e He'. now apply evict_closed.
  - unfold cleanup_expired_entries. cbn [requests].
    assert (Hm : forall l, Forall (fun e => P (snd e)) l ->
              Forall (fun e : string * list Q => P (snd e))
                     (map (fun e => (fst e, evict (window_size (config rl))
                                                  now (snd e))) l)).
    { intros l Hl. apply Forall_map. cbn [snd].
      apply (Forall_impl _ (P := fun e => P (snd e))); auto.
      intros e He'. now apply evict_closed. }
    destruct (cleanup_requests_shape (window_size (config rl)) now
                (requests rl))
      as [(_ & Hc)|(pre & ip & q & post & Hreq & _ & _ & Hc)];
      rewrite Hc; cbn [fst]; auto.
    rewrite Hreq in Hall. apply Forall_app in Hall as (Hpre & Hpost).
    inversion Hpost; subst. apply Forall_app. auto.
  - constructor.
Qed.

Lemma step_frame rl o :
  config (step rl o) = config rl
  /\ block_duration (step rl o) = block_duration rl
  /\ (PyDict.wf (requests rl) -> PyDict.wf (requests (step rl o)))
  /\ (PyDict.wf (blocked_ips rl) -> PyDict.wf (blocked_ips (step rl o))).
Proof.
  destruct o as [now c|now c|c|now c|c|c|now|now|]; cbn [step].
  - assert (Hcw : forall B, (PyDict.wf (blocked_ips rl) -> PyDict.wf B) ->
      config (snd (check_window now c rl B)) = config rl
      /\ block_duration (snd (check_window now c rl B)) = block_duration rl
      /\ (PyDict.wf (requests rl) ->
          PyDict.wf (requests (snd (check_window now c rl B))))
      /\ (PyDict.wf (blocked_ips rl) ->
          PyDict.wf (blocked_ips (snd (check_window now c rl B))))).
    { intros B HB. unfold check_window.
      destruct (_ >=? requests_per_minute (config rl));
        [|destruct (_ >=? burst_limit (config rl))];
        cbn [snd config block_duration requests blocked_ips];
        repeat split; auto using PyDictFacts.wf_set. }
    unfold is_allowed.
    destruct (PyDict.get c (blocked_ips rl)) as [b|] eqn:G.
    + destruct (Float.ltb now b); [now repeat split|].
      apply Hcw. apply PyDictFacts.wf_del.
    + now apply Hcw.
  - cbn [get_remaining_requests snd config block_duration requests
         blocked_ips].
    repeat split; auto using PyDictFacts.wf_set.
  - unfold get_reset_time.
    destruct (PyDict.get c (blocked_ips rl)); [now repeat split|].
    destruct (history c rl);
      cbn [snd config block_duration requests blocked_ips];
      repeat split; auto using PyDictFacts.wf_set.
  - unfold is_blocked. destruct (PyDict.get c (blocked_ips rl));
      [|now repeat split].
    destruct (Float.geb now q); [|now repeat split].
    cbn [snd config block_duration requests blocked_ips].
    repeat split; auto using PyDictFacts.wf_del.
  - unfold unblock_ip. destruct (PyDict.get c (blocked_ips rl));
      [|now repeat split].
    cbn [snd config block_duration requests blocked_ips].
    repeat split; auto using PyDictFacts.wf_del.
  - unfold clear_ip_history. destruct (PyDict.mem c (requests rl));
      [|now repeat split].
    cbn [snd config block_duration requests blocked_ips].
    repeat split; auto using PyDictFacts.wf_del.
  - unfold get_stats. rewrite count_requests_spec.
    cbn [snd config block_duration requests blocked_ips].
    repeat split; auto. unfold PyDict.wf. now rewrite keys_map_values.
  - unfold cleanup_expired_entries.
    cbn [config block_duration requests blocked_ips].
    split; [reflexivity|]. split; [reflexivity|].
    split; [|apply wf_delete_all].
    intros Hwf.
    destruct (cleanup_requests_shape (window_size (config rl)) now
                (requests rl))
      as [(_ & Hc)|(pre & ip & q & post & Hreq & _ & _ & Hc)];
      rewrite Hc; cbn [fst].
    + unfold PyDict.wf. now rewrite keys_map_values.
    + unfold PyDict.wf, PyDict.keys in *. rewrite Hreq in Hwf.
      rewrite map_app in *. cbn [map] in Hwf.
      apply NoDup_remove_1 in Hwf.
      change (map fst (map (fun e : string * list Q =>
                (fst e, evict (window_size (config rl)) now (snd e))) pre))
        with (PyDict.keys (map (fun e : string * list Q =>
                (fst e, evict (window_size (config rl)) now (snd e))) pre)).
      now rewrite keys_map_values.
  - cbn [reset_all config block_duration requests blocked_ips].
    repeat split; constructor.
Qed.

(** X10. Whatever operations are applied to a limiter built with
    [RateLimiter(rpm)] (the configuration being left alone), its two
    dictionaries keep one entry per client, the configuration and the block
    duration stay those of the constructor, and no client's history ever
    holds more than [requests_per_minute] entries. *)
Theorem histories_stay_bounded (rpm : Z) (ops : list op) (c : string) :
  let rl := run ops (init rpm) in
  PyDict.wf (requests rl)
  /\ PyDict.wf (blocked_ips rl)
  /\ config rl = config (init rpm)
  /\ block_duration rl = 300
  /\ Z.of_nat (length (history c rl)) <= Z.max 0 rpm.
Proof.
  intros rl. subst rl.
  set (P := fun q : list Q => Z.of_nat (length q) <= Z.max 0 rpm).
  assert (Hinv : forall ops rl0,
    PyDict.wf (requests rl0) -> PyDict.wf (blocked_ips rl0) ->
    config rl0 = config (init rpm) -> block_duration rl0 = 300 ->
    Forall (fun e => P (snd e)) (requests rl0) ->
    PyDict.wf (requests (run ops rl0))
    /\ PyDict.wf (blocked_ips (run ops rl0))
    /\ config (run ops rl0) = config (init rpm)
    /\ block_duration (run ops rl0) = 300
    /\ Forall (fun e => P (snd e)) (requests (run ops rl0))).
  { clear ops. unfold run.
    induction ops as [|o ops IH]; intros rl0 H1 H2 H3 H4 H5;
      [now repeat split|].
    cbn [fold_left].
    destruct (step_frame rl0 o) as (F1 & F2 & F3 & F4).
    apply IH; auto; try congruence.
    apply step_histories; auto.
    - unfold P. cbn [length]. lia.
    - unfold P. intros q k Hq. pose proof (length_skipn k q). lia.
    - unfold P. intros now c0 q _ _ Hlt. rewrite H3 in Hlt.
      cbn [requests_per_minute config init] in Hlt.
      rewrite length_app. cbn [length]. lia. }
  destruct (Hinv ops (init rpm) ltac:(constructor) ltac:(constructor)
              eq_refl eq_refl ltac:(constructor))
    as (I1 & I2 & I3 & I4 & I5).
  split; [exact I1|]. split; [exact I2|]. split; [exact I3|].
  split; [exact I4|].
  apply (history_Forall P); auto. unfold P. cbn [length]. lia.
Qed.

(** *** Histories under a clock that does not run backwards *)

Lemma StronglySorted_skipn (q : list Q) : forall k,
  StronglySorted Qle q -> StronglySorted Qle (skipn k q).
Proof.
  induction q as [|t0 r IH]; intros [|k] H; simpl; auto.
  apply IH. now inversion H.
Qed.

Lemma StronglySorted_snoc (q : list Q) (x : Q) :
  StronglySorted Qle q -> Forall (fun t0 => (t0 <= x)%Q) q ->
  StronglySorted Qle (q ++ [x]).
Proof.
  induction 1 as [|t0 r Hr IH Ht0]; intros Hall; simpl.
  - repeat constructor.
  - inversion Hall as [|? ? Hx Hall']; subst. constructor; auto.
    apply Forall_app. split; auto.
Qed.

(** On a history in time order the eviction loop leaves exactly the
    requests that are at most a window old. *)
Lemma evict_sorted window now q :
  StronglySorted Qle q -> evict window now q = within_window window now q.
Proof.
  unfold within_window.
  induction 1 as [|t0 r Hr IH Ht0]; simpl; auto.
  unfold Float.gtb, Float.ltb.
  destruct (Qle_bool (Float.sub now t0) (inject_Z window)) eqn:E;
    cbn [negb]; auto.
  f_equal. symmetry. apply forallb_filter_id. apply forallb_forall.
  intros t1 Ht1. apply Qle_bool_iff. apply Qle_bool_iff in E.
  pose proof (proj1 (Forall_forall _ _) Ht0 t1 Ht1) as Hle.
  pose proof (FloatFacts.sub_mono_r now t0 t1 Hle). lra.
Qed.

(** X11. Along operations whose clock readings never decrease, every
    history of a limiter built with [RateLimiter(rpm)] stays in time order;
    so at any time the eviction loop leaves exactly the requests that are
    at most [window_size] old (by the loop's own measure, the difference
    of the two clock readings as a double), and the number [is_allowed]
    compares with the limit is the number of requests made in the last
    window. *)
Theorem histories_stay_in_time_order (rpm : Z) (t0 : Q) (ops : list op)
    (c : string) (now : Q) :
  monotone_clock t0 ops ->
  let rl := run ops (init rpm) in
  StronglySorted Qle (history c rl)
  /\ evict (window_size (config rl)) now (history c rl)
     = within_window (window_size (config rl)) now (history c rl).
Proof.
  intros Hmono rl. subst rl.
  set (P := fun (T : Q) (q : list Q) =>
              StronglySorted Qle q /\ Forall (fun u => (u <= T)%Q) q).
  assert (Hweak : forall T T' q, (T <= T')%Q -> P T q -> P T' q).
  { intros T T' q Hle (Hs & Hb). split; auto.
    apply (Forall_impl _ (P := fun u => (u <= T)%Q)); auto.
    intros u Hu. lra. }
  assert (Hskip : forall T q k, P T q -> P T (skipn k q)).
  { intros T q k (Hs & Hb). split; [now apply StronglySorted_skipn|].
    apply Forall_forall. intros u Hu.
    apply (proj1 (Forall_forall _ _) Hb).
    rewrite <- (firstn_skipn k q). apply in_or_app. now right. }
  assert (Hinv : forall ops T rl0,
    monotone_clock T ops ->
    Forall (fun e => P T (snd e)) (requests rl0) ->
    exists T', Forall (fun e => P T' (snd e)) (requests (run ops rl0))).
  { clear ops Hmono. unfold run.
    induction ops as [|o ops IH]; intros T rl0 Hm Hall; [now exists T|].
    cbn [fold_left]. cbn [monotone_clock] in Hm.
    destruct (op_time o) as [u|] eqn:Eo.
    - destruct Hm as (Hle & Hm). apply (IH u); auto.
      apply step_histories.
      + split; constructor.
      + apply Hskip.
      + intros now0 c0 q -> (Hs & Hb) _. cbn [op_time] in Eo.
        injection Eo as ->. split.
        * now apply StronglySorted_snoc.
        * apply Forall_app. split; auto. repeat constructor. lra.
      + apply (Forall_impl _ (P := fun e => P T (snd e))); auto.
        intros e He. now apply (Hweak T u).
    - apply (IH T); auto. apply step_histories; auto.
      + split; constructor.
      + intros now0 c0 q ->. discriminate Eo. }
  destruct (Hinv ops t0 (init rpm) Hmono) as (T' & Hall); [constructor|].
  assert (Hs : StronglySorted Qle (history c (run ops (init rpm)))).
  { apply (history_Forall (P T')); auto. split; constructor. }
  split; [exact Hs|]. now apply evict_sorted.
Qed.

Lemma histories_stay_in_time_order_witness :
  let ops := [IsAllowed 0 "x"; IsAllowed (1 # 2) "y"; GetStats 1;
              IsAllowed 30 "x"; UnblockIp "y"; IsAllowed 61 "x";
              CleanupExpiredEntries 61] in
  let rl := run ops (init 5) in
  history "x" rl = [30; 61]%Q
  /\ StronglySorted Qle (history "x" rl)
  /\ evict (window_size (config rl)) 95 (history "x" rl)
     = within_window (window_size (config rl)) 95 (history "x" rl).
Proof.
  intros ops rl. split; [reflexivity|].
  apply (histories_stay_in_time_order 5 0%Q ops "x" 95%Q).
  cbn [monotone_clock ops op_time].
  repeat split; vm_compute; discriminate.
Defined.

End RateLimiterExtra.

(* ------------------------------------------------------------------ *)
(** ** Service registry: registration, lookup, probing, statistics *)

Module ServiceRegistryExtra.
Import Http ServiceRegistry.

(** *** Address normalisation *)

Lemma normalize_url_scheme u :
  String.prefix "http://" (normalize_url u) = true
  \/ String.prefix "https://" (normalize_url u) = true.
Proof.
  unfold normalize_url.
  destruct (String.prefix "http://" u) eqn:E1; [now left|].
  destruct (String.prefix "https://" u) eqn:E2; [now right|].
  left. simpl. now destruct u.
Qed.

(** X12. [register_service] stores an address that starts with [http://]
    or [https://]: an address that has one of the two schemes is stored as
    it is, any other gets [http://] put in front; normalising a normalised
    address changes nothing. *)
Theorem normalize_url_idempotent (u : string) :
  (String.prefix "http://" (normalize_url u) = true
   \/ String.prefix "https://" (normalize_url u) = true)
  /\ normalize_url (normalize_url u) = normalize_url u
  /\ (String.prefix "http://" u = true \/ String.prefix "https://" u = true ->
      normalize_url u = u)
  /\ (String.prefix "http://" u = false ->
      String.prefix "https://" u = false ->
      normalize_url u = ("http://" ++ u)%string).
Proof.
  split; [apply normalize_url_scheme|].
  assert (Hfix : forall v,
            String.prefix "http://" v = true
            \/ String.prefix "https://" v = true ->
            normalize_url v = v).
  { intros v [H|H]; unfold normalize_url; rewrite H; auto.
    now rewrite orb_true_r. }
  split; [apply Hfix, normalize_url_scheme|]. split; [apply Hfix|].
  intros H1 H2. unfold normalize_url. now rewrite H1, H2.
Qed.

(** *** Registration and lookup *)

(** X13. Registration always succeeds, whatever the probe answers: the
    service is then registered under its name, monitoring is running, a
    lookup of the name gives the normalised address when the probe found
    the service healthy and nothing when it did not, the record holds the
    metadata given (an empty dictionary when none was given), and lookups
    of other names are not affected. *)
Theorem register_then_lookup (nm u : string) (md : option Metadata)
    (probe : Outcome) (t_reg t_check : Z) (reg : t) :
  let reg' := snd (register_service nm u md probe t_reg t_check reg) in
  fst (register_service nm u md probe t_reg t_check reg) = true
  /\ In nm (get_registered_services reg')
  /\ is_running reg' = true
  /\ get_service_url nm reg'
     = (if _check_service_health probe then Some (normalize_url u) else None)
  /\ is_service_healthy nm reg' = _check_service_health probe
  /\ option_map metadata (PyDict.get nm (services reg'))
     = Some (match md with Some m => m | None => PyDict.empty end)
  /\ (forall nm', nm' <> nm ->
        get_service_url nm' reg' = get_service_url nm' reg
        /\ is_service_healthy nm' reg' = is_service_healthy nm' reg).
Proof.
  intros reg'. subst reg'. cbn [register_service fst snd].
  split; [reflexivity|]. split; [|split; [reflexivity|]].
  - unfold get_registered_services. cbn [services].
    eapply PyDictMore.get_Some_keys. apply PyDictFacts.get_set_same.
  - unfold get_service_url, is_service_healthy. cbn [services].
    rewrite PyDictFacts.get_set_same. cbn [is_healthy url].
    split; [reflexivity|]. split; [reflexivity|]. split; [reflexivity|].
    intros nm' Hne. now rewrite PyDictFacts.get_set_other.
Qed.

(** X14. Unregistering a name that is not registered answers [False] and
    changes nothing.  Unregistering a registered name answers [True];
    afterwards the name is not registered, a lookup of it gives nothing, a
    second unregistration answers [False], other names keep their records,
    and monitoring keeps the state it had. *)
Theorem unregister_then_lookup (nm : string) (reg : t) :
  let reg' := snd (unregister_service nm reg) in
  (PyDict.get nm (services reg) = None ->
   unregister_service nm reg = (false, reg))
  /\ (PyDict.get nm (services reg) <> None ->
      fst (unregister_service nm reg) = true)
  /\ ~ In nm (get_registered_services reg')
  /\ get_service_url nm reg' = None
  /\ is_service_healthy nm reg' = false
  /\ unregister_service nm reg' = (false, reg')
  /\ is_running reg' = is_running reg
  /\ (forall nm', nm' <> nm ->
        PyDict.get nm' (services reg') = PyDict.get nm' (services reg)).
Proof.
  intros reg'. subst reg'. unfold unregister_service, PyDict.mem.
  destruct (PyDict.get nm (services reg)) as [info|] eqn:G;
    cbn [fst snd services is_running].
  - assert (Hdel : PyDict.get nm (PyDict.del nm (services reg)) = None)
      by apply PyDictFacts.get_del_same.
    split; [discriminate|]. split; [reflexivity|].
    split; [now apply PyDictFacts.get_None_keys|].
    unfold get_service_url, is_service_healthy. cbn [services].
    rewrite Hdel. repeat split; auto.
    intros nm' Hne. now apply PyDictFacts.get_del_other.
  - split; [reflexivity|]. split; [congruence|].
    split; [now apply PyDictFacts.get_None_keys|].
    unfold get_service_url, is_service_healthy. rewrite G. repeat split; auto.
Qed.

(** *** What every record looks like *)

Lemma step_records_ok reg o :
  Forall (fun e => record_ok (fst e) (snd e)) (services reg) ->
  Forall (fun e => record_ok (fst e) (snd e)) (services (step reg o)).
Proof.
  intros Hall. destruct o as [nm u md probe t_reg t_check|nm|probe now| |];
    cbn [step].
  - cbn [register_service snd services]. apply PyDictMore.Forall_set; auto.
    unfold record_ok.
    cbn [fst snd name health_url url last_health_check response_time].
    repeat split; auto; try congruence.
    apply normalize_url_scheme.
  - unfold unregister_service. destruct (PyDict.mem nm (services reg)); auto.
    cbn [snd services]. now apply PyDictMore.Forall_del.
  - unfold probe_cycle. cbn [services]. apply Forall_map.
    apply (Forall_impl _ (P := fun e => record_ok (fst e) (snd e))); auto.
    intros [k info] (H1 & H2 & H3 & _ & _). cbn [fst snd] in *.
    destruct (probe (health_url info)) as [o elapsed]. cbn [fst snd].
    unfold record_ok, _update_service_health.
    cbn [name health_url url last_health_check response_time is_healthy].
    repeat split; auto; try congruence.
    destruct (_check_service_health o); congruence.
  - exact Hall.
  - constructor.
Qed.

(** X15. In every state the registry reaches, each record is stored under
    its own name, its health URL is its address followed by [/health], its
    address starts with [http://] or [https://], it carries the time of a
    probe, and it carries a response time only if it is healthy. *)
Theorem reachable_records_ok (reg : t) (nm : string) (info : ServiceInfo) :
  reachable reg ->
  PyDict.get nm (services reg) = Some info ->
  record_ok nm info.
Proof.
  intros (ops & ->) G.
  assert (Hall : forall ops reg0,
            Forall (fun e => record_ok (fst e) (snd e)) (services reg0) ->
            Forall (fun e => record_ok (fst e) (snd e))
                   (services (run ops reg0))).
  { clear. unfold run. induction ops as [|o ops IH]; intros reg0 H; auto.
    cbn [fold_left]. apply IH. now apply step_records_ok. }
  apply PyDictFacts.get_Some_In in G.
  apply (proj1 (Forall_forall _ _) (Hall ops init ltac:(constructor)) _ G).
Qed.

Lemma reachable_records_ok_witness :
  let reg := run [register_op "svc" registration_a; probe_op all_up;
                  register_op "db" registration_b] init in
  exists info,
    PyDict.get "svc" (services reg) = Some info
    /\ response_time info = Some (1 # 20)%Q
    /\ record_ok "svc" info.
Proof.
  intros reg. eexists. split; [reflexivity|]. split; [reflexivity|].
  apply (reachable_records_ok reg "svc").
  - eexists. reflexivity.
  - reflexivity.
Defined.

(** *** Probe rounds *)

(** X16. A round of probes neither registers nor unregisters anything:
    the registered names and their order are unchanged.  Each record keeps
    its name, address and registration time, gets the round's clock as its
    last probe time, is healthy exactly when its own probe was classified
    healthy (so health moves both ways), and carries the measured response
    time only in that case.  The healthy list after the round names exactly
    the services whose probe was classified healthy. *)
Theorem probe_cycle_updates_health (probe : string -> Outcome * Q) (now : Z)
    (reg : t) :
  let reg' := probe_cycle probe now reg in
  get_registered_services reg' = get_registered_services reg
  /\ is_running reg' = is_running reg
  /\ (forall nm info, PyDict.get nm (services reg) = Some info ->
        exists info',
          PyDict.get nm (services reg') = Some info'
          /\ name info' = name info /\ url info' = url info
          /\ registered_at info' = registered_at info
          /\ last_health_check info' = Some now
          /\ is_healthy info'
             = _check_service_health (fst (probe (health_url info)))
          /\ response_time info'
             = (if _check_service_health (fst (probe (health_url info)))
                then Some (snd (probe (health_url info))) else None))
  /\ get_healthy_services reg'
     = map fst (filter (fun e => _check_service_health
                                   (fst (probe (health_url (snd e)))))
                       (services reg)).
Proof.
  intros reg'. subst reg'. split; [|split; [reflexivity|split]].
  - unfold get_registered_services, probe_cycle, PyDict.keys. cbn [services].
    rewrite map_map. apply map_ext. intros [k v]. cbn [fst snd].
    now destruct (probe (health_url v)).
  - intros nm info G. rewrite ServiceRegistryFacts.get_probe_cycle, G.
    cbn [option_map]. eexists. split; [reflexivity|].
    cbn [_update_service_health name url registered_at last_health_check
         is_healthy response_time]. repeat split; reflexivity.
  - unfold get_healthy_services, probe_cycle. cbn [services].
    induction (services reg) as [|[k v] r IH]; [reflexivity|].
    cbn [map filter fst snd].
    destruct (probe (health_url v)) as [o elapsed]. cbn [fst snd is_healthy
      _update_service_health].
    destruct (_check_service_health o); cbn [map fst]; now rewrite IH.
Qed.

(** *** The three ways of reading health agree *)

Lemma In_healthy_list reg nm :
  PyDict.wf (services reg) ->
  (In nm (get_healthy_services reg) <-> is_service_healthy nm reg = true).
Proof.
  intros Hwf. unfold get_healthy_services, is_service_healthy. split.
  - intros H. apply in_map_iff in H as ([k info] & <- & Hf).
    apply filter_In in Hf as (Hin & Hh). cbn [fst snd] in *.
    now rewrite (PyDictFacts.In_get_wf _ _ _ Hwf Hin).
  - destruct (PyDict.get nm (services reg)) as [info|] eqn:G; [|discriminate].
    intros Hh. apply PyDictFacts.get_Some_In in G.
    change nm with (fst (nm, info)). apply in_map. apply filter_In. auto.
Qed.

Lemma In_unhealthy_list reg nm :
  PyDict.wf (services reg) ->
  (In nm (get_unhealthy_services reg)
   <-> In nm (get_registered_services reg)
       /\ is_service_healthy nm reg = false).
Proof.
  intros Hwf. unfold get_unhealthy_services, is_service_healthy. split.
  - intros H. apply in_map_iff in H as ([k info] & <- & Hf).
    apply filter_In in Hf as (Hin & Hh). cbn [fst snd] in *.
    rewrite (PyDictFacts.In_get_wf _ _ _ Hwf Hin).
    split; [|now apply negb_true_iff].
    unfold get_registered_services. change k with (fst (k, info)).
    now apply in_map.
  - intros (Hreg & Hh).
    apply PyDictMore.keys_get in Hreg as (info & G). rewrite G in Hh.
    apply PyDictFacts.get_Some_In in G.
    change nm with (fst (nm, info)). apply in_map. apply filter_In.
    split; auto. cbn [snd]. now rewrite Hh.
Qed.

(** X17. In every state the registry reaches the ways of reading a
    service's health agree: a name is in the healthy list exactly when
    [is_service_healthy] holds of it, which is exactly when a lookup gives
    an address; and it is in the unhealthy list exactly when it is
    registered and [is_service_healthy] does not hold. *)
Theorem health_reads_agree (reg : t) (nm : string) :
  reachable reg ->
  (In nm (get_healthy_services reg) <-> is_service_healthy nm reg = true)
  /\ (is_service_healthy nm reg = true <-> get_service_url nm reg <> None)
  /\ (In nm (get_unhealthy_services reg)
      <-> In nm (get_registered_services reg)
          /\ is_service_healthy nm reg = false).
Proof.
  intros Hreach. apply ServiceRegistryFacts.reachable_wf in Hreach.
  split; [now apply In_healthy_list|]. split; [|now apply In_unhealthy_list].
  unfold is_service_healthy, get_service_url.
  destruct (PyDict.get nm (services reg)) as [info|];
    [destruct (is_healthy info)|]; split; congruence.
Qed.

Lemma health_reads_agree_witness :
  let reg := run [register_op "svc" registration_a;
                  register_op "db" registration_b] init in
  (In "db" (get_unhealthy_services reg)
   <-> In "db" (get_registered_services reg)
       /\ is_service_healthy "db" reg = false)
  /\ get_unhealthy_services reg = ["db"].
Proof.
  intros reg. split; [|reflexivity].
  apply (health_reads_agree reg "db"). eexists. reflexivity.
Defined.

(** *** Statistics *)

(** X18. In [get_service_statistics] the total is the number of registered
    names, the healthy and unhealthy counts are the lengths of the healthy
    and of the unhealthy list and add up to the total, the health
    percentage lies between 0 and 100 and is 0 for an empty registry, and
    [monitoring_active] is the monitoring flag. *)
Theorem statistics_are_consistent (reg : t) :
  let s := get_service_statistics reg in
  total_services s = Z.of_nat (length (get_registered_services reg))
  /\ healthy_services s = Z.of_nat (length (get_healthy_services reg))
  /\ unhealthy_services s = Z.of_nat (length (get_unhealthy_services reg))
  /\ total_services s = healthy_services s + unhealthy_services s
  /\ (0 <= health_percentage s <= 100)%Q
  /\ (services reg = [] -> health_percentage s = 0%Q
                           /\ average_response_time s = 0%Q)
  /\ monitoring_active s = is_running reg.
Proof.
  intros s. subst s. unfold get_service_statistics.
  cbn [total_services healthy_services unhealthy_services health_percentage
       average_response_time monitoring_active].
  unfold get_registered_services, get_healthy_services,
    get_unhealthy_services, PyDict.keys. rewrite !length_map.
  assert (Hsplit : (length (services reg)
                    = length (filter (fun e => is_healthy (snd e))
                                     (services reg))
                      + length (filter (fun e => negb (is_healthy (snd e)))
                                       (services reg)))%nat).
  { induction (services reg) as [|[k v] r IH]; simpl; auto.
    destruct (is_healthy v); simpl; lia. }
  split; [reflexivity|]. split; [reflexivity|]. split; [lia|].
  split; [lia|]. split; [|split; [|reflexivity]].
  - set (h := Z.of_nat (length (filter _ (services reg)))) in *.
    set (n := Z.of_nat (length (services reg))) in *.
    assert (Hh : 0 <= h <= n) by (unfold h, n; lia).
    destruct (Z.gtb_spec n 0) as [Hn|Hn]; [|split; lra].
    assert (Hn' : (0 < inject_Z n)%Q).
    { change 0%Q with (inject_Z 0). now rewrite <- Zlt_Qlt. }
    assert (Hh0 : (0 <= inject_Z h)%Q).
    { change 0%Q with (inject_Z 0). rewrite <- Zle_Qle. lia. }
    assert (Hhn : (inject_Z h <= inject_Z n)%Q) by (rewrite <- Zle_Qle; lia).
    assert (H0 : (0 <= inject_Z h / inject_Z n)%Q).
    { apply Qle_shift_div_l; auto; lra. }
    assert (H1 : (inject_Z h / inject_Z n <= 1)%Q).
    { apply Qle_shift_div_r; auto; lra. }
    split; lra.
  - intros E. unfold response_times. rewrite E. cbn. split; reflexivity.
Qed.

End ServiceRegistryExtra.

(* ------------------------------------------------------------------ *)
(** ** Load balancer: every strategy, and the maintenance operations *)

Module LoadBalancerExtra.
Import LoadBalancer.

(** *** The least element *)

Section MinBy.
Context {A K : Type} (ltb : K -> K -> bool) (lt le : K -> K -> Prop).
Hypothesis ltb_true : forall a b, ltb a b = true -> lt a b.
Hypothesis ltb_false : forall a b, ltb a b = false -> le b a.
Hypothesis le_refl : forall a, le a a.
Hypothesis lt_le : forall a b, lt a b -> le a b.
Hypothesis lt_trans : forall a b c, lt a b -> lt b c -> lt a c.
Hypothesis lt_le_trans : forall a b c, lt a b -> le b c -> lt a c.
Hypothesis le_trans : forall a b c, le a b -> le b c -> le a c.
Variable key : A -> K.

Lemma min_by_split (l : list A) : forall x,
  exists pre post,
    x :: l = pre ++ min_by ltb key x l :: post
    /\ Forall (fun y => lt (key (min_by ltb key x l)) (key y)) pre
    /\ Forall (fun y => le (key (min_by ltb key x l)) (key y)) post.
Proof.
  induction l as [|y r IH]; intros x; cbn [min_by].
  - exists [], []. repeat split; constructor.
  - destruct (ltb (key y) (key x)) eqn:E.
    + destruct (IH y) as (pre & post & Heq & Hpre & Hpost).
      exists (x :: pre), post. cbn [app]. split; [f_equal; exact Heq|].
      split; [|exact Hpost]. constructor; [|exact Hpre].
      destruct pre as [|y' pre']; cbn [app] in Heq.
      * injection Heq as Hm _. rewrite <- Hm. now apply ltb_true.
      * injection Heq as Hy _. subst y'.
        inversion Hpre as [|? ? Hmy _]; subst.
        apply (lt_trans _ (key y)); auto.
    + destruct (IH x) as (pre & post & Heq & Hpre & Hpost).
      destruct pre as [|x' pre']; cbn [app] in Heq.
      * injection Heq as Hm Hr. subst post.
        rewrite <- Hm in Hpost |- *.
        exists [], (y :: r). cbn [app].
        split; [reflexivity|]. split; [constructor|].
        constructor; [now apply ltb_false|exact Hpost].
      * injection Heq as Hx Hr. subst x'.
        exists (x :: y :: pre'), post. cbn [app].
        split; [do 2 f_equal; exact Hr|].
        split; [|exact Hpost].
        inversion Hpre as [|? ? Hmx Hpre']; subst.
        constructor; auto. constructor; auto.
        apply (lt_le_trans _ (key x)); auto.
Qed.

Lemma min_by_In (l : list A) x : In (min_by ltb key x l) (x :: l).
Proof.
  destruct (min_by_split l x) as (pre & post & Heq & _).
  rewrite Heq. apply in_or_app. right. now left.
Qed.

End MinBy.

(** *** Every strategy selects one of the instances it is given *)

Lemma min_by_In_any {A K : Type} (ltb : K -> K -> bool) (key : A -> K)
    (l : list A) : forall x, In (min_by ltb key x l) (x :: l).
Proof.
  induction l as [|y r IH]; intros x; cbn [min_by]; [now left|].
  destruct (ltb (key y) (key x)).
  - right. apply IH.
  - destruct (IH x) as [H|H]; [now left|right; now right].
Qed.

Lemma round_robin_selects {A : Type} nm (xs : list A) counters :
  xs <> [] ->
  exists x cs, _round_robin_selection nm xs counters = Some (x, cs)
               /\ In x xs.
Proof.
  intros Hne.
  destruct (LoadBalancerFacts.round_robin_step nm xs counters Hne)
    as (x & Hnth & Hsel).
  exists x. eexists. split; [exact Hsel|]. eapply nth_error_In. exact Hnth.
Qed.

Lemma select_instance_total s draw nm (instances : list Ref) counters :
  instances <> [] ->
  exists sel cs,
    _select_instance s draw nm instances counters = Some (sel, cs)
    /\ In sel instances.
Proof.
  intros Hne. unfold _select_instance.
  destruct instances as [|x xs]; [contradiction|].
  destruct s.
  - now apply round_robin_selects.
  - unfold _random_selection.
    destruct (nth_error (x :: xs) (draw mod length (x :: xs))) as [r|] eqn:E.
    + exists r, counters. split; [reflexivity|]. eapply nth_error_In; eauto.
    + apply nth_error_None in E.
      pose proof (Nat.mod_upper_bound draw (length (x :: xs))
                    ltac:(discriminate)). lia.
  - cbn [_least_connections_selection option_map]. eexists. eexists.
    split; [reflexivity|]. apply min_by_In_any.
  - unfold _weighted_round_robin_selection. cbv zeta.
    match goal with
    | |- context [flat_map ?f ?l] => destruct (flat_map f l) as [|y ys] eqn:E
    end.
    + exists x, counters. split; [reflexivity|now left].
    + destruct (round_robin_selects nm (y :: ys) counters ltac:(discriminate))
        as (r & cs & Hsel & Hin).
      exists r, cs. split; [exact Hsel|].
      rewrite <- E in Hin. apply in_flat_map in Hin as (r0 & Hr0 & Hrep).
      apply repeat_spec in Hrep. now subst.
  - unfold _least_response_time_selection.
    match goal with
    | |- context [filter ?f ?l] => destruct (filter f l) as [|y ys] eqn:E
    end; cbn [option_map].
    + exists x, counters. split; [reflexivity|now left].
    + eexists. eexists. split; [reflexivity|].
      assert (Hin : In (min_by Float.ltb (fun r : Ref => response_time (snd r))
                               y ys) (y :: ys)) by apply min_by_In_any.
      rewrite <- E in Hin. apply filter_In in Hin. tauto.
Qed.

(** *** What a resolution does, case by case *)

Lemma get_service_instances_set nm l lb s cs :
  get_service_instances nm
    {| strategy := s;
       service_instances := PyDict.set nm l (service_instances lb);
       round_robin_counters := cs |} = l.
Proof.
  unfold get_service_instances. cbn [service_instances].
  now rewrite PyDictFacts.get_set_same.
Qed.

Lemma resolve_cases nm ru now draw lb :
  let l := resolvable_instances nm ru lb in
  (healthy_instances l = [] /\ fst (resolve nm ru now draw lb) = None)
  \/ (exists sel cs,
        _select_instance (strategy lb) draw nm (healthy_instances l)
                         (round_robin_counters lb) = Some (sel, cs)
        /\ In sel (healthy_instances l)
        /\ fst (resolve nm ru now draw lb) = Some (fst sel, url (snd sel))
        /\ get_service_instances nm (snd (resolve nm ru now draw lb))
           = update_at (fst sel) (mark_used now) l
        /\ round_robin_counters (snd (resolve nm ru now draw lb)) = cs).
Proof.
  intros l. subst l.
  unfold resolvable_instances, resolve, get_service_instances.
  assert (Hsel : forall h : list Ref, h <> [] ->
            exists sel cs,
              _select_instance (strategy lb) draw nm h
                               (round_robin_counters lb) = Some (sel, cs)
              /\ In sel h)
    by (intros; now apply select_instance_total).
  destruct (PyDict.get nm (service_instances lb)) as [[|x0 l0]|] eqn:G.
  - destruct ru as [service_url|]; [destruct (truthy service_url)|];
      try (left; split; reflexivity).
    destruct (healthy_instances [new_instance service_url 1]) as [|h hs] eqn:Eh;
      [left; split; reflexivity|].
    destruct (Hsel (h :: hs) ltac:(discriminate)) as (sel & cs & E & Hin).
    right. exists sel, cs. rewrite E. cbn [fst snd].
    repeat split; auto. cbn [service_instances].
    now rewrite PyDictFacts.get_set_same.
  - destruct (healthy_instances (x0 :: l0)) as [|h hs] eqn:Eh;
      [left; split; reflexivity|].
    destruct (Hsel (h :: hs) ltac:(discriminate)) as (sel & cs & E & Hin).
    right. exists sel, cs. rewrite E. cbn [fst snd].
    repeat split; auto. cbn [service_instances].
    now rewrite PyDictFacts.get_set_same.
  - destruct ru as [service_url|]; [destruct (truthy service_url)|];
      try (left; split; reflexivity).
    destruct (healthy_instances [new_instance service_url 1]) as [|h hs] eqn:Eh;
      [left; split; reflexivity|].
    destruct (Hsel (h :: hs) ltac:(discriminate)) as (sel & cs & E & Hin).
    right. exists sel, cs. rewrite E. cbn [fst snd].
    repeat split; auto. cbn [service_instances].
    now rewrite PyDictFacts.get_set_same.
Qed.

Lemma nth_error_update_at {A : Type} (f : A -> A) (l : list A) : forall p i,
  nth_error (update_at p f l) i
  = if Nat.eqb i p then option_map f (nth_error l i) else nth_error l i.
Proof.
  induction l as [|x r IH]; intros p i.
  - destruct p, i; cbn; try reflexivity; now destruct (Nat.eqb _ _).
  - destruct p as [|p], i as [|i]; cbn [update_at nth_error Nat.eqb option_map];
      auto.
Qed.

(** X19. Under every strategy, a resolution that returns an address
    returns the address of a healthy instance of the list it works on (the
    stored list, or the one instance made from the registry's answer when
    nothing is stored); that instance, and no other, has its connection
    count raised by one and its last-used time set to the time of the
    call; the lists of other services and the strategy are untouched. *)
Theorem resolution_selects_healthy_instance (nm : string)
    (ru : option string) (now : Q) (draw : nat) (lb : t) (p : nat)
    (u : string) :
  fst (resolve nm ru now draw lb) = Some (p, u) ->
  let l := resolvable_instances nm ru lb in
  let lb' := snd (resolve nm ru now draw lb) in
  exists inst,
    nth_error l p = Some inst
    /\ is_healthy inst = true
    /\ url inst = u
    /\ nth_error (get_service_instances nm lb') p = Some (mark_used now inst)
    /\ (forall i, i <> p ->
          nth_error (get_service_instances nm lb') i = nth_error l i)
    /\ (forall nm', nm' <> nm ->
          get_service_instances nm' lb' = get_service_instances nm' lb)
    /\ strategy lb' = strategy lb.
Proof.
  intros Hres l lb'. subst l lb'.
  destruct (resolve_cases nm ru now draw lb)
    as [(_ & Hn)|(sel & cs & _ & Hin & Hr & Hl & _)]; [congruence|].
  rewrite Hr in Hres. injection Hres as <- <-.
  destruct sel as [p inst]. cbn [fst snd] in *.
  apply LoadBalancerFacts.In_healthy_instances in Hin as (Hnth & Hh).
  destruct (LoadBalancerFacts.resolve_effect nm ru now draw lb)
    as (Hs & _ & _ & Hoth & _).
  exists inst. split; [exact Hnth|]. split; [exact Hh|].
  split; [reflexivity|]. rewrite Hl. split; [|split; [|split]].
  - now rewrite nth_error_update_at, Nat.eqb_refl, Hnth.
  - intros i Hi. rewrite nth_error_update_at.
    apply Nat.eqb_neq in Hi. now rewrite Hi.
  - intros nm' Hne. unfold get_service_instances. now rewrite Hoth.
  - exact Hs.
Qed.

Lemma resolution_selects_healthy_instance_witness :
  let lb := balancer_of LEAST_CONNECTIONS busy_instances in
  let lb' := snd (resolve "svc" None 9 0 lb) in
  fst (resolve "svc" None 9 0 lb) = Some (1%nat, "http://B")
  /\ map active_connections (get_service_instances "svc" lb') = [5; 2; 3]
  /\ exists inst,
       nth_error (resolvable_instances "svc" None lb) 1 = Some inst
       /\ is_healthy inst = true
       /\ nth_error (get_service_instances "svc" lb') 1
          = Some (mark_used 9 inst).
Proof.
  intros lb lb'. split; [reflexivity|]. split; [reflexivity|].
  destruct (resolution_selects_healthy_instance "svc" None 9%Q 0 lb 1
              "http://B" eq_refl) as (inst & H1 & H2 & _ & H4 & _).
  exists inst. auto.
Defined.

Lemma healthy_instances_nil (l : list ServiceInstance) :
  healthy_instances l = []
  <-> Forall (fun inst => is_healthy inst = false) l.
Proof.
  unfold healthy_instances, refs. generalize 0%nat.
  induction l as [|x r IH]; intros s; cbn [length seq combine filter snd].
  - split; constructor.
  - destruct (is_healthy x) eqn:E.
    + split; [discriminate|]. intros H. inversion H. congruence.
    + rewrite IH. split; intros H; [now constructor|now inversion H].
Qed.

(** X20. Under every strategy, a resolution returns no address exactly
    when the list it works on has no healthy instance: when instances are
    stored and none is healthy, or when nothing is stored and the registry
    has no address to give.  In every other case it returns one. *)
Theorem resolution_fails_iff_no_healthy_instance (nm : string)
    (ru : option string) (now : Q) (draw : nat) (lb : t) :
  fst (get_service_url nm ru now draw lb) = None
  <-> Forall (fun inst => is_healthy inst = false)
             (resolvable_instances nm ru lb).
Proof.
  rewrite <- healthy_instances_nil. unfold get_service_url.
  destruct (resolve_cases nm ru now draw lb)
    as [(Hh & Hn)|(sel & cs & _ & Hin & Hr & _)];
    destruct (resolve nm ru now draw lb) as [r lb']; cbn [fst snd] in *.
  - subst r. cbn. tauto.
  - subst r. cbn. split; [discriminate|].
    intros E. rewrite E in Hin. contradiction.
Qed.

(** *** Positions of the healthy instances are in list order *)

Lemma positions_sorted (l : list ServiceInstance) : forall s,
  let hp := map fst (filter (fun r : Ref => is_healthy (snd r))
                       (combine (seq s (length l)) l)) in
  StronglySorted Nat.lt hp /\ Forall (fun p => (s <= p)%nat) hp.
Proof.
  induction l as [|x r IH]; intros s; cbn [length seq combine filter snd map].
  - split; constructor.
  - destruct (IH (S s)) as (Hs & Hb).
    assert (Hb' : forall n, (n <= S s)%nat ->
              Forall (fun p => (n <= p)%nat)
                (map fst (filter (fun r0 : Ref => is_healthy (snd r0))
                            (combine (seq (S s) (length r)) r)))).
    { intros n Hn. eapply Forall_impl; [|exact Hb].
      intros p Hp. cbv beta in *. lia. }
    destruct (is_healthy x); cbn [map fst].
    + split.
      * constructor; [exact Hs|]. apply (Hb' (S s)). lia.
      * constructor; [lia|]. apply Hb'. lia.
    + split; [exact Hs|]. apply Hb'. lia.
Qed.

Lemma StronglySorted_map_filter {A : Type} (g : A -> nat) (f : A -> bool)
    (l : list A) :
  StronglySorted Nat.lt (map g l) ->
  StronglySorted Nat.lt (map g (filter f l)).
Proof.
  induction l as [|x r IH]; cbn [map filter]; auto.
  intros H. inversion H as [|? ? Hr Hx]; subst.
  destruct (f x); cbn [map]; auto.
  constructor; auto.
  apply Forall_forall. intros y Hy.
  apply in_map_iff in Hy as (z & <- & Hz). apply filter_In in Hz as (Hz & _).
  apply (proj1 (Forall_forall _ _) Hx). now apply in_map.
Qed.

Lemma sorted_split {A : Type} (g : A -> nat) (pre : list A) m post :
  StronglySorted Nat.lt (map g (pre ++ m :: post)) ->
  Forall (fun y => (g y < g m)%nat) pre
  /\ Forall (fun y => (g m < g y)%nat) post.
Proof.
  induction pre as [|x pre IH]; cbn [app map]; intros H;
    inversion H as [|? ? Hr Hx]; subst.
  - split; [constructor|].
    apply Forall_forall. intros y Hy.
    apply (proj1 (Forall_forall _ _) Hx). now apply in_map.
  - destruct (IH Hr) as (H1 & H2). split; auto. constructor; auto.
    apply (proj1 (Forall_forall _ _) Hx). rewrite map_app.
    apply in_or_app. right. now left.
Qed.

Lemma healthy_instances_sorted l :
  StronglySorted Nat.lt (map fst (healthy_instances l)).
Proof. apply (positions_sorted l 0). Qed.

Lemma combine_seq_In (l : list ServiceInstance) : forall s p inst,
  nth_error l p = Some inst ->
  In ((s + p)%nat, inst) (combine (seq s (length l)) l).
Proof.
  induction l as [|x r IH]; intros s [|p] inst; cbn [nth_error];
    try discriminate.
  - intros [= ->]. rewrite Nat.add_0_r. now left.
  - intros H. right. cbn [length seq combine].
    replace (s + S p)%nat with (S s + p)%nat by lia. now apply IH.
Qed.

Lemma healthy_instances_In l p inst :
  nth_error l p = Some inst -> is_healthy inst = true ->
  In (p, inst) (healthy_instances l).
Proof.
  intros Hn Hh. unfold healthy_instances, refs. apply filter_In.
  split; [|exact Hh]. apply (combine_seq_In l 0 p inst Hn).
Qed.

(** *** Least connections *)

(** X21. Under the least-connections strategy the instance a resolution
    selects has the smallest connection count among the healthy instances
    of the list, and among those with that count it is the first in list
    order. *)
Theorem least_connections_selects_least (nm : string) (ru : option string)
    (now : Q) (draw : nat) (lb : t) (p : nat) (u : string) :
  strategy lb = LEAST_CONNECTIONS ->
  fst (resolve nm ru now draw lb) = Some (p, u) ->
  let l := resolvable_instances nm ru lb in
  exists inst,
    nth_error l p = Some inst
    /\ forall q other,
         nth_error l q = Some other -> is_healthy other = true ->
         active_connections inst <= active_connections other
         /\ ((q < p)%nat ->
             active_connections inst < active_connections other).
Proof.
  intros Hs Hres l. subst l.
  destruct (resolve_cases nm ru now draw lb)
    as [(_ & Hn)|(sel & cs & Hsel & Hin & Hr & _)]; [congruence|].
  rewrite Hr in Hres. injection Hres as <- <-.
  destruct sel as [p inst]. cbn [fst snd] in *.
  destruct (LoadBalancerFacts.In_healthy_instances _ _ _ Hin)
    as (Hnth & Hhealthy).
  set (h := healthy_instances (resolvable_instances nm ru lb)) in *.
  pose proof (healthy_instances_sorted (resolvable_instances nm ru lb))
    as Hsorted. fold h in Hsorted.
  rewrite Hs in Hsel. unfold _select_instance in Hsel.
  destruct h as [|x xs] eqn:Eh; [contradiction|].
  cbn [_least_connections_selection option_map] in Hsel.
  injection Hsel as Hm _.
  destruct (min_by_split Z.ltb Z.lt Z.le
              (fun a b => proj1 (Z.ltb_lt a b))
              (fun a b H => proj1 (Z.ltb_ge a b) H)
              Z.lt_trans Z.lt_le_trans
              (fun r : Ref => active_connections (snd r)) xs x)
    as (pre & post & Heq & Hpre & Hpost).
  assert (Hm' : @min_by Ref Z Z.ltb
                  (fun r : Ref => active_connections (snd r)) x xs
                = (p, inst))
    by exact Hm.
  rewrite Hm' in Heq, Hpre, Hpost.
  rewrite Heq in Hsorted. apply sorted_split in Hsorted as (Hlt & Hgt).
  exists inst. split; [exact Hnth|].
  intros q other Hq Hh.
  pose proof (healthy_instances_In _ _ _ Hq Hh) as Hqin.
  fold h in Hqin. rewrite Eh, Heq in Hqin.
  apply in_app_or in Hqin as [Hqin|[Hqin|Hqin]].
  - pose proof (proj1 (Forall_forall _ _) Hpre _ Hqin) as H1.
    cbn [snd] in H1. lia.
  - injection Hqin as <- <-. lia.
  - pose proof (proj1 (Forall_forall _ _) Hpost _ Hqin) as H1.
    pose proof (proj1 (Forall_forall _ _) Hgt _ Hqin) as H2.
    cbn [fst snd] in *. lia.
Qed.

Lemma least_connections_selects_least_witness :
  let lb := balancer_of LEAST_CONNECTIONS busy_instances in
  exists inst,
    nth_error (resolvable_instances "svc" None lb) 1 = Some inst
    /\ forall q other,
         nth_error (resolvable_instances "svc" None lb) q = Some other ->
         is_healthy other = true ->
         active_connections inst <= active_connections other
         /\ ((q < 1)%nat ->
             active_connections inst < active_connections other).
Proof.
  intros lb.
  exact (least_connections_selects_least "svc" None 0%Q 0 lb 1 "http://B"
           eq_refl eq_refl).
Defined.

(** *** Least response time *)

(** X22. Under the least-response-time strategy, when some healthy
    instance has a recorded (positive) response time, the selected instance
    has one, it is the smallest among the healthy instances that have one,
    and the first such in list order; when no healthy instance has a
    recorded response time, the selected instance is the first healthy
    instance of the list. *)
Theorem least_response_time_selects_least (nm : string)
    (ru : option string) (now : Q) (draw : nat) (lb : t) (p : nat)
    (u : string) :
  strategy lb = LEAST_RESPONSE_TIME ->
  fst (resolve nm ru now draw lb) = Some (p, u) ->
  let l := resolvable_instances nm ru lb in
  exists inst,
    nth_error l p = Some inst
    /\ ((exists q other, nth_error l q = Some other
                         /\ is_healthy other = true
                         /\ (0 < response_time other)%Q) ->
        (0 < response_time inst)%Q
        /\ forall q other,
             nth_error l q = Some other -> is_healthy other = true ->
             (0 < response_time other)%Q ->
             (response_time inst <= response_time other)%Q
             /\ ((q < p)%nat ->
                 (response_time inst < response_time other)%Q))
    /\ ((forall q other, nth_error l q = Some other ->
                         is_healthy other = true ->
                         ~ (0 < response_time other)%Q) ->
        forall q other, (q < p)%nat -> nth_error l q = Some other ->
                        is_healthy other = false).
Proof.
  intros Hs Hres l. subst l.
  destruct (resolve_cases nm ru now draw lb)
    as [(_ & Hn)|(sel & cs & Hsel & Hin & Hr & _)]; [congruence|].
  rewrite Hr in Hres. injection Hres as <- <-.
  destruct sel as [p inst]. cbn [fst snd] in *.
  destruct (LoadBalancerFacts.In_healthy_instances _ _ _ Hin)
    as (Hnth & Hhealthy).
  set (l := resolvable_instances nm ru lb) in *.
  set (h := healthy_instances l) in *.
  pose proof (healthy_instances_sorted l) as Hsorted. fold h in Hsorted.
  rewrite Hs in Hsel. unfold _select_instance in Hsel.
  destruct h as [|x xs] eqn:Eh; [contradiction|].
  unfold _least_response_time_selection in Hsel.
  match type of Hsel with
  | context [filter ?f _] => set (known := f) in *
  end.
  assert (Hknown : forall r : Ref,
            known r = true <-> (0 < response_time (snd r))%Q).
  { intros r. unfold known. apply FloatFacts.gtb_lt. }
  exists inst. split; [exact Hnth|].
  destruct (filter known (x :: xs)) as [|y ys] eqn:Ef;
    cbn [option_map] in Hsel; injection Hsel as Hm _.
  - (* no recorded response time among the healthy instances *)
    split.
    + intros (q & other & Hq & Hh & Hpos). exfalso.
      pose proof (healthy_instances_In _ _ _ Hq Hh) as Hqin.
      fold h in Hqin. rewrite Eh in Hqin.
      assert (Hf : In (q, other) (filter known (x :: xs))).
      { apply filter_In. split; auto. now apply Hknown. }
      rewrite Ef in Hf. contradiction.
    + intros _ q other Hlt Hq.
      destruct (is_healthy other) eqn:Hh; [|reflexivity]. exfalso.
      pose proof (healthy_instances_In _ _ _ Hq Hh) as Hqin.
      fold h in Hqin. rewrite Eh in Hqin. subst x.
      apply (sorted_split fst [] (p, inst) xs) in Hsorted as (_ & Hgt).
      destruct Hqin as [Hqin|Hqin]; [injection Hqin as -> _; lia|].
      pose proof (proj1 (Forall_forall _ _) Hgt _ Hqin) as H1.
      cbn [fst] in H1. lia.
  - (* the least recorded response time *)
    destruct (min_by_split Float.ltb Qlt Qle
                (fun a b => proj1 (FloatFacts.ltb_lt a b))
                (fun a b => proj1 (FloatFacts.ltb_ge a b))
                Qlt_trans Qlt_le_trans
                (fun r : Ref => response_time (snd r)) ys y)
      as (pre & post & Heq & Hpre & Hpost).
    assert (Hm' : @min_by Ref Q Float.ltb
                    (fun r : Ref => response_time (snd r)) y ys = (p, inst))
      by exact Hm.
    rewrite Hm' in Heq, Hpre, Hpost.
    assert (Ef' : filter known (x :: xs) = pre ++ (p, inst) :: post)
      by (rewrite Ef; exact Heq).
    assert (Hfs : StronglySorted Nat.lt (map fst (filter known (x :: xs))))
      by now apply StronglySorted_map_filter.
    rewrite Ef' in Hfs. apply sorted_split in Hfs as (Hlt & Hgt).
    assert (Hsel_in : In (p, inst) (filter known (x :: xs))).
    { rewrite Ef'. apply in_or_app. right. now left. }
    apply filter_In in Hsel_in as (_ & Hpos).
    apply Hknown in Hpos. cbn [snd] in Hpos.
    split.
    + intros _. split; [exact Hpos|].
      intros q other Hq Hh Hopos.
      pose proof (healthy_instances_In _ _ _ Hq Hh) as Hqin.
      fold h in Hqin. rewrite Eh in Hqin.
      assert (Hf : In (q, other) (filter known (x :: xs))).
      { apply filter_In. split; auto. now apply Hknown. }
      rewrite Ef' in Hf.
      apply in_app_or in Hf as [Hf|[Hf|Hf]].
      * pose proof (proj1 (Forall_forall _ _) Hpre _ Hf) as H1.
        cbn [snd] in H1. split; [now apply Qlt_le_weak|auto].
      * injection Hf as <- <-. split; [apply Qle_refl|lia].
      * pose proof (proj1 (Forall_forall _ _) Hpost _ Hf) as H1.
        pose proof (proj1 (Forall_forall _ _) Hgt _ Hf) as H2.
        cbn [fst snd] in *. split; [exact H1|lia].
    + intros Hnone. exfalso. apply (Hnone p inst Hnth); auto.
Qed.

Lemma least_response_time_selects_least_witness :
  let lb := balancer_of LEAST_RESPONSE_TIME timed_instances in
  let l := resolvable_instances "svc" None lb in
  exists inst,
    nth_error l 2 = Some inst
    /\ ((exists q other, nth_error l q = Some other
                         /\ is_healthy other = true
                         /\ (0 < response_time other)%Q) ->
        (0 < response_time inst)%Q
        /\ forall q other,
             nth_error l q = Some other -> is_healthy other = true ->
             (0 < response_time other)%Q ->
             (response_time inst <= response_time other)%Q
             /\ ((q < 2)%nat ->
                 (response_time inst < response_time other)%Q))
    /\ ((forall q other, nth_error l q = Some other ->
                         is_healthy other = true ->
                         ~ (0 < response_time other)%Q) ->
        forall q other, (q < 2)%nat -> nth_error l q = Some other ->
                        is_healthy other = false).
Proof.
  intros lb.
  exact (least_response_time_selects_least "svc" None 0%Q 0 lb 2
           "http://z:1" eq_refl eq_refl).
Defined.

(** *** Weighted round-robin *)

Lemma map_fst_weighted (h : list Ref) :
  map fst (flat_map (fun r : Ref => repeat r (Z.to_nat (weight (snd r)))) h)
  = flat_map (fun r : Ref => repeat (fst r) (Z.to_nat (weight (snd r)))) h.
Proof.
  induction h as [|x h IH]; cbn [flat_map map]; auto.
  rewrite map_app. f_equal; [apply map_repeat|exact IH].
Qed.

Lemma weighted_by_flags (l l' : list ServiceInstance) : forall s,
  map is_healthy l = map is_healthy l' ->
  map weight l = map weight l' ->
  flat_map (fun r : Ref => repeat (fst r) (Z.to_nat (weight (snd r))))
    (filter (fun r : Ref => is_healthy (snd r))
       (combine (seq s (length l)) l))
  = flat_map (fun r : Ref => repeat (fst r) (Z.to_nat (weight (snd r))))
      (filter (fun r : Ref => is_healthy (snd r))
         (combine (seq s (length l')) l')).
Proof.
  revert l'. induction l as [|x r IH]; intros [|x' r'] s H W;
    try discriminate; auto.
  cbn [map] in H, W. injection H as Hx Hr. injection W as Wx Wr.
  cbn [length seq combine filter snd]. rewrite Hx.
  destruct (is_healthy x'); cbn [flat_map fst snd];
    rewrite ?Wx, (IH r' (S s) Hr Wr); reflexivity.
Qed.

Lemma weighted_positions_by_flags (l l' : list ServiceInstance) :
  map is_healthy l = map is_healthy l' ->
  map weight l = map weight l' ->
  weighted_positions l = weighted_positions l'.
Proof. apply weighted_by_flags. Qed.

Lemma count_weighted_out (k : Ref -> nat) (h : list Ref) (p : nat) :
  ~ In p (map fst h) ->
  count_occ Nat.eq_dec (flat_map (fun r : Ref => repeat (fst r) (k r)) h) p
  = 0%nat.
Proof.
  induction h as [|x h IH]; cbn [flat_map map]; auto.
  intros H. rewrite count_occ_app, IH by (intros H'; apply H; now right).
  rewrite count_occ_repeat_neq; auto.
  intros E. apply H. left. now symmetry.
Qed.

Lemma count_weighted_in (k : Ref -> nat) (h : list Ref) (p : nat)
    (inst : ServiceInstance) :
  NoDup (map fst h) -> In (p, inst) h ->
  count_occ Nat.eq_dec (flat_map (fun r : Ref => repeat (fst r) (k r)) h) p
  = k (p, inst).
Proof.
  induction h as [|x h IH]; cbn [flat_map map]; [intros _ []|].
  intros Hnd Hin. inversion Hnd as [|? ? Hx Hh]; subst.
  rewrite count_occ_app. destruct Hin as [->|Hin].
  - cbn [fst]. rewrite count_occ_repeat_eq by reflexivity.
    rewrite count_weighted_out by exact Hx. lia.
  - rewrite count_occ_repeat_neq, IH; auto.
    intros E. apply Hx. rewrite <- E.
    change p with (fst (p, inst)). now apply in_map.
Qed.

Lemma count_idx (n : nat) (x : Z) :
  count_occ Z.eq_dec (map Z.of_nat (seq 0 n)) x
  = if (0 <=? x) && (x <? Z.of_nat n) then 1%nat else 0%nat.
Proof.
  induction n as [|n IH].
  - cbn [seq map count_occ].
    destruct (Z.leb_spec 0 x), (Z.ltb_spec x (Z.of_nat 0));
      cbn [andb]; auto; lia.
  - rewrite seq_S, map_app, count_occ_app, IH. cbn [Nat.add map count_occ].
    rewrite Nat2Z.inj_succ.
    destruct (Z.eq_dec (Z.of_nat n) x), (Z.leb_spec 0 x),
             (Z.ltb_spec x (Z.of_nat n)), (Z.ltb_spec x (Z.succ (Z.of_nat n)));
      cbn [andb]; lia.
Qed.

Lemma count_concat_repeat {A : Type}
    (dec : forall x y : A, {x = y} + {x <> y}) (L : list A) (m : nat) x :
  count_occ dec (concat (repeat L m)) x = (m * count_occ dec L x)%nat.
Proof.
  induction m as [|m IH]; cbn [repeat concat]; auto.
  rewrite count_occ_app, IH. lia.
Qed.

Lemma map_nth_seq {A : Type} (L : list A) (d : A) :
  map (fun i => nth i L d) (seq 0 (length L)) = L.
Proof.
  induction L as [|x L IH]; cbn [length seq map nth]; auto.
  f_equal. rewrite <- seq_shift, map_map. exact IH.
Qed.

(** Over [m] whole turns of a rotation every index comes up [m] times. *)
Lemma rotation_cycles (n : nat) (c : Z) (m : nat) (f : Z -> nat) (p : nat) :
  (0 < n)%nat ->
  count_occ Nat.eq_dec (map f (rotation (Z.of_nat n) c (m * n))) p
  = (m * count_occ Nat.eq_dec (map f (map Z.of_nat (seq 0 n))) p)%nat.
Proof.
  intros Hn.
  assert (Hperm : Permutation (rotation (Z.of_nat n) c (m * n))
                    (concat (repeat (map Z.of_nat (seq 0 n)) m))).
  { apply (Permutation_count_occ Z.eq_dec). intros x.
    rewrite count_concat_repeat, count_idx.
    destruct (Z.leb_spec 0 x), (Z.ltb_spec x (Z.of_nat n)); cbn [andb].
    - apply Nat2Z.inj.
      rewrite LoadBalancerFacts.count_rotation by lia.
      rewrite Nat2Z.inj_mul, Z.div_mul, Z.mod_mul by lia.
      pose proof (Z.mod_pos_bound (x - c) (Z.of_nat n) ltac:(lia)).
      destruct (Z.ltb_spec ((x - c) mod Z.of_nat n) 0); lia.
    - rewrite Nat.mul_0_r. apply count_occ_not_In. intros H'.
      apply LoadBalancerFacts.rotation_range in H'; lia.
    - rewrite Nat.mul_0_r. apply count_occ_not_In. intros H'.
      apply LoadBalancerFacts.rotation_range in H'; lia.
    - rewrite Nat.mul_0_r. apply count_occ_not_In. intros H'.
      apply LoadBalancerFacts.rotation_range in H'; lia. }
  rewrite (proj1 (Permutation_count_occ Nat.eq_dec _ _)
             (Permutation_map f Hperm)).
  rewrite concat_map, map_repeat. apply count_concat_repeat.
Qed.

Lemma resolve_weighted nm ru now draw lb l :
  strategy lb = WEIGHTED_ROUND_ROBIN ->
  PyDict.get nm (service_instances lb) = Some l ->
  weighted_positions l <> [] ->
  let n := Z.of_nat (length (weighted_positions l)) in
  let c := counter_of nm (round_robin_counters lb) in
  exists p inst,
    nth_error (weighted_positions l) (Z.to_nat (c mod n)) = Some p
    /\ resolve nm ru now draw lb
       = (Some (p, url inst),
          {| strategy := WEIGHTED_ROUND_ROBIN;
             service_instances :=
               PyDict.set nm (update_at p (mark_used now) l)
                          (service_instances lb);
             round_robin_counters :=
               PyDict.set nm ((c + 1) mod n)
                          (touch_counter nm (round_robin_counters lb)) |}).
Proof.
  intros Hs G Hne n c.
  pose proof (map_fst_weighted (healthy_instances l)) as Hmap.
  fold (weighted_positions l) in Hmap.
  remember (flat_map (fun r : Ref => repeat r (Z.to_nat (weight (snd r))))
              (healthy_instances l)) as wl eqn:Ewl.
  assert (Hwl : wl <> []).
  { intros E. apply Hne. rewrite <- Hmap, E. reflexivity. }
  destruct (LoadBalancerFacts.round_robin_step nm wl
              (round_robin_counters lb) Hwl) as ([p inst] & Hnth & Hsel).
  assert (Hlen : length wl = length (weighted_positions l))
    by (rewrite <- Hmap; now rewrite length_map).
  rewrite Hlen in Hnth, Hsel. fold n c in Hnth, Hsel.
  exists p, inst. split.
  { rewrite <- Hmap. exact (map_nth_error fst _ _ Hnth). }
  unfold resolve. rewrite G, Hs.
  destruct l as [|x0 l0]; [now contradiction Hne|].
  destruct (healthy_instances (x0 :: l0)) as [|h0 hs] eqn:Eh.
  { exfalso. apply Hwl. rewrite Ewl. reflexivity. }
  unfold _select_instance, _weighted_round_robin_selection.
  match goal with
  | |- context [flat_map ?f (h0 :: hs)] =>
      change (flat_map f (h0 :: hs))
        with (flat_map
                (fun r : Ref => repeat r (Z.to_nat (weight (snd r))))
                (h0 :: hs))
  end.
  rewrite <- Ewl.
  destruct wl as [|w0 ws]; [contradiction|].
  match type of Hsel with
  | ?lhs = _ =>
      match goal with
      | |- context [@_round_robin_selection ?A nm ?w ?cs] =>
          change (@_round_robin_selection A nm w cs) with lhs
      end
  end.
  rewrite Hsel. reflexivity.
Qed.

Lemma resolutions_weighted nm ru l0 env : forall lb l,
  strategy lb = WEIGHTED_ROUND_ROBIN ->
  PyDict.get nm (service_instances lb) = Some l ->
  map is_healthy l = map is_healthy l0 ->
  map weight l = map weight l0 ->
  weighted_positions l0 <> [] ->
  let n := Z.of_nat (length (weighted_positions l0)) in
  let c := counter_of nm (round_robin_counters lb) in
  selected_positions (fst (resolutions nm ru env lb))
  = map (fun i => nth (Z.to_nat i) (weighted_positions l0) 0%nat)
        (rotation n c (length env)).
Proof.
  induction env as [|[now draw] env IH]; intros lb l Hs G Hfl Hw Hne n c.
  - reflexivity.
  - pose proof (weighted_positions_by_flags _ _ Hfl Hw) as Hwp.
    destruct (resolve_weighted nm ru now draw lb l Hs G)
      as (p & inst & Hnth & Hres).
    { now rewrite Hwp. }
    rewrite Hwp in Hnth, Hres. fold n c in Hnth, Hres.
    cbn [resolutions]. rewrite Hres.
    set (lb1 := {| strategy := WEIGHTED_ROUND_ROBIN |}).
    specialize (IH lb1 (update_at p (mark_used now) l)).
    assert (Hc1 : counter_of nm (round_robin_counters lb1) = (c + 1) mod n).
    { unfold counter_of, lb1. cbn [round_robin_counters].
      now rewrite PyDictFacts.get_set_same. }
    cbv zeta in IH. rewrite Hc1 in IH.
    destruct (resolutions nm ru env lb1) as [rs lb2] eqn:Er.
    cbn [fst] in IH |- *. unfold selected_positions in IH |- *.
    cbn [flat_map app length rotation map]. rewrite IH.
    + f_equal. symmetry. now apply nth_error_nth.
    + reflexivity.
    + apply PyDictFacts.get_set_same.
    + rewrite <- Hfl. now apply LoadBalancerFacts.map_update_at.
    + rewrite <- Hw. now apply LoadBalancerFacts.map_update_at.
    + exact Hne.
Qed.

(** X23. Under weighted round-robin, over [m] whole cycles of as many
    consecutive resolutions as the healthy instances' weights add up to,
    each healthy instance of the list is selected exactly [m] times its
    weight (a weight below one counting as none), whatever the stored
    counter was, and an unhealthy instance is never selected. *)
Theorem weighted_round_robin_cycle (lb : t) (nm : string)
    (ru : option string) (l : list ServiceInstance) (env : list (Q * nat))
    (m : nat) :
  strategy lb = WEIGHTED_ROUND_ROBIN ->
  PyDict.get nm (service_instances lb) = Some l ->
  weighted_positions l <> [] ->
  length env = (m * length (weighted_positions l))%nat ->
  let rs := fst (resolutions nm ru env lb) in
  forall p inst, nth_error l p = Some inst ->
    count_occ Nat.eq_dec (selected_positions rs) p
    = if is_healthy inst then (m * Z.to_nat (weight inst))%nat else 0%nat.
Proof.
  intros Hs G Hne Hlen rs p inst Hp.
  pose proof (resolutions_weighted nm ru l env lb l Hs G eq_refl eq_refl Hne)
    as Hsel.
  cbv zeta in Hsel. fold rs in Hsel. rewrite Hsel, Hlen.
  assert (Hn : (0 < length (weighted_positions l))%nat).
  { destruct (weighted_positions l); [contradiction|cbn [length]; lia]. }
  rewrite rotation_cycles by exact Hn.
  rewrite map_map.
  rewrite (map_ext _ (fun i => nth i (weighted_positions l) 0%nat))
    by (intros i; now rewrite Nat2Z.id).
  rewrite map_nth_seq.
  destruct (is_healthy inst) eqn:Hh.
  - f_equal. unfold weighted_positions.
    apply (count_weighted_in
             (fun r : Ref => Z.to_nat (weight (snd r))) _ p inst).
    + apply LoadBalancerFacts.NoDup_healthy_positions.
    + now apply healthy_instances_In.
  - unfold weighted_positions. rewrite count_weighted_out; [lia|].
    intros Hin. apply in_map_iff in Hin as ([q other] & Hq & Hin).
    cbn [fst] in Hq. subst q.
    apply LoadBalancerFacts.In_healthy_instances in Hin as (Hn' & Hh').
    congruence.
Qed.

Lemma weighted_round_robin_cycle_witness :
  let env := repeat (0%Q, 0%nat) 8 in
  let rs := fst (resolutions "svc" None env
                   (balancer_of WEIGHTED_ROUND_ROBIN weighted_instances)) in
  count_occ Nat.eq_dec (selected_positions rs) 0%nat = 2%nat
  /\ count_occ Nat.eq_dec (selected_positions rs) 1%nat = 6%nat.
Proof.
  intros env rs.
  assert (Hne : weighted_positions weighted_instances <> [])
    by (cbv; discriminate).
  split.
  - exact (weighted_round_robin_cycle
             (balancer_of WEIGHTED_ROUND_ROBIN weighted_instances) "svc" None
             weighted_instances env 2 eq_refl eq_refl Hne eq_refl
             0%nat (new_instance "http://light" 1) eq_refl).
  - exact (weighted_round_robin_cycle
             (balancer_of WEIGHTED_ROUND_ROBIN weighted_instances) "svc" None
             weighted_instances env 2 eq_refl eq_refl Hne eq_refl
             1%nat (new_instance "http://heavy" 3) eq_refl).
Defined.

(** *** What a resolution leaves of the addresses and health flags *)

Lemma resolve_none_unchanged nm ru now draw lb :
  fst (resolve nm ru now draw lb) = None ->
  snd (resolve nm ru now draw lb) = lb.
Proof.
  unfold resolve.
  assert (Hsel : forall h : list Ref, h <> [] ->
            exists sel cs,
              _select_instance (strategy lb) draw nm h
                               (round_robin_counters lb) = Some (sel, cs)
              /\ In sel h)
    by (intros; now apply select_instance_total).
  assert (Hlb : {| strategy := strategy lb;
                   service_instances := service_instances lb;
                   round_robin_counters := round_robin_counters lb |} = lb)
    by now destruct lb.
  destruct (PyDict.get nm (service_instances lb)) as [[|x0 l0]|] eqn:G.
  - destruct ru as [su|]; [destruct (truthy su)|];
      try (intros _; reflexivity).
    destruct (healthy_instances [new_instance su 1]) as [|h hs] eqn:Eh;
      [cbv in Eh; discriminate Eh|].
    destruct (Hsel (h :: hs) ltac:(discriminate)) as (sel & cs & E & _).
    rewrite E. cbn [fst]. intros H. discriminate H.
  - destruct (healthy_instances (x0 :: l0)) as [|h hs] eqn:Eh;
      [intros _; exact Hlb|].
    destruct (Hsel (h :: hs) ltac:(discriminate)) as (sel & cs & E & _).
    rewrite E. cbn [fst]. intros H. discriminate H.
  - destruct ru as [su|]; [destruct (truthy su)|];
      try (intros _; reflexivity).
    destruct (healthy_instances [new_instance su 1]) as [|h hs] eqn:Eh;
      [cbv in Eh; discriminate Eh|].
    destruct (Hsel (h :: hs) ltac:(discriminate)) as (sel & cs & E & _).
    rewrite E. cbn [fst]. intros H. discriminate H.
Qed.

Lemma resolvable_stored nm ru lb x r :
  get_service_instances nm lb = x :: r ->
  resolvable_instances nm ru lb = x :: r.
Proof. intros H. unfold resolvable_instances. now rewrite H. Qed.

Lemma update_at_nonempty {A : Type} (f : A -> A) p x (r : list A) :
  exists y ys, update_at p f (x :: r) = y :: ys.
Proof. destruct p; cbn [update_at]; eauto. Qed.

Lemma resolvable_after nm ru now draw lb :
  let lb' := snd (resolve nm ru now draw lb) in
  map url (resolvable_instances nm ru lb')
  = map url (resolvable_instances nm ru lb)
  /\ map is_healthy (resolvable_instances nm ru lb')
     = map is_healthy (resolvable_instances nm ru lb).
Proof.
  intros lb'. subst lb'.
  destruct (resolve_cases nm ru now draw lb)
    as [(_ & Hn)|(sel & cs & _ & Hin & _ & Hl & _)].
  - rewrite (resolve_none_unchanged _ _ _ _ _ Hn). auto.
  - destruct (resolvable_instances nm ru lb) as [|x r] eqn:El;
      [contradiction|].
    destruct (update_at_nonempty (mark_used now) (fst sel) x r)
      as (y & ys & Eu).
    rewrite Eu in Hl. rewrite (resolvable_stored _ ru _ _ _ Hl), <- Eu.
    split; now apply LoadBalancerFacts.map_update_at.
Qed.

Lemma in_combine_maps {A B C : Type} (f : A -> B) (g : A -> C) (l : list A)
    x :
  In x l -> In (f x, g x) (combine (map f l) (map g l)).
Proof.
  induction l as [|y r IH]; cbn [map combine In]; [tauto|].
  intros [->|H]; [now left|right; auto].
Qed.

Lemma combine_maps_in {A B C : Type} (f : A -> B) (g : A -> C) (l : list A)
    a b :
  In (a, b) (combine (map f l) (map g l)) ->
  exists x, In x l /\ f x = a /\ g x = b.
Proof.
  induction l as [|y r IH]; cbn [map combine In]; [tauto|].
  intros [H|H].
  - injection H as <- <-. exists y. auto.
  - destruct (IH H) as (x & Hx & Hab). exists x. auto.
Qed.

Lemma resolve_picks nm ru now draw lb p u :
  fst (resolve nm ru now draw lb) = Some (p, u) ->
  In (u, true) (combine (map url (resolvable_instances nm ru lb))
                        (map is_healthy (resolvable_instances nm ru lb))).
Proof.
  intros Hres.
  destruct (resolve_cases nm ru now draw lb)
    as [(_ & Hn)|(sel & cs & _ & Hin & Hr & _)]; [congruence|].
  rewrite Hr in Hres. injection Hres as <- <-.
  destruct sel as [q inst].
  apply LoadBalancerFacts.In_healthy_instances in Hin as (Hn & Hh).
  apply nth_error_In in Hn. cbn [fst snd]. rewrite <- Hh.
  now apply in_combine_maps.
Qed.

(** Every address a run of resolutions returns is the address of an
    instance that was healthy in the list the first of them worked on. *)
Lemma resolutions_viewed nm ru env : forall lb,
  Forall (fun r => forall p u, r = Some (p, u) ->
            In (u, true)
               (combine (map url (resolvable_instances nm ru lb))
                        (map is_healthy (resolvable_instances nm ru lb))))
         (fst (resolutions nm ru env lb)).
Proof.
  induction env as [|[now draw] env IH]; intros lb; cbn [resolutions].
  - constructor.
  - pose proof (resolve_picks nm ru now draw lb) as Hpick.
    pose proof (resolvable_after nm ru now draw lb) as (Hu & Hh).
    destruct (resolve nm ru now draw lb) as [r lb1].
    specialize (IH lb1).
    destruct (resolutions nm ru env lb1) as [rs lb2].
    cbn [fst snd] in *. constructor.
    + intros p u ->. now apply (Hpick p u).
    + rewrite Hu, Hh in IH. exact IH.
Qed.

(** *** Removing an instance *)

(** X24. [remove_service_instance] answers [True] exactly when the service
    name has an instance list, whether or not an instance has the address;
    after it, no resolution of the service returns the removed address,
    however many follow, unless the registry gives that very address when
    the list has become empty. *)
Theorem removed_address_not_resolved (nm u : string) (ru : option string)
    (env : list (Q * nat)) (lb : t) :
  ru <> Some u ->
  let r := remove_service_instance nm u lb in
  fst r = PyDict.mem nm (service_instances lb)
  /\ Forall (fun a => option_map snd a <> Some u)
            (fst (resolutions nm ru env (snd r))).
Proof.
  intros Hru r. split.
  - subst r. unfold remove_service_instance, PyDict.mem.
    now destruct (PyDict.get nm (service_instances lb)).
  - assert (Hst : ~ In u (map url (get_service_instances nm (snd r)))).
    { subst r. unfold remove_service_instance, get_service_instances.
      destruct (PyDict.get nm (service_instances lb)) as [l|] eqn:G;
        cbn [snd service_instances].
      - destruct (filter (fun inst => negb (String.eqb (url inst) u)) l)
          as [|k ks] eqn:Ek.
        + rewrite PyDictFacts.get_del_same. intros [].
        + rewrite PyDictFacts.get_set_same, <- Ek. intros Hin.
          apply in_map_iff in Hin as (x & Hx & Hin).
          apply filter_In in Hin as (_ & Hin).
          apply negb_true_iff, String.eqb_neq in Hin. congruence.
      - rewrite G. intros []. }
    assert (Hno : ~ In u (map url (resolvable_instances nm ru (snd r)))).
    { unfold resolvable_instances.
      destruct (get_service_instances nm (snd r)) as [|x xs] eqn:Eg;
        [|exact Hst].
      destruct ru as [su|]; [destruct (truthy su)|]; cbn [map In];
        try tauto.
      intros [E|[]]. apply Hru. cbn [url new_instance] in E. now rewrite E. }
    eapply Forall_impl; [|apply resolutions_viewed]. cbv beta.
    intros a Ha. destruct a as [[p u']|]; cbn [option_map snd];
      [|discriminate].
    intros [= ->]. apply Hno. specialize (Ha p u eq_refl).
    now apply in_combine_l in Ha.
Qed.

Lemma removed_address_not_resolved_witness :
  let r := remove_service_instance "svc" "http://a:1" sample_balancer in
  fst r = PyDict.mem "svc" (service_instances sample_balancer)
  /\ Forall (fun a => option_map snd a <> Some "http://a:1")
            (fst (resolutions "svc" None [(0%Q, 0%nat); (1%Q, 0%nat)]
                    (snd r))).
Proof.
  apply (removed_address_not_resolved "svc" "http://a:1" None
           [(0%Q, 0%nat); (1%Q, 0%nat)] sample_balancer).
  discriminate.
Defined.

(** *** Marking an instance unhealthy *)

Lemma update_first_split u f l l' :
  update_first u f l = Some l' ->
  exists pre x post,
    l = pre ++ x :: post /\ url x = u /\ ~ In u (map url pre)
    /\ l' = pre ++ f x :: post.
Proof.
  revert l'. induction l as [|y r IH]; intros l'; cbn [update_first];
    [discriminate|].
  destruct (String.eqb (url y) u) eqn:E.
  - intros [= <-]. apply String.eqb_eq in E.
    exists [], y, r. cbn [app map In]. tauto.
  - destruct (update_first u f r) as [r'|]; [|discriminate].
    cbn [option_map]. intros [= <-].
    destruct (IH r' eq_refl) as (pre & x & post & -> & Hx & Hpre & ->).
    apply String.eqb_neq in E.
    exists (y :: pre), x, post. cbn [app map In].
    repeat split; auto. intros [H|H]; auto.
Qed.

(** X25. When a service's instances have pairwise different addresses
    and [update_instance_health] has marked the instance at an address
    unhealthy (answering [True]), no resolution of the service returns
    that address, however many follow and whatever the registry says. *)
Theorem unhealthy_address_not_resolved (nm u : string) (ru : option string)
    (env : list (Q * nat)) (lb lb' : t) :
  update_instance_health nm u false lb = (true, lb') ->
  NoDup (map url (get_service_instances nm lb)) ->
  Forall (fun a => option_map snd a <> Some u)
         (fst (resolutions nm ru env lb')).
Proof.
  intros Hup Hnd.
  unfold update_instance_health, update_instance in Hup.
  unfold get_service_instances in Hnd.
  destruct (PyDict.get nm (service_instances lb)) as [l|] eqn:G;
    [|discriminate].
  destruct (update_first u (set_healthy false) l) as [l'|] eqn:Eu;
    [|discriminate].
  injection Hup as <-.
  destruct (update_first_split _ _ _ _ Eu)
    as (pre & x & post & El & Hx & Hpre & El').
  set (lb1 := {| strategy := strategy lb |}).
  assert (Hres : resolvable_instances nm ru lb1
                 = pre ++ set_healthy false x :: post).
  { unfold resolvable_instances, get_service_instances, lb1.
    cbn [service_instances]. rewrite PyDictFacts.get_set_same, El'.
    now destruct pre. }
  eapply Forall_impl; [|apply resolutions_viewed]. cbv beta.
  intros a Ha. destruct a as [[p u']|]; cbn [option_map snd];
    [|discriminate].
  intros [= ->]. specialize (Ha p u eq_refl). rewrite Hres in Ha.
  apply combine_maps_in in Ha as (y & Hy & Hyu & Hyh).
  apply in_app_or in Hy as [Hy|[<-|Hy]].
  - apply Hpre. rewrite <- Hyu. now apply in_map.
  - cbn [is_healthy set_healthy] in Hyh. discriminate.
  - rewrite El, map_app in Hnd. cbn [map] in Hnd.
    apply NoDup_remove_2 in Hnd. apply Hnd.
    apply in_or_app. right. rewrite Hx, <- Hyu. now apply in_map.
Qed.

Lemma unhealthy_address_not_resolved_witness :
  Forall (fun a => option_map snd a <> Some "http://c:1")
         (fst (resolutions "svc" None [(0%Q, 0%nat); (1%Q, 0%nat)]
                 (snd (update_instance_health "svc" "http://c:1" false
                         sample_balancer)))).
Proof.
  apply (unhealthy_address_not_resolved "svc" "http://c:1" None
           [(0%Q, 0%nat); (1%Q, 0%nat)] sample_balancer).
  - reflexivity.
  - cbv.
    repeat (constructor;
            [intros H;
             repeat (destruct H as [H|H]; [discriminate H|]); exact H|]).
    constructor.
Defined.

(** *** Connection counts *)

Lemma sum_set (F : list ServiceInstance -> Z) nm v
    (d : PyDict.t (list ServiceInstance)) :
  fold_right Z.add 0 (map F (map snd (PyDict.set nm v d)))
  = fold_right Z.add 0 (map F (map snd d))
    - match PyDict.get nm d with Some l => F l | None => 0 end
    + F v.
Proof.
  induction d as [|[k w] d IH]; cbn [PyDict.set PyDict.get map snd fold_right].
  - lia.
  - destruct (String.eqb nm k); cbn [map snd fold_right]; lia.
Qed.

Lemma connections_update_at now (l : list ServiceInstance) : forall p inst,
  nth_error l p = Some inst ->
  connections (update_at p (mark_used now) l) = connections l + 1.
Proof.
  unfold connections.
  induction l as [|x r IH]; intros [|p] inst; cbn [nth_error];
    try discriminate.
  - intros _.
    cbn [update_at map fold_right active_connections mark_used]. lia.
  - intros H. cbn [update_at map fold_right]. rewrite (IH p inst H). lia.
Qed.

Lemma total_connections lb :
  total_active_connections (get_load_balancer_statistics lb)
  = fold_right Z.add 0 (map connections (map snd (service_instances lb))).
Proof. reflexivity. Qed.

Lemma resolve_connections nm ru now draw lb :
  total_active_connections
    (get_load_balancer_statistics (snd (resolve nm ru now draw lb)))
  = total_active_connections (get_load_balancer_statistics lb)
    + match fst (resolve nm ru now draw lb) with
      | Some _ => 1
      | None => 0
      end.
Proof.
  rewrite !total_connections. unfold resolve.
  assert (Hsel : forall h : list Ref, h <> [] ->
            exists sel cs,
              _select_instance (strategy lb) draw nm h
                               (round_robin_counters lb) = Some (sel, cs)
              /\ In sel h)
    by (intros; now apply select_instance_total).
  assert (Hnew : forall su sel,
            In sel (healthy_instances [new_instance su 1]) ->
            connections (update_at (fst sel) (mark_used now)
                           [new_instance su 1]) = 1).
  { intros su [q inst] Hin.
    apply LoadBalancerFacts.In_healthy_instances in Hin as (Hn & _).
    cbn [fst]. now rewrite (connections_update_at now _ q inst Hn). }
  destruct (PyDict.get nm (service_instances lb)) as [[|x0 l0]|] eqn:G.
  - destruct ru as [su|]; [destruct (truthy su)|];
      try (cbn [fst snd]; lia).
    destruct (healthy_instances [new_instance su 1]) as [|h hs] eqn:Eh;
      [cbv in Eh; discriminate Eh|].
    destruct (Hsel (h :: hs) ltac:(discriminate)) as (sel & cs & E & Hin).
    rewrite E. cbn [fst snd service_instances]. rewrite <- Eh in Hin.
    rewrite !sum_set, PyDictFacts.get_set_same, G, (Hnew su sel Hin).
    cbn. lia.
  - destruct (healthy_instances (x0 :: l0)) as [|h hs] eqn:Eh;
      [cbn [fst snd service_instances]; lia|].
    destruct (Hsel (h :: hs) ltac:(discriminate)) as (sel & cs & E & Hin).
    rewrite E. cbn [fst snd service_instances].
    rewrite sum_set, G. rewrite <- Eh in Hin. destruct sel as [q inst].
    apply LoadBalancerFacts.In_healthy_instances in Hin as (Hn & _).
    cbn [fst]. rewrite (connections_update_at now _ q inst Hn). lia.
  - destruct ru as [su|]; [destruct (truthy su)|];
      try (cbn [fst snd]; lia).
    destruct (healthy_instances [new_instance su 1]) as [|h hs] eqn:Eh;
      [cbv in Eh; discriminate Eh|].
    destruct (Hsel (h :: hs) ltac:(discriminate)) as (sel & cs & E & Hin).
    rewrite E. cbn [fst snd service_instances]. rewrite <- Eh in Hin.
    rewrite !sum_set, PyDictFacts.get_set_same, G, (Hnew su sel Hin).
    cbn. lia.
Qed.

(** X26. The balancer only ever adds to an instance's connection count:
    over any run of resolutions of a service, the total of active
    connections its statistics report grows by exactly the number of
    resolutions that returned an address. *)
Theorem connections_count_resolutions (nm : string) (ru : option string)
    (env : list (Q * nat)) :
  forall lb : t,
  total_active_connections
    (get_load_balancer_statistics (snd (resolutions nm ru env lb)))
  = total_active_connections (get_load_balancer_statistics lb)
    + Z.of_nat (length (selected_positions
                          (fst (resolutions nm ru env lb)))).
Proof.
  induction env as [|[now draw] env IH]; intros lb; cbn [resolutions].
  - cbn [fst snd selected_positions flat_map length]. lia.
  - pose proof (resolve_connections nm ru now draw lb) as Hstep.
    destruct (resolve nm ru now draw lb) as [r lb1].
    specialize (IH lb1).
    destruct (resolutions nm ru env lb1) as [rs lb2].
    cbn [fst snd] in *. rewrite IH, Hstep.
    unfold selected_positions. cbn [flat_map]. rewrite length_app.
    destruct r as [[p u]|]; cbn [length]; lia.
Qed.

(** X27. In the balancer's statistics the number of healthy instances is
    between zero and the total, the number reported as unhealthy is the
    number of instances whose health flag is off, and the totals are the
    sums of the per-service figures. *)
Theorem statistics_add_up (lb : t) :
  let s := get_load_balancer_statistics lb in
  let per_service := map snd (stat_services s) in
  0 <= stat_healthy_instances s <= total_instances s
  /\ unhealthy_instances s
     = fold_right Z.add 0
         (map (fun l => Z.of_nat
                          (length (filter (fun i => negb (is_healthy i)) l)))
              (map snd (service_instances lb)))
  /\ total_instances s
     = fold_right Z.add 0 (map s_total_instances per_service)
  /\ stat_healthy_instances s
     = fold_right Z.add 0 (map s_healthy_instances per_service)
  /\ total_active_connections s
     = fold_right Z.add 0 (map s_total_connections per_service).
Proof.
  intros s per_service.
  assert (H3 : map s_total_instances per_service
               = map (fun l => Z.of_nat (length l))
                     (map snd (service_instances lb))).
  { unfold per_service, s, get_load_balancer_statistics.
    cbn [stat_services]. rewrite !map_map. now apply map_ext. }
  assert (H4 : map s_healthy_instances per_service
               = map count_healthy (map snd (service_instances lb))).
  { unfold per_service, s, get_load_balancer_statistics.
    cbn [stat_services]. rewrite !map_map. now apply map_ext. }
  assert (H5 : map s_total_connections per_service
               = map connections (map snd (service_instances lb))).
  { unfold per_service, s, get_load_balancer_statistics.
    cbn [stat_services]. rewrite !map_map. now apply map_ext. }
  rewrite H3, H4, H5. clear H3 H4 H5. subst per_service s.
  unfold get_load_balancer_statistics.
  cbn [stat_healthy_instances total_instances unhealthy_instances
       total_active_connections].
  assert (Hone : forall l : list ServiceInstance,
            Z.of_nat (length l)
            = count_healthy l
              + Z.of_nat (length (filter (fun i => negb (is_healthy i)) l))).
  { unfold count_healthy. induction l as [|x l IH]; cbn [filter length].
    - reflexivity.
    - destruct (is_healthy x); cbn [negb length]; lia. }
  generalize (map snd (service_instances lb)) as ls.
  induction ls as [|l ls IH]; cbn [map fold_right].
  - repeat split; lia.
  - destruct IH as (I1 & I2 & _).
    pose proof (Hone l) as Hl.
    assert (0 <= count_healthy l) by (unfold count_healthy; lia).
    repeat split; lia.
Qed.

End LoadBalancerExtra.

(* ------------------------------------------------------------------ *)
(** ** More on the gateway: resolution through the registry, the proxy
    and the health endpoint *)

Module GatewayExtra.
Import LoadBalancer Gateway.

(** *** The balancer's part of a gateway resolution *)

Lemma fst_get_service_url nm now draw g :
  fst (get_service_url nm now draw g)
  = option_map snd
      (fst (resolve nm
              (ServiceRegistry.get_service_url nm (service_registry g))
              now draw (load_balancer g))).
Proof.
  unfold get_service_url, LoadBalancer.get_service_url.
  now destruct (resolve _ _ _ _ _).
Qed.

Lemma load_balancer_after nm now draw g :
  load_balancer (snd (get_service_url nm now draw g))
  = snd (resolve nm
           (ServiceRegistry.get_service_url nm (service_registry g))
           now draw (load_balancer g)).
Proof.
  unfold get_service_url, LoadBalancer.get_service_url.
  now destruct (resolve _ _ _ _ _).
Qed.

(** *** Operations under another name *)

Lemma instances_other_add nm nm' u w lb :
  nm <> nm' ->
  get_service_instances nm (snd (add_service_instance nm' u w lb))
  = get_service_instances nm lb.
Proof.
  intros Hne. unfold add_service_instance, get_service_instances.
  cbn [snd service_instances].
  rewrite PyDictFacts.get_set_other by assumption.
  destruct (PyDict.mem nm' (service_instances lb)); [reflexivity|].
  now rewrite PyDictFacts.get_set_other.
Qed.

Lemma instances_other_remove nm nm' u lb :
  nm <> nm' ->
  get_service_instances nm (snd (remove_service_instance nm' u lb))
  = get_service_instances nm lb.
Proof.
  intros Hne. unfold remove_service_instance, get_service_instances.
  destruct (PyDict.get nm' (service_instances lb)) as [l|];
    [|reflexivity].
  match goal with
  | |- context [filter ?f ?l0] => destruct (filter f l0)
  end; cbn [snd service_instances].
  - now rewrite PyDictFacts.get_del_other, PyDictFacts.get_set_other.
  - now rewrite PyDictFacts.get_set_other.
Qed.

Lemma instances_other_update nm nm' u f lb :
  nm <> nm' ->
  get_service_instances nm (snd (update_instance nm' u f lb))
  = get_service_instances nm lb.
Proof.
  intros Hne. unfold update_instance, get_service_instances.
  destruct (PyDict.get nm' (service_instances lb)) as [l|];
    [|reflexivity].
  destruct (update_first u f l); [|reflexivity].
  cbn [snd service_instances]. now rewrite PyDictFacts.get_set_other.
Qed.

Lemma instances_other_resolve nm nm' ru now draw lb :
  nm <> nm' ->
  get_service_instances nm (snd (resolve nm' ru now draw lb))
  = get_service_instances nm lb.
Proof.
  intros Hne. unfold get_service_instances.
  destruct (LoadBalancerFacts.resolve_effect nm' ru now draw lb)
    as (_ & _ & _ & Hoth & _).
  now rewrite (Hoth nm Hne).
Qed.

Lemma update_first_map {B : Type} (g : ServiceInstance -> B) u f l l' :
  (forall x, g (f x) = g x) ->
  update_first u f l = Some l' -> map g l' = map g l.
Proof.
  intros Hf. revert l'.
  induction l as [|x r IH]; intros l'; cbn [update_first]; [discriminate|].
  destruct (String.eqb (url x) u).
  - intros [= <-]. cbn [map]. now rewrite Hf.
  - destruct (update_first u f r) as [r'|]; [|discriminate].
    cbn [option_map]. intros [= <-]. cbn [map]. now rewrite (IH r').
Qed.

Lemma instances_update_view {B : Type} (g : ServiceInstance -> B)
    nm u f lb :
  (forall x, g (f x) = g x) ->
  map g (get_service_instances nm (snd (update_instance nm u f lb)))
  = map g (get_service_instances nm lb).
Proof.
  intros Hf. unfold update_instance, get_service_instances.
  destruct (PyDict.get nm (service_instances lb)) as [l|] eqn:G;
    [|cbn [snd]; now rewrite G].
  destruct (update_first u f l) as [l'|] eqn:E; [|cbn [snd]; now rewrite G].
  cbn [snd service_instances]. rewrite PyDictFacts.get_set_same.
  exact (update_first_map g u f l l' Hf E).
Qed.

(** *** Resolutions of a name with stored instances *)

Lemma stored_after nm ru now draw lb x r :
  get_service_instances nm lb = x :: r ->
  map url (get_service_instances nm (snd (resolve nm ru now draw lb)))
  = map url (x :: r)
  /\ map is_healthy
       (get_service_instances nm (snd (resolve nm ru now draw lb)))
     = map is_healthy (x :: r).
Proof.
  intros Hg.
  pose proof (LoadBalancerExtra.resolvable_stored nm ru lb x r Hg) as Hl.
  destruct (LoadBalancerExtra.resolve_cases nm ru now draw lb)
    as [(_ & Hn)|(sel & cs & _ & _ & _ & Hst & _)].
  - rewrite (LoadBalancerExtra.resolve_none_unchanged _ _ _ _ _ Hn), Hg.
    auto.
  - rewrite Hst, Hl.
    split; now apply LoadBalancerFacts.map_update_at.
Qed.

Lemma single_healthy_resolved nm u ru now draw lb :
  single_healthy nm u lb ->
  option_map snd (fst (resolve nm ru now draw lb)) = Some u.
Proof.
  intros (Hu & Hh).
  destruct (get_service_instances nm lb) as [|x [|y r]] eqn:Hg;
    try discriminate.
  injection Hu as Hu. injection Hh as Hh.
  pose proof (LoadBalancerExtra.resolvable_stored nm ru lb x [] Hg) as Hl.
  destruct (LoadBalancerExtra.resolve_cases nm ru now draw lb)
    as [(Hnil & _)|(sel & cs & _ & Hin & Hr & _)].
  - rewrite Hl in Hnil.
    apply LoadBalancerExtra.healthy_instances_nil in Hnil.
    inversion Hnil; congruence.
  - rewrite Hr. cbn [option_map snd]. rewrite Hl in Hin.
    destruct sel as [p inst].
    apply LoadBalancerFacts.In_healthy_instances in Hin as (Hn & _).
    apply nth_error_In in Hn. destruct Hn as [<-|[]]. cbn [snd].
    now rewrite Hu.
Qed.

Lemma first_resolution_single nm u ru now draw lb :
  get_service_instances nm lb = [] ->
  option_map snd (fst (resolve nm ru now draw lb)) = Some u ->
  single_healthy nm u (snd (resolve nm ru now draw lb)).
Proof.
  intros Hg Hres.
  destruct (LoadBalancerExtra.resolve_cases nm ru now draw lb)
    as [(_ & Hn)|(sel & cs & _ & Hin & Hr & Hst & _)].
  - rewrite Hn in Hres. discriminate.
  - rewrite Hr in Hres. cbn [option_map snd] in Hres.
    injection Hres as Hres.
    unfold single_healthy. rewrite Hst.
    rewrite !LoadBalancerFacts.map_update_at by reflexivity.
    unfold resolvable_instances in Hin |- *. rewrite Hg in Hin |- *.
    destruct ru as [su|]; [destruct (truthy su)|]; try contradiction.
    destruct sel as [p inst].
    apply LoadBalancerFacts.In_healthy_instances in Hin as (Hn & _).
    apply nth_error_In in Hn. destruct Hn as [<-|[]].
    cbn [snd url new_instance] in Hres. subst su. split; reflexivity.
Qed.

Lemma step_keeps_single nm u g o :
  keeps_instances nm o = true ->
  single_healthy nm u (load_balancer g) ->
  single_healthy nm u (load_balancer (step g o)).
Proof.
  intros Hk (Hu & Hh). unfold single_healthy.
  destruct (get_service_instances nm (load_balancer g)) as [|x r] eqn:Hg;
    [discriminate|].
  assert (Hname : forall nm', negb (String.eqb nm' nm) = true -> nm <> nm').
  { intros nm' H E. subst nm'. now rewrite String.eqb_refl in H. }
  destruct o as [ro|nm' now draw|nm' a w|nm' a|nm' a b|nm' a rt|s|];
    cbn [step keeps_instances load_balancer with_balancer] in *.
  - rewrite Hg. auto.
  - rewrite load_balancer_after.
    destruct (string_dec nm nm') as [<-|Hne].
    + destruct (stored_after nm
                  (ServiceRegistry.get_service_url nm (service_registry g))
                  now draw (load_balancer g) x r Hg) as (H1 & H2).
      rewrite H1, H2. auto.
    + rewrite instances_other_resolve, Hg by assumption. auto.
  - rewrite instances_other_add, Hg by auto. auto.
  - rewrite instances_other_remove, Hg by auto. auto.
  - unfold update_instance_health.
    rewrite instances_other_update, Hg by auto. auto.
  - unfold update_instance_response_time.
    destruct (string_dec nm nm') as [<-|Hne].
    + rewrite !instances_update_view, Hg by reflexivity. auto.
    + rewrite instances_other_update, Hg by assumption. auto.
  - change (get_service_instances nm (set_strategy s (load_balancer g)))
      with (get_service_instances nm (load_balancer g)).
    rewrite Hg. auto.
  - discriminate.
Qed.

Lemma run_keeps_single nm u ops : forall g,
  forallb (keeps_instances nm) ops = true ->
  single_healthy nm u (load_balancer g) ->
  single_healthy nm u (load_balancer (run ops g)).
Proof.
  induction ops as [|o ops IH]; intros g Hk Hs; cbn [run fold_left];
    [exact Hs|].
  cbn [forallb] in Hk. apply andb_true_iff in Hk as (Ho & Hk).
  apply (IH (step g o) Hk). now apply step_keeps_single.
Qed.

(** X28. The registry is asked for an address only while the balancer
    stores no instance for the name.  Once a resolution has answered with
    the registry's address, every later resolution of that name answers
    with the same address, whatever happens to the registry in between
    (the service unregistered, registered again at another address, or
    found unhealthy by a probe cycle) and whatever is done to other names,
    as long as no instance is added, removed or marked under the name and
    the balancer is not cleaned up. *)
Theorem registry_answer_is_kept (g : t) (nm u : string) (now : Q)
    (draw : nat) (ops : list op) (now' : Q) (draw' : nat) :
  get_service_instances nm (load_balancer g) = [] ->
  fst (get_service_url nm now draw g) = Some u ->
  forallb (keeps_instances nm) ops = true ->
  fst (get_service_url nm now' draw'
         (run ops (snd (get_service_url nm now draw g)))) = Some u.
Proof.
  intros Hg Hres Hops.
  rewrite fst_get_service_url in Hres |- *.
  apply single_healthy_resolved.
  apply run_keeps_single; [exact Hops|].
  rewrite load_balancer_after.
  now apply first_resolution_single.
Qed.

Lemma registry_answer_is_kept_witness :
  fst (get_service_url "voice-service" 9 0
         (run [RegistryOp (ServiceRegistry.Unregister "voice-service");
               Resolve "other" 3 0;
               SetStrategy RANDOM]
              (snd (get_service_url "voice-service" 1 0 voice_gateway))))
  = Some "http://voice-service:8001"
  /\ ServiceRegistry.get_service_url "voice-service"
       (service_registry
          (run [RegistryOp (ServiceRegistry.Unregister "voice-service")]
               voice_gateway)) = None.
Proof.
  split; [|reflexivity].
  apply (registry_answer_is_kept voice_gateway "voice-service"
           "http://voice-service:8001" 1 0
           [RegistryOp (ServiceRegistry.Unregister "voice-service");
            Resolve "other" 3 0;
            SetStrategy RANDOM] 9 0); reflexivity.
Defined.

(** *** The proxy never gives a connection back *)

(** X29. Whatever the upstream does (answers, times out, refuses the
    connection, sends a body that is not JSON), [proxy_request] leaves the
    gateway exactly as the resolution it starts with leaves it: the
    connection counted for the selected instance is never given back, so
    the total the balancer reports grows by one with every proxied request
    that resolved, and is unchanged otherwise. *)
Theorem proxy_never_releases_connection (nm path : string)
    (request : Request) (upstream : Forwarded -> Http.Outcome)
    (renders : Http.json -> bool) (now : Q) (draw : nat) (g : t) :
  let g' := snd (proxy_request nm path request upstream renders now draw g)
  in
  g' = (if initialized g then snd (get_service_url nm now draw g) else g)
  /\ total_active_connections
       (get_load_balancer_statistics (load_balancer g'))
     = total_active_connections
         (get_load_balancer_statistics (load_balancer g))
       + (if initialized g
          then match fst (get_service_url nm now draw g) with
               | Some _ => 1
               | None => 0
               end
          else 0).
Proof.
  intros g'.
  assert (Hg' : g' = if initialized g
                     then snd (get_service_url nm now draw g) else g).
  { subst g'. unfold proxy_request, proxy_try.
    destruct (initialized g); cbn [negb]; [|reflexivity].
    destruct (get_service_url nm now draw g) as [[su|] g1]; cbn [snd].
    - destruct (truthy su).
      + destruct (upstream _) as [response|[| |]]; try reflexivity.
        destruct (String.prefix _ _); [|reflexivity].
        destruct (Http.parsed response); [|reflexivity].
        now destruct (renders _).
      + reflexivity.
    - reflexivity. }
  split; [exact Hg'|]. rewrite Hg'.
  destruct (initialized g); [|lia].
  rewrite load_balancer_after, fst_get_service_url.
  rewrite LoadBalancerExtra.resolve_connections.
  now destruct (fst (resolve _ _ _ _ _)).
Qed.

(** *** The health handler *)

Lemma existsb_keys {V : Type} nm (d : PyDict.t V) :
  existsb (String.eqb nm) (PyDict.keys d) = PyDict.mem nm d.
Proof.
  unfold PyDict.mem, PyDict.keys.
  induction d as [|[k v] d IH]; cbn [map fst existsb PyDict.get]; auto.
  destruct (String.eqb nm k); cbn [orb]; auto.
Qed.

Lemma fold_set_get {V : Type} (f : string -> V) (ks : list string) :
  forall (acc : PyDict.t V) nm,
  PyDict.get nm (fold_left (fun d k => PyDict.set k (f k) d) ks acc)
  = if existsb (String.eqb nm) ks then Some (f nm) else PyDict.get nm acc.
Proof.
  induction ks as [|k ks IH]; intros acc nm; cbn [fold_left existsb]; auto.
  rewrite IH. destruct (existsb (String.eqb nm) ks);
    [now rewrite orb_true_r|].
  rewrite orb_false_r. destruct (String.eqb nm k) eqn:E.
  - apply String.eqb_eq in E. subst k.
    now rewrite PyDictFacts.get_set_same.
  - apply String.eqb_neq in E. now rewrite PyDictFacts.get_set_other.
Qed.

Lemma fold_set_keys {V : Type} (f : string -> V) (ks : list string) :
  forall acc : PyDict.t V,
  NoDup (PyDict.keys acc ++ ks) ->
  PyDict.keys (fold_left (fun d k => PyDict.set k (f k) d) ks acc)
  = PyDict.keys acc ++ ks.
Proof.
  induction ks as [|k ks IH]; intros acc Hnd; cbn [fold_left].
  - now rewrite app_nil_r.
  - assert (Hk : PyDict.get k acc = None).
    { apply PyDictFacts.get_None_keys. intros Hin.
      apply NoDup_remove_2 in Hnd. apply Hnd.
      apply in_or_app. now left. }
    rewrite IH; rewrite (PyDictFacts.keys_set_absent _ _ _ Hk).
    + now rewrite <- app_assoc.
    + now rewrite <- app_assoc.
Qed.

(** X30. Once the gateway is initialised, the [services] entry of the
    dictionary the handler [health_check] builds has, for every name, the
    health flag the registry holds for it, and no entry for a name that is
    not registered; its names are the registered names in the order of
    registration.  It reports the registry's flags only: the instances of
    the balancer are not looked at.  (This is what the handler returns
    when it runs; what a client of [/health] receives is decided by the
    middleware in front of it.) *)
Theorem health_check_reports_registry (g : t) :
  initialized g = true ->
  PyDict.wf (ServiceRegistry.services (service_registry g)) ->
  (forall nm,
     PyDict.get nm (health_check g)
     = option_map ServiceRegistry.is_healthy
         (PyDict.get nm (ServiceRegistry.services (service_registry g))))
  /\ PyDict.keys (health_check g)
     = ServiceRegistry.get_registered_services (service_registry g)
  /\ (forall lb, health_check (with_balancer g lb) = health_check g).
Proof.
  intros Hi Hwf. unfold health_check. rewrite Hi.
  split; [|split].
  - intros nm.
    rewrite (fold_set_get
               (fun k => ServiceRegistry.is_service_healthy k
                           (service_registry g))).
    unfold ServiceRegistry.get_registered_services.
    rewrite existsb_keys. unfold PyDict.mem,
      ServiceRegistry.is_service_healthy.
    now destruct (PyDict.get nm _).
  - rewrite (fold_set_keys
               (fun k => ServiceRegistry.is_service_healthy k
                           (service_registry g))); [reflexivity|].
    exact Hwf.
  - intros lb. cbn [with_balancer initialized service_registry].
    now rewrite Hi.
Qed.

Lemma health_check_reports_registry_witness :
  (forall nm,
     PyDict.get nm (health_check voice_gateway)
     = option_map ServiceRegistry.is_healthy
         (PyDict.get nm
            (ServiceRegistry.services (service_registry voice_gateway))))
  /\ PyDict.keys (health_check voice_gateway)
     = ServiceRegistry.get_registered_services
         (service_registry voice_gateway)
  /\ (forall lb,
        health_check (with_balancer voice_gateway lb)
        = health_check voice_gateway).
Proof.
  apply (health_check_reports_registry voice_gateway).
  - reflexivity.
  - cbv. repeat constructor. intros [].
Defined.

End GatewayExtra.
